(** * Writable streams: a shallow embedding of [src/writable.js] and
      [src/fs-write-stream.js]

    The [Writable] class is a state machine around one mutable record
    ([this[writableState]]).  Its methods are embedded as computations in a
    small state-and-exception monad over the whole object; the collaborators
    it calls ([_write], [_writev], [_final], [_destroy], [process.nextTick])
    are asynchronous, so every call to one of them is recorded in the
    object's [trace] and the closure handed to it is kept in [pending]
    until the environment resumes it.

    Modelling conventions.
    - JavaScript numbers that count bytes are integers here ([Z]); the cork
      depth is a [nat].  The file stream adds a start offset of up to
      [2 ^ 53 - 1] to its byte counter, so its sums are rounded as the
      doubles they are ([FileStream.numAdd]).
    - A producer callback is identified by a number; calling it is the
      trace event [Invoke].
    - [emit] records the signal; listeners other than the [once('finish')]
      listeners installed by [end] are outside the class and are assumed
      not to re-enter it (an ['error'] observer is assumed to be attached).
    - A sink supplied to the constructor is asynchronous: it keeps the
      completion closure and the environment resumes it later.  The
      prototype's own [_final] and [_destroy] call the closure at once. *)

From Stdlib Require Import List ZArith Lia Bool String Arith.
From Stdlib Require Import Strings.Byte.
Import ListNotations.

Local Open Scope string_scope.
Local Open Scope list_scope.
Local Open Scope Z_scope.

(** ** Values, errors, events *)

Definition Buffer := list byte.

Definition byteLength (b : Buffer) : Z := Z.of_nat (List.length b).

(** [Buffer.concat] *)
Definition bufferConcat (l : list Buffer) : Buffer := List.concat l.

(** Total byte length of a list of blocks. *)
Definition totalLength (l : list Buffer) : Z :=
  fold_right (fun b acc => byteLength b + acc) 0 l.

Definition Callback := nat.

(** The JavaScript values a caller can pass where the methods inspect the
    type of an argument. *)
Inductive Value :=
| VUndefined                      (* undefined or null *)
| VBuffer (b : Buffer)
| VString (s : string)
| VFunction (f : Callback)
| VOther.                         (* any other value, taken to be truthy *)

(** [src/errors.js], plus what the runtime and the sink can raise. *)
Inductive Error :=
| MethodNotImplementedError (method : string)
| UnknownEncodingError
| InvalidArgTypeError (argument : string)
| StreamDestroyedError (method : string)
| StreamWriteAfterEndError
| OutOfRangeError (name : string)
| TypeError (what : string)       (* raised by the runtime *)
| SinkError (code : nat).         (* reported by a collaborator *)

Inductive Signal :=
| SigError (e : Error)
| SigDrain
| SigFinish
| SigClose.

(** What [callWrite] receives: one chunk, or an array of chunks
    ([Array.isArray(data)]). *)
Inductive Data :=
| One (chunk : Buffer)
| Many (chunks : list Buffer).

Definition blocksOf (d : Data) : list Buffer :=
  match d with One c => [c] | Many l => l end.

Inductive Event :=
| CallWrite (data : Buffer)            (* this._write(data, callback) *)
| CallWritev (data : list Buffer)      (* this._writev(data, callback) *)
| CallFinal                            (* this._final(callback) *)
| CallDestroy (err : option Error)     (* this._destroy(err, callback) *)
| Emit (s : Signal)
| Invoke (cb : Callback) (err : option Error).

(** The closures the class hands to its collaborators. *)
Inductive Closure :=
| WriteDone (data : Data) (callbacks : list Callback)  (* in callWrite *)
| FinalDone                                            (* in callFinish *)
| DestroyDone (callback : option Callback)             (* in destroy *)
| Tick (callback : Callback) (err : Error).            (* process.nextTick *)

Inductive Impl := Default | Custom.

(** The first argument of [destroy]: nothing, an error, or a function. *)
Inductive ErrorArg :=
| NoError
| AnError (e : Error)
| AFunction (f : Callback).

(** ** The state record *)

Record WritableState := mkState {
  defaultEncoding : string;
  emitClose : bool;
  autoDestroy : bool;
  highWaterMark : Z;
  destroyed : bool;
  ended : bool;
  finished : bool;
  corked : nat;
  writing : bool;
  needDrain : bool;
  bytesInQueue : Z;
  buffers : list Buffer;
  callbacks : list Callback;
  bytesCorked : Z;
  corkedBuffers : list Buffer;
  corkedCallbacks : list Callback
}.

Definition set_defaultEncoding v s :=
  mkState v (emitClose s) (autoDestroy s) (highWaterMark s) (destroyed s)
    (ended s) (finished s) (corked s) (writing s) (needDrain s)
    (bytesInQueue s) (buffers s) (callbacks s) (bytesCorked s)
    (corkedBuffers s) (corkedCallbacks s).
Definition set_destroyed v s :=
  mkState (defaultEncoding s) (emitClose s) (autoDestroy s) (highWaterMark s)
    v (ended s) (finished s) (corked s) (writing s) (needDrain s)
    (bytesInQueue s) (buffers s) (callbacks s) (bytesCorked s)
    (corkedBuffers s) (corkedCallbacks s).
Definition set_ended v s :=
  mkState (defaultEncoding s) (emitClose s) (autoDestroy s) (highWaterMark s)
    (destroyed s) v (finished s) (corked s) (writing s) (needDrain s)
    (bytesInQueue s) (buffers s) (callbacks s) (bytesCorked s)
    (corkedBuffers s) (corkedCallbacks s).
Definition set_finished v s :=
  mkState (defaultEncoding s) (emitClose s) (autoDestroy s) (highWaterMark s)
    (destroyed s) (ended s) v (corked s) (writing s) (needDrain s)
    (bytesInQueue s) (buffers s) (callbacks s) (bytesCorked s)
    (corkedBuffers s) (corkedCallbacks s).
Definition set_corked v s :=
  mkState (defaultEncoding s) (emitClose s) (autoDestroy s) (highWaterMark s)
    (destroyed s) (ended s) (finished s) v (writing s) (needDrain s)
    (bytesInQueue s) (buffers s) (callbacks s) (bytesCorked s)
    (corkedBuffers s) (corkedCallbacks s).
Definition set_writing v s :=
  mkState (defaultEncoding s) (emitClose s) (autoDestroy s) (highWaterMark s)
    (destroyed s) (ended s) (finished s) (corked s) v (needDrain s)
    (bytesInQueue s) (buffers s) (callbacks s) (bytesCorked s)
    (corkedBuffers s) (corkedCallbacks s).
Definition set_needDrain v s :=
  mkState (defaultEncoding s) (emitClose s) (autoDestroy s) (highWaterMark s)
    (destroyed s) (ended s) (finished s) (corked s) (writing s) v
    (bytesInQueue s) (buffers s) (callbacks s) (bytesCorked s)
    (corkedBuffers s) (corkedCallbacks s).
Definition set_bytesInQueue v s :=
  mkState (defaultEncoding s) (emitClose s) (autoDestroy s) (highWaterMark s)
    (destroyed s) (ended s) (finished s) (corked s) (writing s) (needDrain s)
    v (buffers s) (callbacks s) (bytesCorked s)
    (corkedBuffers s) (corkedCallbacks s).
Definition set_buffers v s :=
  mkState (defaultEncoding s) (emitClose s) (autoDestroy s) (highWaterMark s)
    (destroyed s) (ended s) (finished s) (corked s) (writing s) (needDrain s)
    (bytesInQueue s) v (callbacks s) (bytesCorked s)
    (corkedBuffers s) (corkedCallbacks s).
Definition set_callbacks v s :=
  mkState (defaultEncoding s) (emitClose s) (autoDestroy s) (highWaterMark s)
    (destroyed s) (ended s) (finished s) (corked s) (writing s) (needDrain s)
    (bytesInQueue s) (buffers s) v (bytesCorked s)
    (corkedBuffers s) (corkedCallbacks s).
Definition set_bytesCorked v s :=
  mkState (defaultEncoding s) (emitClose s) (autoDestroy s) (highWaterMark s)
    (destroyed s) (ended s) (finished s) (corked s) (writing s) (needDrain s)
    (bytesInQueue s) (buffers s) (callbacks s) v
    (corkedBuffers s) (corkedCallbacks s).
Definition set_corkedBuffers v s :=
  mkState (defaultEncoding s) (emitClose s) (autoDestroy s) (highWaterMark s)
    (destroyed s) (ended s) (finished s) (corked s) (writing s) (needDrain s)
    (bytesInQueue s) (buffers s) (callbacks s) (bytesCorked s)
    v (corkedCallbacks s).
Definition set_corkedCallbacks v s :=
  mkState (defaultEncoding s) (emitClose s) (autoDestroy s) (highWaterMark s)
    (destroyed s) (ended s) (finished s) (corked s) (writing s) (needDrain s)
    (bytesInQueue s) (buffers s) (callbacks s) (bytesCorked s)
    (corkedBuffers s) v.

(** ** The object *)

Record Writable := mkWritable {
  writableState : WritableState;
  has_write : bool;                 (* typeof this._write === 'function' *)
  has_writev : bool;                (* typeof this._writev === 'function' *)
  finalImpl : Impl;                 (* prototype's _final, or the option *)
  destroyImpl : Impl;               (* prototype's _destroy, or the option *)
  finishListeners : list Callback;  (* this.once('finish', callback) *)
  pending : list Closure;           (* closures not yet called back *)
  trace : list Event
}.

Definition with_state (f : WritableState -> WritableState) (w : Writable) :=
  mkWritable (f (writableState w)) (has_write w) (has_writev w) (finalImpl w)
    (destroyImpl w) (finishListeners w) (pending w) (trace w).
Definition with_finishListeners l (w : Writable) :=
  mkWritable (writableState w) (has_write w) (has_writev w) (finalImpl w)
    (destroyImpl w) l (pending w) (trace w).
Definition with_pending l (w : Writable) :=
  mkWritable (writableState w) (has_write w) (has_writev w) (finalImpl w)
    (destroyImpl w) (finishListeners w) l (trace w).
Definition with_trace l (w : Writable) :=
  mkWritable (writableState w) (has_write w) (has_writev w) (finalImpl w)
    (destroyImpl w) (finishListeners w) (pending w) l.

(** Constructor options; the first four tell whether the function was
    supplied. *)
Record Options := mkOptions {
  opt_write : bool;
  opt_writev : bool;
  opt_final : bool;
  opt_destroy : bool;
  opt_defaultEncoding : string;
  opt_highWaterMark : Z;
  opt_emitClose : bool;
  opt_autoDestroy : bool
}.

Definition DEFAULT_BUFFER_SIZE : Z := 16 * 1024.

Definition defaultOptions : Options :=
  mkOptions false false false false "utf8" DEFAULT_BUFFER_SIZE true false.

(** [new Writable(options)] *)
Definition construct (o : Options) : Writable :=
  mkWritable
    (mkState (opt_defaultEncoding o) (opt_emitClose o) (opt_autoDestroy o)
       (opt_highWaterMark o) false false false 0%nat false false
       0 [] [] 0 [] [])
    (opt_write o) (opt_writev o)
    (if opt_final o then Custom else Default)
    (if opt_destroy o then Custom else Default)
    [] [] [].

(** ** The monad: state of the object, and exceptions *)

Inductive Res (A : Type) :=
| Ok (a : A)
| Throw (e : Error).
Arguments Ok {A} a.
Arguments Throw {A} e.

Definition M (A : Type) := Writable -> Res A * Writable.

Definition ret {A} (a : A) : M A := fun w => (Ok a, w).
Definition bind {A B} (m : M A) (k : A -> M B) : M B :=
  fun w => match m w with
           | (Ok a, w') => k a w'
           | (Throw e, w') => (Throw e, w')
           end.
Definition throw {A} (e : Error) : M A := fun w => (Throw e, w).

Notation "x <- m ;; k" := (bind m (fun x => k))
  (at level 61, m at next level, right associativity).
Notation "m ;; k" := (bind m (fun _ => k))
  (at level 61, right associativity).

Definition getState : M WritableState := fun w => (Ok (writableState w), w).
Definition getThis : M Writable := fun w => (Ok w, w).
Definition modify (f : WritableState -> WritableState) : M unit :=
  fun w => (Ok tt, with_state f w).
Definition record (e : Event) : M unit :=
  fun w => (Ok tt, with_trace (trace w ++ [e]) w).
Definition hand_over (c : Closure) : M unit :=
  fun w => (Ok tt, with_pending (pending w ++ [c]) w).
Definition when (b : bool) (m : M unit) : M unit := if b then m else ret tt.

Fixpoint forEach {A} (f : A -> M unit) (l : list A) : M unit :=
  match l with
  | [] => ret tt
  | a :: l' => f a ;; forEach f l'
  end.

(** The final object and the outcome of a computation. *)
Definition exec {A} (m : M A) (w : Writable) : Writable := snd (m w).
Definition outcome {A} (m : M A) (w : Writable) : Res A := fst (m w).

(** ** The methods of [Writable] *)

Section WritableMethods.

(** The runtime's [Buffer.isEncoding], [Buffer.from(string, encoding)] and
    [String.prototype.toLowerCase]. *)
Variable isEncoding : string -> bool.
Variable bufferFrom : string -> string -> Buffer.
Variable toLowerCase : string -> string.

(** [this.emit(name, ...)]: the signal is recorded; a finish signal calls
    and drops the listeners that [end] registered with [once]. *)
Definition emit (sg : Signal) : M unit :=
  record (Emit sg) ;;
  match sg with
  | SigFinish =>
      this <- getThis ;;
      (fun w => (Ok tt, with_finishListeners [] w)) ;;
      forEach (fun cb => record (Invoke cb None)) (finishListeners this)
  | _ => ret tt
  end.

(** The closure that [destroy] passes to [_destroy] (lines 97-107). *)
Definition destroyDone (callback : option Callback) (err : option Error)
  : M unit :=
  match callback with
  | Some cb => record (Invoke cb err)
  | None => match err with
            | Some e => emit (SigError e)
            | None => ret tt
            end
  end ;;
  state <- getState ;;
  when (emitClose state) (emit SigClose).

(** [this._destroy(err, closure)]: the prototype's method calls the
    closure with [err] at once; a supplied one keeps it. *)
Definition call_destroy (err : option Error) (callback : option Callback)
  : M unit :=
  record (CallDestroy err) ;;
  this <- getThis ;;
  match destroyImpl this with
  | Default => destroyDone callback err
  | Custom => hand_over (DestroyDone callback)
  end.

(** [destroy(error, callback)] (lines 86-110).  The first argument may
    be a function, which is then the callback. *)
Definition destroyArgs (error : ErrorArg) (callback : option Callback)
  : option Error * option Callback :=
  match error with
  | AFunction f => (None, Some f)
  | AnError e => (Some e, callback)
  | NoError => (None, callback)
  end.

Definition destroy (error : ErrorArg) (callback : option Callback)
  : M unit :=
  state <- getState ;;
  if destroyed state then throw (StreamDestroyedError "destroy")
  else
    let '(error, callback) := destroyArgs error callback in
    modify (set_destroyed true) ;;
    call_destroy error callback.

(** [errorOrDestroy] (lines 260-266) *)
Definition errorOrDestroy (error : option Error) : M unit :=
  state <- getState ;;
  if autoDestroy state
  then destroy (match error with Some e => AnError e | None => NoError end)
         None
  else match error with
       | Some e => emit (SigError e)
       | None => ret tt
       end.

(** The closure that [callFinish] passes to [_final] (lines 270-273). *)
Definition finalDone (error : option Error) : M unit :=
  emit SigFinish ;;
  errorOrDestroy error.

(** [callFinish] (lines 268-274) *)
Definition callFinish : M unit :=
  modify (set_finished true) ;;
  record CallFinal ;;
  this <- getThis ;;
  match finalImpl this with
  | Default => finalDone None
  | Custom => hand_over FinalDone
  end.

(** [getBuffers] (lines 253-258) *)
Definition getBuffers : M (list Buffer) :=
  state <- getState ;;
  modify (set_buffers []) ;;
  modify (set_bytesInQueue 0) ;;
  ret (buffers state).

(** [callWrite] (lines 209-251).  The completion closure it builds is
    [WriteDone data callbacks]; its body is [writeDone] below. *)
Definition callWrite (data : Data) : M unit :=
  modify (set_writing true) ;;
  state <- getState ;;
  let callbacks := callbacks state in
  modify (set_callbacks []) ;;
  this <- getThis ;;
  if negb (has_write this) && negb (has_writev this)
  then throw (MethodNotImplementedError "_write and _writev")
  else
    match data with
    | Many chunks =>
        if has_writev this
        then record (CallWritev chunks) ;;
             hand_over (WriteDone data callbacks)
        else record (CallWrite (bufferConcat chunks)) ;;
             hand_over (WriteDone data callbacks)
    | One chunk =>
        if has_write this
        then record (CallWrite chunk) ;;
             hand_over (WriteDone data callbacks)
        else throw (TypeError "this._write is not a function")
    end.

(** The completion closure of [callWrite] (lines 217-236). *)
Definition writeDone (callbacks : list Callback) (error : option Error)
  : M unit :=
  forEach (fun cb => record (Invoke cb error)) callbacks ;;
  match error with
  | Some e => errorOrDestroy (Some e)
  | None => ret tt
  end ;;
  state <- getState ;;
  if bytesInQueue state =? 0
  then
    modify (set_writing false) ;;
    when (needDrain state)
         (modify (set_needDrain false) ;; emit SigDrain) ;;
    state' <- getState ;;
    when (ended state') callFinish
  else
    buffers <- getBuffers ;;
    callWrite (Many buffers).

(** [cork] and [uncork] (lines 58-84) *)
Definition cork : M unit :=
  modify (fun s => set_corked (S (corked s)) s).

Definition uncork : M unit :=
  modify (fun s => set_corked (Nat.pred (corked s)) s) ;;
  state <- getState ;;
  match corked state with
  | O =>
      modify (fun s => set_buffers (buffers s ++ corkedBuffers s) s) ;;
      modify (fun s => set_callbacks (callbacks s ++ corkedCallbacks s) s) ;;
      modify (fun s => set_bytesInQueue (bytesInQueue s + bytesCorked s) s) ;;
      modify (set_bytesCorked 0) ;;
      modify (set_corkedBuffers []) ;;
      modify (set_corkedCallbacks []) ;;
      state' <- getState ;;
      if writing state' then ret tt
      else
        buffers <- getBuffers ;;
        callWrite (Many buffers)
  | S _ => ret tt
  end.

(** [setDefaultEncoding] (lines 112-122) *)
Definition setDefaultEncoding (encoding : Value) : M unit :=
  match encoding with
  | VString e =>
      let e := toLowerCase e in
      if isEncoding e then modify (set_defaultEncoding e)
      else throw UnknownEncodingError
  | _ => throw (InvalidArgTypeError "encoding")
  end.

(** [process.nextTick(callback, err)]: the runtime refuses a callback that
    is not a function. *)
Definition nextTick (callback : option Callback) (err : Error) : M unit :=
  match callback with
  | Some cb => hand_over (Tick cb err)
  | None => throw (TypeError "callback must be a function")
  end.

(** [writableLength] (lines 305-309) *)
Definition writableLength (state : WritableState) : Z :=
  bytesInQueue state + bytesCorked state.

(** Lines 148-155 of [write]: which encoding and callback are used. *)
Definition writeArgs (state : WritableState) (encoding : Value)
    (callback : option Callback) : Value * option Callback :=
  let '(encoding, callback) :=
    match encoding with
    | VFunction f => (VString (defaultEncoding state), Some f)
    | _ => (encoding, callback)
    end in
  match encoding with
  | VUndefined | VString EmptyString =>
      (VString (defaultEncoding state), callback)
  | _ => (encoding, callback)
  end.

Definition isEncodingValue (v : Value) : bool :=
  match v with
  | VString e => isEncoding e
  | _ => false
  end.

(** Lines 157-171 of [write]: the checks that throw, and the conversion
    of a string chunk. *)
Definition writeChunk (this : Writable) (chunk encoding : Value)
  : Res Buffer :=
  if negb (isEncodingValue encoding) then Throw UnknownEncodingError
  else match chunk with
       | VBuffer b =>
           if has_write this then Ok b
           else Throw (MethodNotImplementedError "_write")
       | VString s =>
           if has_write this
           then Ok (bufferFrom s
                      match encoding with
                      | VString e => e
                      | _ => EmptyString
                      end)
           else Throw (MethodNotImplementedError "_write")
       | _ => Throw (InvalidArgTypeError "chunk")
       end.

(** Lines 173-206 of [write], for a chunk that passed the checks. *)
Definition writeBuffer (chunk : Buffer) (callback : option Callback)
  : M bool :=
  state <- getState ;;
  let err := if ended state then Some StreamWriteAfterEndError
             else if destroyed state
                  then Some (StreamDestroyedError "write")
                  else None in
  match err with
  | Some e =>
      nextTick callback e ;;
      errorOrDestroy (Some e) ;;
      ret false
  | None =>
      match callback with
      | Some cb =>
          match corked state with
          | O => modify (fun s => set_callbacks (callbacks s ++ [cb]) s)
          | S _ => modify (fun s =>
                     set_corkedCallbacks (corkedCallbacks s ++ [cb]) s)
          end
      | None => ret tt
      end ;;
      match corked state with
      | S _ =>
          modify (fun s => set_corkedBuffers (corkedBuffers s ++ [chunk]) s) ;;
          modify (fun s =>
                    set_bytesCorked (bytesCorked s + byteLength chunk) s)
      | O =>
          if writing state
          then
            modify (fun s => set_buffers (buffers s ++ [chunk]) s) ;;
            modify (fun s =>
                      set_bytesInQueue (bytesInQueue s + byteLength chunk) s)
          else callWrite (One chunk)
      end ;;
      state' <- getState ;;
      let nd := highWaterMark state' <=? writableLength state' in
      modify (set_needDrain nd) ;;
      ret (negb nd)
  end.

(** [write(chunk, encoding, callback)] (lines 145-207) *)
Definition write (chunk encoding : Value) (callback : option Callback)
  : M bool :=
  this <- getThis ;;
  let '(encoding, callback) :=
    writeArgs (writableState this) encoding callback in
  match writeChunk this chunk encoding with
  | Throw e => throw e
  | Ok b => writeBuffer b callback
  end.

(** [end(chunk, encoding, callback)] (lines 124-143) *)
Definition endArgs (chunk encoding : Value) (callback : option Callback)
  : Value * Value * option Callback :=
  match chunk with
  | VFunction f => (VUndefined, VUndefined, Some f)
  | _ => match encoding with
         | VFunction f => (chunk, VUndefined, Some f)
         | _ => (chunk, encoding, callback)
         end
  end.

Definition end_ (chunk encoding : Value) (callback : option Callback)
  : M unit :=
  let '(chunk, encoding, callback) := endArgs chunk encoding callback in
  match chunk with
  | VUndefined => ret tt
  | _ => write chunk encoding None ;; ret tt
  end ;;
  modify (set_ended true) ;;
  match callback with
  | Some cb =>
      fun w => (Ok tt, with_finishListeners (finishListeners w ++ [cb]) w)
  | None => ret tt
  end.

End WritableMethods.

(** ** Runs of the state machine

    An action is a method call by the producer, or the environment calling
    back one of the closures the object handed over ([AResume i r]: the
    [i]-th outstanding closure, with the error [r] it is given). *)

Inductive Action :=
| ACork
| AUncork
| ADestroy (error : ErrorArg) (callback : option Callback)
| ASetDefaultEncoding (encoding : Value)
| AEnd (chunk encoding : Value) (callback : option Callback)
| AWrite (chunk encoding : Value) (callback : option Callback)
| AResume (i : nat) (r : option Error).

Definition removeNth {A} (i : nat) (l : list A) : list A :=
  firstn i l ++ skipn (S i) l.

Section Runs.

Variable isEncoding : string -> bool.
Variable bufferFrom : string -> string -> Buffer.
Variable toLowerCase : string -> string.

(** Calling a closure back runs its body; a closure is called once. *)
Definition resume (i : nat) (r : option Error) : M unit :=
  this <- getThis ;;
  match nth_error (pending this) i with
  | None => ret tt
  | Some c =>
      (fun w => (Ok tt, with_pending (removeNth i (pending w)) w)) ;;
      match c with
      | WriteDone _ callbacks => writeDone callbacks r
      | FinalDone => finalDone r
      | DestroyDone callback => destroyDone callback r
      | Tick callback err => record (Invoke callback (Some err))
      end
  end.

Definition perform (a : Action) : M unit :=
  match a with
  | ACork => cork
  | AUncork => uncork
  | ADestroy error callback => destroy error callback
  | ASetDefaultEncoding e => setDefaultEncoding isEncoding toLowerCase e
  | AEnd chunk encoding callback =>
      end_ isEncoding bufferFrom chunk encoding callback
  | AWrite chunk encoding callback =>
      write isEncoding bufferFrom chunk encoding callback ;; ret tt
  | AResume i r => resume i r
  end.

(** An exception leaves the object as it was when thrown. *)
Definition step (w : Writable) (a : Action) : Writable :=
  exec (perform a) w.

Definition run (acts : list Action) (w : Writable) : Writable :=
  fold_left step acts w.

Definition reachable (w : Writable) : Prop :=
  exists (o : Options) (acts : list Action), w = run acts (construct o).

End Runs.

(** A runtime for the concrete runs below: only ["utf8"] is an encoding and
    a string is its own sequence of bytes. *)
Definition utf8Only (e : string) : bool := String.eqb e "utf8".
Definition bytesOfString (s _ : string) : Buffer := list_byte_of_string s.
Definition sameCase (s : string) : string := s.

Definition runUtf8 := run utf8Only bytesOfString sameCase.
Definition writeUtf8 := write utf8Only bytesOfString.

(** A block of [n] zero bytes. *)
Definition zeros (n : nat) : Buffer := repeat x00 n.

(** ** The file stream of [src/fs-write-stream.js]

    [WritableFileStream] overrides the four sink methods of [Writable].
    The module embeds those methods and the callbacks they pass to [fs];
    the [callback] a sink method receives is the completion closure of
    [callWrite], kept abstract here. *)

Module FileStream.

Inductive Request :=
| FsOpen (path flags : string) (mode : Z)
| FsClose (fd : Z)
| FsWrite (fd : Z) (data : Data) (offset length position : Z)
| FsWritev (fd : Z) (data : list Buffer) (position : Z).

Inductive FsEvent :=
| Issue (r : Request)
| Raise (name : string) (err : option Error)   (* this.emit(name, ...) *)
| Call (cb : Callback) (err : option Error).

(** The callbacks given to [fs] and to [process.nextTick]. *)
Inductive FsClosure :=
| OpenCb
| CloseCb (err : option Error) (callback : option Callback)
| WriteCb (callback : option Callback)      (* of _write and of _writev *)
| TickCb (callback : Callback) (err : option Error).

(** What [fs] reports: an error, or a number (the descriptor of [open],
    the byte count of [write] and [writev]). *)
Inductive FsResult :=
| Failed (e : Error)
| Done (n : Z).

Record WritableFileStream := mkFile {
  fd : option Z;
  path : string;
  start : Z;
  closed : bool;
  bytesWritten : Z;
  pendingOpen : bool;                           (* this.pending *)
  autoClose : bool;
  openListeners : list (Data * option Callback); (* once('open', ...) *)
  outstanding : list FsClosure;
  log : list FsEvent
}.

Definition with_fd v f :=
  mkFile v (path f) (start f) (closed f) (bytesWritten f) (pendingOpen f)
    (autoClose f) (openListeners f) (outstanding f) (log f).
Definition with_closed v f :=
  mkFile (fd f) (path f) (start f) v (bytesWritten f) (pendingOpen f)
    (autoClose f) (openListeners f) (outstanding f) (log f).
Definition with_bytesWritten v f :=
  mkFile (fd f) (path f) (start f) (closed f) v (pendingOpen f)
    (autoClose f) (openListeners f) (outstanding f) (log f).
Definition with_pendingOpen v f :=
  mkFile (fd f) (path f) (start f) (closed f) (bytesWritten f) v
    (autoClose f) (openListeners f) (outstanding f) (log f).
Definition with_openListeners v f :=
  mkFile (fd f) (path f) (start f) (closed f) (bytesWritten f)
    (pendingOpen f) (autoClose f) v (outstanding f) (log f).
Definition with_outstanding v f :=
  mkFile (fd f) (path f) (start f) (closed f) (bytesWritten f)
    (pendingOpen f) (autoClose f) (openListeners f) v (log f).
Definition with_log v f :=
  mkFile (fd f) (path f) (start f) (closed f) (bytesWritten f)
    (pendingOpen f) (autoClose f) (openListeners f) (outstanding f) v.

Definition note (e : FsEvent) f := with_log (log f ++ [e]) f.
Definition keep (c : FsClosure) f :=
  with_outstanding (outstanding f ++ [c]) f.
Definition callIf (callback : option Callback) (err : option Error) f :=
  match callback with
  | Some cb => note (Call cb err) f
  | None => f
  end.

(** [data.length]: bytes of a buffer, elements of an array. *)
Definition dataLength (d : Data) : Z :=
  match d with
  | One b => byteLength b
  | Many l => Z.of_nat (List.length l)
  end.

(** *** Numbers

    [start] and [bytesWritten] are JavaScript numbers, that is doubles,
    and [+] rounds: the model keeps the integer a number holds and rounds
    every sum to the nearest integer a double can hold, ties to the even
    significand.  Up to [2 ^ 53] nothing is rounded.  (Sums stay far below
    [2 ^ 1024], where a double overflows: [fs] reports byte counts that
    are safe integers, and a double above [2 ^ 107] no longer moves when
    such a count is added.) *)
Definition doubleOf (z : Z) : Z :=
  let m := Z.abs z in
  let e := Z.log2 m - 52 in      (* bits that do not fit the significand *)
  if e <=? 0 then z
  else
    let q := Z.shiftr m e in
    let r := Z.land m (Z.ones e) in
    let half := Z.shiftl 1 (e - 1) in
    let q' := if (half <? r) || ((r =? half) && Z.odd q)
              then q + 1 else q in
    Z.sgn z * Z.shiftl q' e.

(** [a + b] on numbers. *)
Definition numAdd (a b : Z) : Z := doubleOf (a + b).

(** [closeFile] (lines 75-88) *)
Definition closeFile (err : option Error) (callback : option Callback) f :=
  match fd f with
  | None =>
      match callback with
      | Some cb => keep (TickCb cb err) f
      | None => f
      end
  | Some d => keep (CloseCb err callback) (note (Issue (FsClose d)) f)
  end.

(** [this.emit('error', e)] with the listener of lines 56-58. *)
Definition raiseError (e : Error) f :=
  let f := note (Raise "error" (Some e)) f in
  if autoClose f then closeFile (Some e) None f else f.

(** What [fs.write] throws when it is given an array. *)
Definition notABuffer : Error :=
  TypeError "buffer must be a string or a buffer".

(** [_write] (lines 90-109).  [fs.write] takes a buffer (or a string):
    given an array it throws before it issues anything.  The stream core
    never passes an array to [_write], but the listener that [_writev]
    registers before the file is open does (line 118). *)
Definition _write (data : Data) (callback : option Callback) f
  : Res unit * WritableFileStream :=
  match fd f with
  | None =>
      (Ok tt, with_openListeners (openListeners f ++ [(data, callback)]) f)
  | Some d =>
      match data with
      | One b =>
          (Ok tt,
           keep (WriteCb callback)
             (note (Issue (FsWrite d data 0 (dataLength data)
                             (numAdd (start f) (bytesWritten f)))) f))
      | Many _ => (Throw notABuffer, f)
      end
  end.

(** [_writev] (lines 111-130); before the file is open it registers a
    listener that calls [_write] with the array, as the source does. *)
Definition _writev (data : list Buffer) (callback : option Callback) f :=
  match fd f with
  | None =>
      with_openListeners (openListeners f ++ [(Many data, callback)]) f
  | Some d =>
      keep (WriteCb callback)
        (note (Issue (FsWritev d data (numAdd (start f) (bytesWritten f))))
           f)
  end.

(** [_destroy] and [_final] (lines 132-140) *)
Definition _destroy (err : option Error) (callback : option Callback) f :=
  closeFile err callback f.

Definition _final (callback : option Callback) f :=
  if autoClose f then closeFile None callback f else f.

(** [openFile] (lines 61-73): the request, then its callback. *)
Definition openFile (flags : string) (mode : Z) f :=
  keep OpenCb (note (Issue (FsOpen (path f) flags mode)) f).

(** [this.emit('open', fd)] with the listeners that [_write] and
    [_writev] registered by [once]: each is removed and then called, in the
    order of registration; when one throws, the exception leaves [emit]
    and the listeners after it stay registered and uncalled. *)
Fixpoint emitOpen (listeners : list (Data * option Callback)) f
  : Res unit * WritableFileStream :=
  match listeners with
  | [] => (Ok tt, f)
  | l :: rest =>
      match _write (fst l) (snd l) (with_openListeners rest f) with
      | (Ok _, f) => emitOpen rest f
      | (Throw e, f) => (Throw e, f)
      end
  end.

(** The callback of [fs.open] (lines 62-72).  An exception of a listener
    of [open] leaves the callback before [ready] is raised. *)
Definition openCb (r : FsResult) f : Res unit * WritableFileStream :=
  match r with
  | Failed e => (Ok tt, raiseError e f)
  | Done d =>
      let f := with_pendingOpen false (with_fd (Some d) f) in
      let f := note (Raise "open" None) f in
      match emitOpen (openListeners f) f with
      | (Ok _, f) => (Ok tt, note (Raise "ready" None) f)
      | (Throw e, f) => (Throw e, f)
      end
  end.

(** The callback of [fs.write] and [fs.writev] (lines 101-108,
    122-129). *)
Definition writeCb (callback : option Callback) (r : FsResult) f :=
  match r with
  | Failed e => callIf callback (Some e) f
  | Done bytes =>
      callIf callback None
        (with_bytesWritten (numAdd (bytesWritten f) bytes) f)
  end.

(** The callback of [fs.close] (lines 81-87). *)
Definition closeCb (err : option Error) (callback : option Callback)
    (r : FsResult) f :=
  let error := match r with Failed e => Some e | Done _ => err end in
  let f := with_closed true (with_fd None f) in
  note (Raise "close" None) (callIf callback error f).

Definition MAX_SAFE_INTEGER : Z := 2 ^ 53 - 1.

(** The constructor (lines 12-59), for a [path] that is a string and a
    [start] that is a number holding an integer. *)
Definition construct (path : string) (fd : option Z) (start : Z)
    (flags : string) (mode : Z) (autoClose : bool)
  : Res WritableFileStream :=
  if (start <? 0) || (MAX_SAFE_INTEGER <? start)
  then Throw (OutOfRangeError "start")
  else
    let f := mkFile fd path start false 0 true autoClose [] [] [] in
    Ok (match fd with
        | None => openFile flags mode f
        | Some _ => f
        end).

(** [fs] calls back the [i]-th outstanding callback with [r]: what the
    callback does and whether an exception leaves it. *)
Definition resumed (i : nat) (r : FsResult) f
  : Res unit * WritableFileStream :=
  match nth_error (outstanding f) i with
  | None => (Ok tt, f)
  | Some c =>
      let f := with_outstanding (removeNth i (outstanding f)) f in
      match c with
      | OpenCb => openCb r f
      | CloseCb err callback => (Ok tt, closeCb err callback r f)
      | WriteCb callback => (Ok tt, writeCb callback r f)
      | TickCb callback err => (Ok tt, note (Call callback err) f)
      end
  end.

(** The stream after that callback; an exception that leaves a callback
    of [fs] goes to the runtime, and the object stays as the callback left
    it. *)
Definition resume (i : nat) (r : FsResult) f := snd (resumed i r f).

(** A sink operation as the stream core issues it. *)
Inductive SinkOp :=
| Single (data : Buffer) (callback : option Callback)
| Multi (data : list Buffer) (callback : option Callback).

Definition sink (op : SinkOp) f :=
  match op with
  | Single data callback => snd (_write (One data) callback f)
  | Multi data callback => _writev data callback f
  end.

(** One successful sink write: the operation, then [fs] reporting
    [bytes] written to the callback it was just given. *)
Definition round f (ob : SinkOp * Z) :=
  let f := sink (fst ob) f in
  resume (Nat.pred (List.length (outstanding f))) (Done (snd ob)) f.

(** The file positions of the write requests in a log, in order. *)
Definition positionOf (e : FsEvent) : list Z :=
  match e with
  | Issue (FsWrite _ _ _ _ p) => [p]
  | Issue (FsWritev _ _ p) => [p]
  | _ => []
  end.

Definition positions (l : list FsEvent) : list Z := flat_map positionOf l.

(** Consecutive offsets from [p] for writes of the given sizes. *)
Fixpoint contiguous (p : Z) (sizes : list Z) : list Z :=
  match sizes with
  | [] => []
  | n :: rest => p :: contiguous (p + n) rest
  end.

Definition sumZ (l : list Z) : Z := fold_right Z.add 0 l.


(** *** Runs of the file stream

    The stream core calls the four sink methods and raises [error]; [fs]
    and the runtime call back the outstanding callbacks. *)

Inductive FileAction :=
| FWrite (data : Buffer) (callback : option Callback)
| FWritev (data : list Buffer) (callback : option Callback)
| FDestroy (err : option Error) (callback : option Callback)
| FFinal (callback : option Callback)
| FError (e : Error)
| FResume (i : nat) (r : FsResult).

Definition fileStep f (a : FileAction) :=
  match a with
  | FWrite data callback => snd (_write (One data) callback f)
  | FWritev data callback => _writev data callback f
  | FDestroy err callback => _destroy err callback f
  | FFinal callback => _final callback f
  | FError e => raiseError e f
  | FResume i r => resume i r f
  end.

Definition fileRun (acts : list FileAction) f := fold_left fileStep acts f.

Definition isOpenCb (c : FsClosure) : bool :=
  match c with OpenCb => true | _ => false end.

Definition isIssue (e : FsEvent) : bool :=
  match e with Issue _ => true | _ => false end.

(** The requests made to [fs], in order. *)
Definition issued f : list FsEvent := filter isIssue (log f).

(** No descriptor, and no [open] that could still deliver one. *)
Definition dead f : Prop :=
  fd f = None /\ filter isOpenCb (outstanding f) = [].

(** The request a held single-block write turns into when the file
    opens. *)
Definition heldRequest (d : Z) f (data : Buffer) : FsEvent :=
  Issue (FsWrite d (One data) 0 (byteLength data)
           (numAdd (start f) (bytesWritten f))).

Definition isCloseCb (c : FsClosure) : bool :=
  match c with CloseCb _ _ => true | _ => false end.

(** What holds of a file stream from its construction on. *)
Record FileInv f : Prop := mkFileInv {
  finv_one_open : (List.length (filter isOpenCb (outstanding f)) <= 1)%nat;
  finv_descriptor : fd f <> None -> filter isOpenCb (outstanding f) = [];
  finv_closing :
    filter isCloseCb (outstanding f) <> [] ->
    filter isOpenCb (outstanding f) = [];
  finv_closed : closed f = true -> dead f;
  finv_start : 0 <= start f <= MAX_SAFE_INTEGER
}.

Definition fileReachable f : Prop :=
  exists path fd0 start0 flags mode autoClose0 f0 acts,
    construct path fd0 start0 flags mode autoClose0 = Ok f0
    /\ f = fileRun acts f0.

(** What a sink operation holds when the file is not open. *)
Definition heldData (op : SinkOp) : Data * option Callback :=
  match op with
  | Single data callback => (One data, callback)
  | Multi data callback => (Many data, callback)
  end.

(** A single-block sink operation. *)
Definition single (c : Buffer * option Callback) : SinkOp :=
  Single (fst c) (snd c).
End FileStream.

(** ** Observations on an object and on its trace *)

(** The chunks handed to a sink operation that has not called back. *)
Definition inFlightOf (c : Closure) : list Buffer :=
  match c with
  | WriteDone data _ => blocksOf data
  | _ => []
  end.

Definition inFlight (w : Writable) : list Buffer :=
  flat_map inFlightOf (pending w).

(** Accepted chunks not yet handed to the sink: the two queues. *)
Definition undispatched (w : Writable) : list Buffer :=
  buffers (writableState w) ++ corkedBuffers (writableState w).

(** Accepted chunks whose completion has not fired: those in flight and
    those still queued. *)
Definition uncompleted (w : Writable) : list Buffer :=
  inFlight w ++ undispatched w.

Definition isTeardown (e : Event) : bool :=
  match e with CallDestroy _ => true | _ => false end.
Definition isSinkCall (e : Event) : bool :=
  match e with CallWrite _ | CallWritev _ => true | _ => false end.
Definition isFinalize (e : Event) : bool :=
  match e with CallFinal => true | _ => false end.
Definition isFinish (e : Event) : bool :=
  match e with Emit SigFinish => true | _ => false end.
Definition isErrorSignal (e : Event) : bool :=
  match e with Emit (SigError _) => true | _ => false end.

Definition teardownCalls (t : list Event) : nat :=
  List.length (filter isTeardown t).
Definition sinkCalls (t : list Event) : list Event := filter isSinkCall t.
Definition finalizeCalls (t : list Event) : nat :=
  List.length (filter isFinalize t).
Definition finishSignals (t : list Event) : nat :=
  List.length (filter isFinish t).
Definition errorSignals (t : list Event) : list Event :=
  filter isErrorSignal t.

(** The finalize operation has completed when its closure has run; the
    closure's first act is the finish signal. *)
Definition finalizeCompleted (w : Writable) : Prop :=
  (0 < finishSignals (trace w))%nat.

(** The sink call [callWrite] makes for an array of blocks. *)
Definition batchCall (this : Writable) (blocks : list Buffer) : Event :=
  if has_writev this then CallWritev blocks
  else CallWrite (bufferConcat blocks).

(** The sink call [callWrite] makes for its argument. *)
Definition dispatchCall (this : Writable) (data : Data) : Event :=
  match data with
  | One chunk => CallWrite chunk
  | Many blocks => batchCall this blocks
  end.

(** The chunk a [write] call is accepted with, if its arguments pass the
    checks of lines 157-171. *)
Definition acceptedChunk (isEncoding : string -> bool)
    (bufferFrom : string -> string -> Buffer) (this : Writable)
    (chunk encoding : Value) (callback : option Callback) : option Buffer :=
  match writeChunk isEncoding bufferFrom this chunk
          (fst (writeArgs (writableState this) encoding callback)) with
  | Ok b => Some b
  | Throw _ => None
  end.

(** The error a write is rejected with (lines 173-178). *)
Definition rejection (state : WritableState) : option Error :=
  if ended state then Some StreamWriteAfterEndError
  else if destroyed state then Some (StreamDestroyedError "write")
       else None.

(** The destroyed flag does not go back from [w] to [w']. *)
Definition staysDestroyed (w w' : Writable) : Prop :=
  destroyed (writableState w) = true -> destroyed (writableState w') = true.

(** The invariant of the reachable states. *)
Record Inv (w : Writable) : Prop := mkInv {
  inv_bytesInQueue :
    bytesInQueue (writableState w) = totalLength (buffers (writableState w));
  inv_bytesCorked :
    bytesCorked (writableState w)
    = totalLength (corkedBuffers (writableState w));
  inv_uncorked :
    corked (writableState w) = 0%nat ->
    corkedBuffers (writableState w) = [];
  inv_finished_ended :
    finished (writableState w) = true -> ended (writableState w) = true;
  inv_finished_drained :
    finished (writableState w) = true -> bytesInQueue (writableState w) = 0;
  inv_finished_corked :
    finished (writableState w) = true -> writing (writableState w) = true ->
    corkedBuffers (writableState w) = [];
  inv_finished_final :
    finished (writableState w) = true ->
    (0 < finalizeCalls (trace w))%nat;
  inv_teardown_once : (teardownCalls (trace w) <= 1)%nat;
  inv_teardown_destroyed :
    destroyed (writableState w) = false -> teardownCalls (trace w) = 0%nat
}.

(** ** Readings of the specification, to compare with the code *)

(** The specification's backpressure test after a write: the bytes of every
    accepted chunk whose completion has not fired, those in flight
    included, against the threshold. *)
Definition backpressureBySpec (after : Writable) : bool :=
  highWaterMark (writableState after) <=? totalLength (uncompleted after).

(** The specification's byte accounting: the two counters add up to the
    bytes of every accepted chunk whose completion has not fired. *)
Definition countsUncompleted (w : Writable) : Prop :=
  bytesInQueue (writableState w) + bytesCorked (writableState w)
  = totalLength (uncompleted w).

(** The specification's choice of sink operation, by the number of blocks
    of the batch. *)
Definition dispatchBySpec (this : Writable) (blocks : list Buffer) : Event :=
  match blocks with
  | [b] => CallWrite b
  | _ => batchCall this blocks
  end.

(** The specification's condition on the finished flag. *)
Definition finishedAfterFinalize (w : Writable) : Prop :=
  finished (writableState w) = true ->
  ended (writableState w) = true
  /\ buffers (writableState w) = []
  /\ finalizeCompleted w.

(** An [uncork] that reaches depth zero with an empty corked queue and
    nothing in flight calls the sink with an empty batch. *)
Definition uncorkDispatchesEmpty (w : Writable) : Prop :=
  (corked (writableState w) <= 1)%nat ->
  corkedBuffers (writableState w) = [] ->
  writing (writableState w) = false ->
  trace (exec uncork w) = trace w ++ [batchCall w []].

(** A rejected write as the specification describes it: [false] is
    returned, nothing is queued, no sink is called, the callback is
    scheduled with the error and an error signal is raised. *)
Definition rejectsWithSignal (isEncoding : string -> bool)
    (bufferFrom : string -> string -> Buffer) (w : Writable)
    (chunk : Value) (callback : Callback) (e : Error) : Prop :=
  let w' := exec (write isEncoding bufferFrom chunk VUndefined
                    (Some callback)) w in
  outcome (write isEncoding bufferFrom chunk VUndefined (Some callback)) w
  = Ok false
  /\ undispatched w' = undispatched w
  /\ sinkCalls (trace w') = sinkCalls (trace w)
  /\ In (Tick callback e) (pending w')
  /\ In (Emit (SigError e)) (trace w').

(** ** Concrete streams and runs *)

(** Sinks [write] and [writev] supplied, threshold of 10 bytes. *)
Definition bothSinks : Options :=
  mkOptions true true false false "utf8" 10 true false.

(** Only [write] supplied, threshold of 10 bytes. *)
Definition writeOnly : Options :=
  mkOptions true false false false "utf8" 10 true false.

(** Sinks and an asynchronous [final] supplied. *)
Definition asyncFinal : Options :=
  mkOptions true true true false "utf8" 10 true false.

(** [autoDestroy] with an asynchronous [destroy] supplied. *)
Definition autoDestroying : Options :=
  mkOptions true true false true "utf8" 10 true true.

Definition six : Value := VBuffer (zeros 6).
Definition one : Value := VBuffer (zeros 1).
Definition empty : Value := VBuffer [].

(** One write of six bytes, in flight. *)
Definition afterFirstWrite : Writable :=
  runUtf8 [AWrite six VUndefined None] (construct writeOnly).

(** Two writes of six bytes, the first in flight. *)
Definition afterSecondWrite : Writable :=
  runUtf8 [AWrite six VUndefined None; AWrite six VUndefined None]
    (construct writeOnly).

(** A write, then [end], then the sink completes: finalize is called and
    has not called back. *)
Definition finalizing : Writable :=
  runUtf8 [AWrite one VUndefined None; AEnd VUndefined VUndefined None;
           AResume 0 None]
    (construct asyncFinal).

(** A write, a second write queued behind it, the first completes. *)
Definition secondDispatched : Writable :=
  runUtf8 [AWrite one VUndefined None; AWrite six VUndefined None;
           AResume 0 None]
    (construct bothSinks).

(** A zero-length write queued behind a write in flight stays in the
    pending queue when that write completes; then [cork]. *)
Definition strandedEmptyChunk : Writable :=
  runUtf8 [AWrite one VUndefined None; AWrite empty VUndefined None;
           AResume 0 None; ACork]
    (construct bothSinks).

(** [end] on a stream that destroys itself on error. *)
Definition endedAutoDestroying : Writable :=
  runUtf8 [AEnd VUndefined VUndefined None] (construct autoDestroying).

(** ... then a write with callback 7 is rejected, the tick runs and the
    teardown calls back without error. *)
Definition rejectedAndTornDown : Writable :=
  runUtf8 [AWrite six VUndefined (Some 7%nat); AResume 0 None; AResume 0 None]
    endedAutoDestroying.

(** [cork], the accepted writes, [uncork]. *)
Definition corkedWrites (isEncoding : string -> bool)
    (bufferFrom : string -> string -> Buffer)
    (calls : list (Value * Value * option Callback)) : M unit :=
  cork ;;
  forEach (fun c => write isEncoding bufferFrom (fst (fst c)) (snd (fst c))
                      (snd c) ;; ret tt) calls ;;
  uncork.

(** An open file at offset 100 with 5 bytes written. *)
Definition openFileAt100 : FileStream.WritableFileStream :=
  FileStream.mkFile (Some 3) "out.bin" 100 false 5 false true [] [] [].

(** C9 read literally: the writes of a sequence of successful rounds are
    issued at consecutive offsets, counted from [start + bytesWritten] by
    the byte counts reported. *)
Definition landContiguously (rounds : list (FileStream.SinkOp * Z))
    (f : FileStream.WritableFileStream) : Prop :=
  FileStream.positions (FileStream.log (fold_left FileStream.round rounds f))
  = FileStream.positions (FileStream.log f)
    ++ FileStream.contiguous
         (FileStream.start f + FileStream.bytesWritten f) (map snd rounds).

(** The stream [new WritableFileStream("out.bin", {fd: 3, start:
    Number.MAX_SAFE_INTEGER})]. *)
Definition openFileAtLimit : FileStream.WritableFileStream :=
  FileStream.mkFile (Some 3) "out.bin" FileStream.MAX_SAFE_INTEGER false 0
    true true [] [] [].

(** ** Getters (lines 284-313) *)

Definition writable (w : Writable) : bool :=
  negb (needDrain (writableState w))
  && negb (ended (writableState w))
  && negb (destroyed (writableState w)).

Definition writableEnded (w : Writable) : bool := ended (writableState w).
Definition writableFinished (w : Writable) : bool :=
  finished (writableState w).
Definition writableHighWaterMark (w : Writable) : Z :=
  highWaterMark (writableState w).
Definition writableCorked (w : Writable) : nat := corked (writableState w).

(** ** More observations *)

Definition isWriteDone (c : Closure) : bool :=
  match c with WriteDone _ _ => true | _ => false end.
Definition isFinalDone (c : Closure) : bool :=
  match c with FinalDone => true | _ => false end.
Definition isDestroyDone (c : Closure) : bool :=
  match c with DestroyDone _ => true | _ => false end.

(** Sink operations, finalize calls and teardown calls that have not
    called back. *)
Definition writesInFlight (w : Writable) : nat :=
  List.length (filter isWriteDone (pending w)).
Definition finalizesPending (w : Writable) : nat :=
  List.length (filter isFinalDone (pending w)).
Definition teardownsPending (w : Writable) : nat :=
  List.length (filter isDestroyDone (pending w)).

Definition isClose (e : Event) : bool :=
  match e with Emit SigClose => true | _ => false end.
Definition isDrain (e : Event) : bool :=
  match e with Emit SigDrain => true | _ => false end.
Definition closeSignals (t : list Event) : nat :=
  List.length (filter isClose t).
Definition drainSignals (t : list Event) : nat :=
  List.length (filter isDrain t).

(** The bytes a sink call carries, and the bytes of all sink calls of a
    trace in order. *)
Definition sinkData (e : Event) : Buffer :=
  match e with
  | CallWrite data => data
  | CallWritev blocks => bufferConcat blocks
  | _ => []
  end.
Definition sinkStream (t : list Event) : Buffer := flat_map sinkData t.

(** The bytes still queued, pending queue first. *)
Definition queuedStream (w : Writable) : Buffer :=
  bufferConcat (undispatched w).

(** The callbacks of accepted writes that have not been called: those
    captured by the operation in flight, then those waiting with the
    pending and the corked queue. *)
Definition callbacksOf (c : Closure) : list Callback :=
  match c with
  | WriteDone _ callbacks => callbacks
  | _ => []
  end.
Definition heldCallbacks (w : Writable) : list Callback :=
  flat_map callbacksOf (pending w)
  ++ callbacks (writableState w) ++ corkedCallbacks (writableState w).

(** [writing] is set and no sink operation is there to clear it. *)
Definition stuck (w : Writable) : Prop :=
  writing (writableState w) = true /\ writesInFlight w = 0%nat.

Definition countOf (b : bool) : nat := if b then 1%nat else 0%nat.

(** [n] times the same call. *)
Definition times (n : nat) (m : M unit) (w : Writable) : Writable :=
  Nat.iter n (exec m) w.

(** The configuration of a stream: what the constructor fixes. *)
Definition sameConfiguration (w w' : Writable) : Prop :=
  highWaterMark (writableState w') = highWaterMark (writableState w)
  /\ emitClose (writableState w') = emitClose (writableState w)
  /\ autoDestroy (writableState w') = autoDestroy (writableState w)
  /\ has_write w' = has_write w
  /\ has_writev w' = has_writev w
  /\ finalImpl w' = finalImpl w
  /\ destroyImpl w' = destroyImpl w.

(** The lifecycle flags do not go back from [w] to [w']. *)
Definition flagsStay (w w' : Writable) : Prop :=
  (ended (writableState w) = true -> ended (writableState w') = true)
  /\ (finished (writableState w) = true ->
      finished (writableState w') = true)
  /\ (destroyed (writableState w) = true ->
      destroyed (writableState w') = true).

Section Ghosts.

Variable isEncoding : string -> bool.
Variable bufferFrom : string -> string -> Buffer.
Variable toLowerCase : string -> string.

(** The bytes a [write] call adds to the stream: those of its chunk when
    the arguments pass the checks and the stream is neither ended nor
    destroyed. *)
Definition acceptedBytes (w : Writable) (chunk encoding : Value)
    (callback : option Callback) : Buffer :=
  match acceptedChunk isEncoding bufferFrom w chunk encoding callback,
        rejection (writableState w) with
  | Some b, None => b
  | _, _ => []
  end.

(** The callback such a call adds to the held callbacks. *)
Definition acceptedCallback (w : Writable) (chunk encoding : Value)
    (callback : option Callback) : list Callback :=
  match acceptedChunk isEncoding bufferFrom w chunk encoding callback,
        rejection (writableState w),
        snd (writeArgs (writableState w) encoding callback) with
  | Some _, None, Some f => [f]
  | _, _, _ => []
  end.

Definition acceptedBy (w : Writable) (a : Action) : Buffer :=
  match a with
  | AWrite chunk encoding callback => acceptedBytes w chunk encoding callback
  | AEnd chunk encoding callback =>
      match fst (fst (endArgs chunk encoding callback)) with
      | VUndefined => []
      | c => acceptedBytes w c
               (snd (fst (endArgs chunk encoding callback))) None
      end
  | _ => []
  end.

(** The bytes accepted along a run, in order. *)
Fixpoint acceptedStream (acts : list Action) (w : Writable) : Buffer :=
  match acts with
  | [] => []
  | a :: rest =>
      acceptedBy w a
      ++ acceptedStream rest (step isEncoding bufferFrom toLowerCase w a)
  end.

(** Whether the [write] made by an action returned [false]. *)
Definition refusedBy (w : Writable) (a : Action) : nat :=
  match a with
  | AWrite chunk encoding callback =>
      match outcome (write isEncoding bufferFrom chunk encoding callback) w
      with
      | Ok false => 1%nat
      | _ => 0%nat
      end
  | AEnd chunk encoding callback =>
      match fst (fst (endArgs chunk encoding callback)) with
      | VUndefined => 0%nat
      | c =>
          match outcome
                  (write isEncoding bufferFrom c
                     (snd (fst (endArgs chunk encoding callback))) None) w
          with
          | Ok false => 1%nat
          | _ => 0%nat
          end
      end
  | _ => 0%nat
  end.

(** How often [write] returned [false] along a run. *)
Fixpoint refusals (acts : list Action) (w : Writable) : nat :=
  match acts with
  | [] => 0%nat
  | a :: rest =>
      (refusedBy w a
       + refusals rest (step isEncoding bufferFrom toLowerCase w a))%nat
  end.

(** The callback an action adds to the held callbacks. *)
Definition acceptedCallbackBy (w : Writable) (a : Action)
  : list Callback :=
  match a with
  | AWrite chunk encoding callback =>
      acceptedCallback w chunk encoding callback
  | _ => []
  end.

(** The callbacks captured by the sink operation an action completes. *)
Definition completedBy (w : Writable) (a : Action) : list Callback :=
  match a with
  | AResume i _ =>
      match nth_error (pending w) i with
      | Some c => callbacksOf c
      | None => []
      end
  | _ => []
  end.

Fixpoint acceptedCallbacks (acts : list Action) (w : Writable)
  : list Callback :=
  match acts with
  | [] => []
  | a :: rest =>
      acceptedCallbackBy w a
      ++ acceptedCallbacks rest (step isEncoding bufferFrom toLowerCase w a)
  end.

Fixpoint completedCallbacks (acts : list Action) (w : Writable)
  : list Callback :=
  match acts with
  | [] => []
  | a :: rest =>
      completedBy w a
      ++ completedCallbacks rest (step isEncoding bufferFrom toLowerCase w a)
  end.

End Ghosts.

(** The body of a closure (the branches of [resume]). *)
Definition bodyOf (c : Closure) (r : option Error) : M unit :=
  match c with
  | WriteDone _ callbacks => writeDone callbacks r
  | FinalDone => finalDone r
  | DestroyDone callback => destroyDone callback r
  | Tick callback err => record (Invoke callback (Some err))
  end.

(** What [end] does after the implicit write (lines 138-140). *)
Definition markEnded (callback : option Callback) (w : Writable)
  : Writable :=
  let w := with_state (set_ended true) w in
  match callback with
  | Some f => with_finishListeners (finishListeners w ++ [f]) w
  | None => w
  end.

(** More of what holds in every reachable state.  [Inv2At f t] is the
    state between the removal of a closure and the run of its body: [f]
    finalize completions and [t] teardown completions are under way. *)
Record Inv2At (f t : nat) (w : Writable) : Prop := mkInv2At {
  inv2_single_flight : (writesInFlight w <= 1)%nat;
  inv2_idle :
    writing (writableState w) = false -> writesInFlight w = 0%nat;
  inv2_idle_empty :
    writing (writableState w) = false ->
    bytesInQueue (writableState w) = 0;
  inv2_uncorked :
    corked (writableState w) = 0%nat ->
    corkedCallbacks (writableState w) = [];
  inv2_no_sink :
    has_write w = false ->
    buffers (writableState w) = []
    /\ corkedBuffers (writableState w) = []
    /\ callbacks (writableState w) = []
    /\ corkedCallbacks (writableState w) = [];
  inv2_finalize :
    finalizeCalls (trace w)
    = (finishSignals (trace w) + finalizesPending w + f)%nat;
  inv2_not_finished :
    finished (writableState w) = false -> finalizeCalls (trace w) = 0%nat;
  inv2_close :
    (closeSignals (trace w) + teardownsPending w + t
     <= teardownCalls (trace w))%nat
}.

Definition Inv2 (w : Writable) : Prop := Inv2At 0 0 w.

(** What one call does, from [w] to [w'], given the bytes [acc] and the
    callbacks [cbs] it accepts, the number [ref] of refusals it returns and
    the callbacks [done] of the operation it completes. *)
Record StepLaw (acc : Buffer) (ref : nat) (cbs done : list Callback)
    (w w' : Writable) : Prop := mkStepLaw {
  law_configuration : sameConfiguration w w';
  law_flags : flagsStay w w';
  law_stream :
    sinkStream (trace w') ++ queuedStream w'
    = sinkStream (trace w) ++ queuedStream w ++ acc;
  law_drain :
    (drainSignals (trace w') + countOf (needDrain (writableState w'))
     <= drainSignals (trace w) + countOf (needDrain (writableState w))
        + ref)%nat;
  law_callbacks : done ++ heldCallbacks w' = heldCallbacks w ++ cbs
}.

(** The facts about [w] that the step law of a call rests on. *)
Definition Sound (w : Writable) : Prop :=
  (writing (writableState w) = false ->
   bufferConcat (buffers (writableState w)) = [])
  /\ (corked (writableState w) = 0%nat ->
      corkedBuffers (writableState w) = []
      /\ corkedCallbacks (writableState w) = [])
  /\ (has_write w = false ->
      buffers (writableState w) = []
      /\ corkedBuffers (writableState w) = []
      /\ callbacks (writableState w) = []
      /\ corkedCallbacks (writableState w) = []).

(** The encoding default does not change from [w] to [w']. *)
Definition sameEncoding (w w' : Writable) : Prop :=
  defaultEncoding (writableState w') = defaultEncoding (writableState w).

(** A stream that destroys itself on error: a write in flight, [destroy]
    called by the producer, then the sink reports a failure. *)
Definition stuckAfterFailure : Writable :=
  runUtf8 [AWrite six VUndefined None; ADestroy NoError None;
           AResume 0 (Some (SinkError 1))]
    (construct autoDestroying).

(** [destroy] on a new stream: the prototype's teardown calls back at
    once. *)
Definition tornDown : Writable :=
  runUtf8 [ADestroy NoError None] (construct bothSinks).

(** * Properties *)

(** ** Lists, traces and the monad *)

Lemma totalLength_app (l1 l2 : list Buffer) :
  totalLength (l1 ++ l2) = totalLength l1 + totalLength l2.
Proof.
  induction l1 as [|b l1 IH]; simpl; [reflexivity|].
  rewrite IH. lia.
Qed.

Lemma teardownCalls_app (t1 t2 : list Event) :
  teardownCalls (t1 ++ t2) = (teardownCalls t1 + teardownCalls t2)%nat.
Proof. unfold teardownCalls. now rewrite filter_app, length_app. Qed.

Lemma finalizeCalls_app (t1 t2 : list Event) :
  finalizeCalls (t1 ++ t2) = (finalizeCalls t1 + finalizeCalls t2)%nat.
Proof. unfold finalizeCalls. now rewrite filter_app, length_app. Qed.

Lemma sinkCalls_app (t1 t2 : list Event) :
  sinkCalls (t1 ++ t2) = sinkCalls t1 ++ sinkCalls t2.
Proof. unfold sinkCalls. now rewrite filter_app. Qed.

(** Calling a list of producer callbacks only extends the trace. *)
Lemma forEach_invoke (err : option Error) (l : list Callback) (w : Writable) :
  forEach (fun cb => record (Invoke cb err)) l w
  = (Ok tt, with_trace (trace w ++ map (fun cb => Invoke cb err) l) w).
Proof.
  revert w. induction l as [|cb l IH]; intro w.
  - simpl. unfold ret, with_trace. rewrite app_nil_r. now destruct w.
  - simpl. unfold bind, record. rewrite IH. simpl.
    unfold with_trace. simpl. now rewrite <- app_assoc.
Qed.

Lemma forEach_invoke_unfolded (err : option Error) (l : list Callback)
    (w : Writable) :
  forEach
    (fun (cb : Callback) (w : Writable) =>
       (Ok tt,
        mkWritable (writableState w) (has_write w) (has_writev w)
          (finalImpl w) (destroyImpl w) (finishListeners w) (pending w)
          (trace w ++ [Invoke cb err])))
    l w
  = (Ok tt,
     mkWritable (writableState w) (has_write w) (has_writev w)
       (finalImpl w) (destroyImpl w) (finishListeners w) (pending w)
       (trace w ++ map (fun cb => Invoke cb err) l)).
Proof. exact (forEach_invoke err l w). Qed.

Lemma teardownCalls_invokes (err : option Error) (l : list Callback) :
  teardownCalls (map (fun cb => Invoke cb err) l) = 0%nat.
Proof. induction l; simpl; auto. Qed.

Lemma finalizeCalls_invokes (err : option Error) (l : list Callback) :
  finalizeCalls (map (fun cb => Invoke cb err) l) = 0%nat.
Proof. induction l; simpl; auto. Qed.

(** ** The invariant holds in every reachable state *)

Ltac open_object w :=
  let s := fresh "s" in
  destruct w as [s ? ? ? ? ? ? ?]; destruct s.

Ltac unfold_methods :=
  unfold exec, outcome, perform, resume, end_, write, writeBuffer, uncork,
    cork, setDefaultEncoding, writeDone, callWrite, getBuffers, callFinish,
    finalDone, errorOrDestroy, destroy, call_destroy, destroyDone, nextTick,
    emit, when, bind, ret, throw, modify, record, hand_over, getState,
    getThis, with_state, with_trace, with_pending, with_finishListeners
    in *.

Ltac split_cases :=
  repeat (simpl in *;
          rewrite ?forEach_invoke_unfolded in *;
          match goal with
          | |- context [match ?x with _ => _ end] =>
              lazymatch x with
              | context [match _ with _ => _ end] => fail
              | _ => destruct x eqn:?
              end
          end).

Ltac use_facts :=
  repeat match goal with
         | H : ?a = ?a -> _ |- _ => specialize (H eq_refl)
         | H : ?l = [] |- _ => subst l
         end.

Ltac close_inv :=
  constructor; simpl in *;
  rewrite ?totalLength_app, ?teardownCalls_app, ?finalizeCalls_app,
    ?teardownCalls_invokes, ?finalizeCalls_invokes in *;
  unfold teardownCalls, finalizeCalls in *;
  simpl in *; intros; subst; use_facts; simpl in *;
  try congruence; try lia;
  try solve [intuition (use_facts; simpl in *; try congruence; try lia)].

Lemma Inv_construct (o : Options) : Inv (construct o).
Proof. constructor; simpl; intros; auto; congruence. Qed.

Lemma Inv_cork (w : Writable) : Inv w -> Inv (exec cork w).
Proof.
  intros []. open_object w. unfold_methods. close_inv.
Qed.

Lemma Inv_uncork (w : Writable) : Inv w -> Inv (exec uncork w).
Proof.
  intros []. open_object w. unfold_methods. split_cases; close_inv.
Qed.

Lemma Inv_destroy (error : ErrorArg) (callback : option Callback)
    (w : Writable) :
  Inv w -> Inv (exec (destroy error callback) w).
Proof.
  intros []. open_object w. destruct error; unfold_methods.
  all: split_cases; close_inv.
Qed.

Lemma Inv_setDefaultEncoding isEncoding toLowerCase (e : Value)
    (w : Writable) :
  Inv w -> Inv (exec (setDefaultEncoding isEncoding toLowerCase e) w).
Proof.
  intros []. open_object w. unfold_methods. split_cases; close_inv.
Qed.

Lemma Inv_writeBuffer (chunk : Buffer) (callback : option Callback)
    (w : Writable) :
  Inv w -> Inv (exec (writeBuffer chunk callback) w).
Proof.
  intros []. open_object w. unfold_methods. unfold writableLength.
  split_cases; close_inv.
Qed.

Lemma Inv_write isEncoding bufferFrom (chunk encoding : Value)
    (callback : option Callback) (w : Writable) :
  Inv w -> Inv (exec (write isEncoding bufferFrom chunk encoding callback) w).
Proof.
  intro H. unfold write, exec, bind, getThis. simpl.
  destruct (writeArgs (writableState w) encoding callback) as [enc cb].
  destruct (writeChunk isEncoding bufferFrom w chunk enc).
  - apply Inv_writeBuffer, H.
  - exact H.
Qed.

Lemma Inv_set_ended (w : Writable) :
  Inv w -> Inv (with_state (set_ended true) w).
Proof. intros []. open_object w. close_inv. Qed.

Lemma Inv_with_finishListeners (l : list Callback) (w : Writable) :
  Inv w -> Inv (with_finishListeners l w).
Proof. intros []. open_object w. close_inv. Qed.

Lemma Inv_end isEncoding bufferFrom (chunk encoding : Value)
    (callback : option Callback) (w : Writable) :
  Inv w -> Inv (exec (end_ isEncoding bufferFrom chunk encoding callback) w).
Proof.
  intro H. unfold end_.
  destruct (endArgs chunk encoding callback) as [[c e] cb].
  assert (Hdone : forall w', Inv w' ->
            Inv (exec (modify (set_ended true) ;;
                       match cb with
                       | Some f => fun w0 =>
                           (Ok tt, with_finishListeners
                                     (finishListeners w0 ++ [f]) w0)
                       | None => ret tt
                       end) w')).
  { intros w' H'. unfold exec, bind, modify, ret. destruct cb; simpl.
    - apply Inv_with_finishListeners, Inv_set_ended, H'.
    - apply Inv_set_ended, H'. }
  assert (Hwrite : forall v, Inv (exec
            ((write isEncoding bufferFrom v e None ;; ret tt) ;;
             modify (set_ended true) ;;
             match cb with
             | Some f => fun w0 =>
                 (Ok tt, with_finishListeners (finishListeners w0 ++ [f]) w0)
             | None => ret tt
             end) w)).
  { intro v. pose proof (Inv_write isEncoding bufferFrom v e None w H) as Hw.
    unfold exec in *. unfold bind at 1 2. unfold ret at 1.
    destruct (write isEncoding bufferFrom v e None w) as [[b|err] w1];
      simpl in *.
    - apply (Hdone w1 Hw).
    - exact Hw. }
  destruct c; try apply Hwrite.
  unfold exec. unfold bind at 1. unfold ret at 1. apply (Hdone w H).
Qed.

Lemma Inv_remove_pending (l : list Closure) (w : Writable) :
  Inv w -> Inv (with_pending l w).
Proof. intros []. open_object w. close_inv. Qed.

Lemma Inv_writeDone (callbacks : list Callback) (r : option Error)
    (w : Writable) :
  Inv w -> Inv (exec (writeDone callbacks r) w).
Proof.
  intros []. open_object w. unfold_methods.
  split_cases; close_inv.
Qed.

Lemma Inv_finalDone (r : option Error) (w : Writable) :
  Inv w -> Inv (exec (finalDone r) w).
Proof.
  intros []. open_object w. unfold_methods.
  split_cases; close_inv.
Qed.

Lemma Inv_destroyDone (callback : option Callback) (r : option Error)
    (w : Writable) :
  Inv w -> Inv (exec (destroyDone callback r) w).
Proof.
  intros []. open_object w. unfold_methods.
  split_cases; close_inv.
Qed.

Lemma Inv_record (e : Event) (w : Writable) :
  isTeardown e = false -> Inv w -> Inv (exec (record e) w).
Proof.
  intros He [Hq Hc Hu Hfe Hfd Hfc Hff Ht Htd]. open_object w.
  unfold_methods.
  assert (Hsame : forall t, teardownCalls (t ++ [e]) = teardownCalls t).
  { intro t. rewrite teardownCalls_app. unfold teardownCalls at 2.
    simpl. rewrite He. simpl. lia. }
  constructor; simpl in *; auto; rewrite ?Hsame; auto.
  intro Hf. rewrite finalizeCalls_app. specialize (Hff Hf). lia.
Qed.

Lemma Inv_resume (i : nat) (r : option Error) (w : Writable) :
  Inv w -> Inv (exec (resume i r) w).
Proof.
  intro H. unfold resume, exec. unfold bind at 1. unfold getThis at 1.
  destruct (nth_error (pending w) i) as [c|]; [|exact H].
  unfold bind at 1.
  pose proof (Inv_remove_pending (removeNth i (pending w)) w H) as H'.
  set (w' := with_pending (removeNth i (pending w)) w) in *.
  destruct c.
  - apply Inv_writeDone, H'.
  - apply Inv_finalDone, H'.
  - apply Inv_destroyDone, H'.
  - apply Inv_record; [reflexivity | exact H'].
Qed.

Section Reachability.

Variable isEncoding : string -> bool.
Variable bufferFrom : string -> string -> Buffer.
Variable toLowerCase : string -> string.

Lemma Inv_step (a : Action) (w : Writable) :
  Inv w -> Inv (step isEncoding bufferFrom toLowerCase w a).
Proof.
  intro H. unfold step. destruct a; simpl.
  - apply Inv_cork, H.
  - apply Inv_uncork, H.
  - apply Inv_destroy, H.
  - apply Inv_setDefaultEncoding, H.
  - apply Inv_end, H.
  - pose proof (Inv_write isEncoding bufferFrom chunk encoding callback w H)
      as Hw.
    unfold exec, bind, ret in *.
    destruct (write isEncoding bufferFrom chunk encoding callback w)
      as [[b|e] w1]; exact Hw.
  - apply Inv_resume, H.
Qed.

Lemma Inv_run (acts : list Action) (w : Writable) :
  Inv w -> Inv (run isEncoding bufferFrom toLowerCase acts w).
Proof.
  revert w. induction acts as [|a acts IH]; intros w H; simpl; [exact H|].
  apply IH, Inv_step, H.
Qed.

Lemma Inv_reachable (w : Writable) :
  reachable isEncoding bufferFrom toLowerCase w -> Inv w.
Proof.
  intros (o & acts & ->). apply Inv_run, Inv_construct.
Qed.

End Reachability.

(** ** The destroyed flag is permanent *)

Ltac close_flag w :=
  unfold staysDestroyed; intro; open_object w; unfold_methods;
  unfold writableLength; split_cases; simpl in *; congruence.

Lemma staysDestroyed_writeBuffer chunk callback (w : Writable) :
  staysDestroyed w (exec (writeBuffer chunk callback) w).
Proof. close_flag w. Qed.

Lemma staysDestroyed_write isEncoding bufferFrom chunk encoding callback
    (w : Writable) :
  staysDestroyed w
    (exec (write isEncoding bufferFrom chunk encoding callback) w).
Proof.
  unfold write, exec, bind, getThis. simpl.
  destruct (writeArgs (writableState w) encoding callback) as [enc cb].
  destruct (writeChunk isEncoding bufferFrom w chunk enc).
  - apply staysDestroyed_writeBuffer.
  - intro H. exact H.
Qed.

Lemma staysDestroyed_end isEncoding bufferFrom chunk encoding callback
    (w : Writable) :
  staysDestroyed w
    (exec (end_ isEncoding bufferFrom chunk encoding callback) w).
Proof.
  unfold end_. destruct (endArgs chunk encoding callback) as [[c e] cb].
  intro H.
  assert (Hw : forall v,
    destroyed (writableState
      (exec ((write isEncoding bufferFrom v e None ;; ret tt) ;;
             modify (set_ended true) ;;
             match cb with
             | Some f => fun w0 =>
                 (Ok tt, with_finishListeners (finishListeners w0 ++ [f]) w0)
             | None => ret tt
             end) w)) = true).
  { intro v.
    pose proof (staysDestroyed_write isEncoding bufferFrom v e None w H) as Hv.
    unfold exec in *. unfold bind at 1 2. unfold ret at 1.
    destruct (write isEncoding bufferFrom v e None w) as [[b|err] w1];
      simpl in *; [|exact Hv].
    unfold bind, modify, ret. destruct cb; simpl; exact Hv. }
  destruct c; try apply Hw.
  unfold exec, bind, modify, ret. destruct cb; simpl; exact H.
Qed.

Lemma staysDestroyed_step isEncoding bufferFrom toLowerCase (a : Action)
    (w : Writable) :
  staysDestroyed w (step isEncoding bufferFrom toLowerCase w a).
Proof.
  unfold step. destruct a; simpl.
  - close_flag w.
  - close_flag w.
  - destruct error; close_flag w.
  - close_flag w.
  - apply staysDestroyed_end.
  - intro H.
    pose proof (staysDestroyed_write isEncoding bufferFrom chunk encoding
                  callback w H) as Hw.
    unfold exec, bind, ret in *.
    destruct (write isEncoding bufferFrom chunk encoding callback w)
      as [[b|e] w1]; exact Hw.
  - intro H. unfold resume, exec. unfold bind at 1. unfold getThis at 1.
    destruct (nth_error (pending w) i) as [c|]; [|exact H].
    unfold bind at 1.
    assert (H' : destroyed (writableState
                   (with_pending (removeNth i (pending w)) w)) = true)
      by exact H.
    revert H'. generalize (with_pending (removeNth i (pending w)) w).
    clear H. intros w' H. revert H.
    change (staysDestroyed w'
              (snd (match c with
                    | WriteDone _ callbacks => writeDone callbacks r
                    | FinalDone => finalDone r
                    | DestroyDone callback => destroyDone callback r
                    | Tick callback err => record (Invoke callback (Some err))
                    end w'))).
    clear w. rename w' into w. destruct c; close_flag w.
Qed.

Lemma staysDestroyed_run isEncoding bufferFrom toLowerCase
    (acts : list Action) (w : Writable) :
  staysDestroyed w (run isEncoding bufferFrom toLowerCase acts w).
Proof.
  revert w. induction acts as [|a acts IH]; intros w H; simpl; [exact H|].
  apply IH, (staysDestroyed_step isEncoding bufferFrom toLowerCase a w), H.
Qed.

(** ** End of stream and the finish signal *)

(** C1, evaluated on the code: [end()] on a new stream, with no write
    before it, only sets [ended] and registers the callback.  The finalize
    operation is not called, no finish signal is raised, nothing is left
    for the environment to resume, and the registered callback stays
    registered. *)
Theorem end_without_writes_does_not_finish isEncoding bufferFrom toLowerCase
    (o : Options) (callback : Callback) :
  let w := exec (end_ isEncoding bufferFrom VUndefined VUndefined
                   (Some callback)) (construct o) in
  ended (writableState w) = true
  /\ finished (writableState w) = false
  /\ finalizeCalls (trace w) = 0%nat
  /\ finishSignals (trace w) = 0%nat
  /\ finishListeners w = [callback]
  /\ pending w = []
  /\ forall i r, step isEncoding bufferFrom toLowerCase w (AResume i r) = w.
Proof.
  simpl. repeat split.
  intros i r. unfold step, perform, resume, exec, bind, getThis. simpl.
  now destruct i.
Qed.

(** The sibling path: [end(chunk)] on a new stream dispatches the chunk,
    and the completion of that write finalizes and raises the finish
    signal, calling the callback given to [end]. *)
Lemma end_with_chunk_finishes :
  trace (runUtf8 [AEnd six VUndefined (Some 1%nat); AResume 0 None]
           (construct bothSinks))
  = [CallWrite (zeros 6); CallFinal; Emit SigFinish; Invoke 1%nat None].
Proof. vm_compute. reflexivity. Qed.

(** The finish signal can be raised twice: after the stream finished, an
    [uncork] dispatches an empty batch whose completion finalizes again. *)
Lemma finish_can_fire_twice :
  finishSignals
    (trace (runUtf8 [AWrite one VUndefined None;
                     AEnd VUndefined VUndefined None;
                     AResume 0 None; AUncork; AResume 0 None]
              (construct bothSinks))) = 2%nat.
Proof. vm_compute. reflexivity. Qed.

(** C2 as stated fails: after a write, [end] and the completion of the
    write, [finished] is true while the finalize operation has been called
    and has not called back. *)
Lemma finished_set_before_finalize_completes :
  reachable utf8Only bytesOfString sameCase finalizing
  /\ finished (writableState finalizing) = true
  /\ In FinalDone (pending finalizing)
  /\ ~ finalizeCompleted finalizing
  /\ ~ finishedAfterFinalize finalizing.
Proof.
  split; [|split; [|split; [|split]]].
  - exists asyncFinal. eexists. reflexivity.
  - reflexivity.
  - left. reflexivity.
  - unfold finalizeCompleted. vm_compute. lia.
  - intro H. destruct (H eq_refl) as (_ & _ & Hc).
    revert Hc. unfold finalizeCompleted. vm_compute. lia.
Qed.

(** C2, amended: in every reachable state, [finished] is true only if
    [ended] is true, no byte is left in the pending queue, and the
    finalize operation has been called (the flag is set when finalize is
    called, not when it calls back). *)
Theorem finished_only_after_end_and_drain isEncoding bufferFrom toLowerCase
    (w : Writable) :
  reachable isEncoding bufferFrom toLowerCase w ->
  finished (writableState w) = true ->
  ended (writableState w) = true
  /\ bytesInQueue (writableState w) = 0
  /\ totalLength (buffers (writableState w)) = 0
  /\ (0 < finalizeCalls (trace w))%nat.
Proof.
  intros Hr Hf. destruct (Inv_reachable _ _ _ w Hr)
    as [Hq Hc Hu Hfe Hfd Hfc Hff Ht Htd].
  repeat split; auto.
  rewrite <- Hq. auto.
Qed.

Lemma finished_only_after_end_and_drain_witness :
  reachable utf8Only bytesOfString sameCase finalizing
  /\ finished (writableState finalizing) = true
  /\ ended (writableState finalizing) = true
  /\ bytesInQueue (writableState finalizing) = 0
  /\ totalLength (buffers (writableState finalizing)) = 0
  /\ (0 < finalizeCalls (trace finalizing))%nat.
Proof.
  assert (Hr : reachable utf8Only bytesOfString sameCase finalizing).
  { exists asyncFinal. eexists. reflexivity. }
  split; [exact Hr|]. split; [reflexivity|].
  exact (finished_only_after_end_and_drain utf8Only bytesOfString sameCase
           finalizing Hr eq_refl).
Defined.

(** ** Byte accounting *)

(** C4 as stated fails: a chunk that [write] dispatches at once is in
    flight, and is in neither counter. *)
Lemma in_flight_bytes_not_counted :
  reachable utf8Only bytesOfString sameCase afterFirstWrite
  /\ bytesInQueue (writableState afterFirstWrite)
     + bytesCorked (writableState afterFirstWrite) = 0
  /\ totalLength (uncompleted afterFirstWrite) = 6
  /\ ~ countsUncompleted afterFirstWrite.
Proof.
  split; [|split; [|split]].
  - exists writeOnly. eexists. reflexivity.
  - reflexivity.
  - reflexivity.
  - unfold countsUncompleted. vm_compute. discriminate.
Qed.

(** ** Destruction *)

Lemma destroy_again (error : ErrorArg) (callback : option Callback)
    (w : Writable) :
  destroyed (writableState w) = true ->
  destroy error callback w = (Throw (StreamDestroyedError "destroy"), w).
Proof.
  intro H. unfold destroy, bind, getState, throw. now rewrite H.
Qed.

Lemma destroy_first (error : ErrorArg) (callback : option Callback)
    (w : Writable) :
  destroyed (writableState w) = false ->
  destroy error callback w
  = call_destroy (fst (destroyArgs error callback))
      (snd (destroyArgs error callback))
      (with_state (set_destroyed true) w).
Proof.
  intro H. unfold destroy, bind, getState, modify. rewrite H.
  now destruct (destroyArgs error callback).
Qed.

Lemma call_destroy_effect (err : option Error) (callback : option Callback)
    (w : Writable) :
  destroyed (writableState (exec (call_destroy err callback) w))
  = destroyed (writableState w)
  /\ teardownCalls (trace (exec (call_destroy err callback) w))
     = S (teardownCalls (trace w))
  /\ (destroyImpl w = Custom ->
      trace (exec (call_destroy err callback) w)
      = trace w ++ [CallDestroy err]
      /\ pending (exec (call_destroy err callback) w)
         = pending w ++ [DestroyDone callback]).
Proof.
  open_object w. unfold_methods.
  split_cases; simpl; rewrite ?teardownCalls_app;
    unfold teardownCalls; simpl; repeat split; intros;
    try discriminate; try lia.
Qed.

(** C7: on a destroyed stream [destroy] throws the destroyed-stream error
    and changes nothing, and no run calls the teardown operation more than
    once; a first [destroy] sets [destroyed] and only then calls the
    teardown operation, which (when it is asynchronous) has not called back
    when [destroy] returns; and once set, [destroyed] stays set. *)
Theorem destroy_once_and_for_all isEncoding bufferFrom toLowerCase
    (w : Writable) :
  reachable isEncoding bufferFrom toLowerCase w ->
  (destroyed (writableState w) = true ->
   forall error callback,
     destroy error callback w = (Throw (StreamDestroyedError "destroy"), w))
  /\ (teardownCalls (trace w) <= 1)%nat
  /\ (destroyed (writableState w) = false ->
      forall error callback,
        let w' := exec (destroy error callback) w in
        destroy error callback w
        = call_destroy (fst (destroyArgs error callback))
            (snd (destroyArgs error callback))
            (with_state (set_destroyed true) w)
        /\ destroyed (writableState w') = true
        /\ teardownCalls (trace w') = 1%nat
        /\ (destroyImpl w = Custom ->
            In (DestroyDone (snd (destroyArgs error callback)))
              (pending w')))
  /\ (destroyed (writableState w) = true ->
      forall acts,
        destroyed
          (writableState (run isEncoding bufferFrom toLowerCase acts w))
        = true).
Proof.
  intro Hr. destruct (Inv_reachable _ _ _ w Hr)
    as [Hq Hc Hu Hfe Hfd Hfc Hff Ht Htd].
  split; [|split; [|split]].
  - intros H error callback. apply destroy_again, H.
  - assumption.
  - intros H error callback w'. subst w'. unfold exec.
    rewrite (destroy_first error callback w H).
    set (w1 := with_state (set_destroyed true) w).
    destruct (call_destroy_effect (fst (destroyArgs error callback))
                (snd (destroyArgs error callback)) w1) as (Hd & Hn & Hp).
    unfold exec in *. repeat split.
    + rewrite Hd. reflexivity.
    + rewrite Hn. subst w1. simpl. now rewrite Htd.
    + intro Hi. destruct (Hp Hi) as (_ & ->). apply in_or_app. right.
      left. reflexivity.
  - intros H acts. now apply staysDestroyed_run.
Qed.

Lemma destroy_once_and_for_all_witness :
  reachable utf8Only bytesOfString sameCase endedAutoDestroying
  /\ destroyed (writableState endedAutoDestroying) = false
  /\ destroyed
       (writableState (exec (destroy NoError None) endedAutoDestroying))
     = true
  /\ teardownCalls (trace (exec (destroy NoError None) endedAutoDestroying))
     = 1%nat
  /\ destroy NoError None (exec (destroy NoError None) endedAutoDestroying)
     = (Throw (StreamDestroyedError "destroy"),
        exec (destroy NoError None) endedAutoDestroying).
Proof.
  assert (Hr : reachable utf8Only bytesOfString sameCase endedAutoDestroying).
  { exists autoDestroying. eexists. reflexivity. }
  assert (Hr' : reachable utf8Only bytesOfString sameCase
                  (exec (destroy NoError None) endedAutoDestroying)).
  { exists autoDestroying.
    exists [AEnd VUndefined VUndefined None; ADestroy NoError None].
    reflexivity. }
  split; [exact Hr|]. split; [reflexivity|].
  destruct (destroy_once_and_for_all utf8Only bytesOfString sameCase
              endedAutoDestroying Hr) as (_ & _ & Hfirst & _).
  destruct (Hfirst eq_refl NoError None) as (_ & Hd & Ht & _).
  split; [exact Hd|]. split; [exact Ht|].
  destruct (destroy_once_and_for_all utf8Only bytesOfString sameCase
              _ Hr') as (Hagain & _).
  exact (Hagain eq_refl NoError None).
Defined.

(** ** Accepted writes and backpressure *)

Lemma accepted_write isEncoding bufferFrom (w : Writable)
    (chunk encoding : Value) (callback : option Callback) (b : Buffer) :
  acceptedChunk isEncoding bufferFrom w chunk encoding callback = Some b ->
  has_write w = true
  /\ write isEncoding bufferFrom chunk encoding callback w
     = writeBuffer b (snd (writeArgs (writableState w) encoding callback)) w.
Proof.
  unfold acceptedChunk, write, bind, getThis. simpl.
  destruct (writeArgs (writableState w) encoding callback) as [enc cb].
  simpl. destruct (writeChunk isEncoding bufferFrom w chunk enc) eqn:E;
    [|discriminate].
  intro H. injection H as ->. split; [|reflexivity].
  unfold writeChunk in E.
  destruct (negb (isEncodingValue isEncoding enc)); [discriminate|].
  destruct chunk; try discriminate;
    destruct (has_write w); try discriminate; reflexivity.
Qed.

(** What an accepted write on an uncorked stream does to the counters and
    what it returns. *)
Lemma writeBuffer_uncorked (b : Buffer) (callback : option Callback)
    (w : Writable) :
  has_write w = true ->
  corked (writableState w) = 0%nat ->
  ended (writableState w) = false ->
  destroyed (writableState w) = false ->
  let w' := exec (writeBuffer b callback) w in
  outcome (writeBuffer b callback) w
  = Ok (negb (highWaterMark (writableState w)
              <=? writableLength (writableState w')))
  /\ writableLength (writableState w')
     = writableLength (writableState w)
       + (if writing (writableState w) then byteLength b else 0).
Proof.
  intros Hw Hc He Hd. open_object w. simpl in *. subst.
  unfold_methods. unfold writableLength.
  split_cases; simpl; split; try reflexivity; try lia.
Qed.

(** C3 as stated fails: with a threshold of 10, a second write of six
    bytes, made while the first six are in flight, returns [true], although
    twelve accepted bytes are uncompleted. *)
Lemma second_write_not_refused :
  reachable utf8Only bytesOfString sameCase afterFirstWrite
  /\ writing (writableState afterFirstWrite) = true
  /\ exec (writeUtf8 six VUndefined None) afterFirstWrite = afterSecondWrite
  /\ outcome (writeUtf8 six VUndefined None) afterFirstWrite = Ok true
  /\ totalLength (uncompleted afterSecondWrite) = 12
  /\ ~ (outcome (writeUtf8 six VUndefined None) afterFirstWrite = Ok false
        <-> backpressureBySpec afterSecondWrite = true).
Proof.
  split; [|split; [|split; [|split; [|split]]]];
    try (vm_compute; reflexivity).
  - exists writeOnly. eexists. reflexivity.
  - intros [_ H]. assert (E : backpressureBySpec afterSecondWrite = true)
      by (vm_compute; reflexivity).
    specialize (H E). vm_compute in H. discriminate.
Qed.

(** C3, amended: an accepted write on a stream that is not corked, ended
    or destroyed returns [false] exactly when the bytes in the pending and
    corked queues after the write reach [highWaterMark]; the chunk counts
    only if it was queued behind an operation in flight, and the bytes in
    flight do not count. *)
Theorem write_returns_false_iff_queue_full isEncoding bufferFrom
    (w : Writable) (chunk encoding : Value) (callback : option Callback)
    (b : Buffer) :
  acceptedChunk isEncoding bufferFrom w chunk encoding callback = Some b ->
  corked (writableState w) = 0%nat ->
  ended (writableState w) = false ->
  destroyed (writableState w) = false ->
  let call := write isEncoding bufferFrom chunk encoding callback in
  let queued := writableLength (writableState (exec call w)) in
  queued = writableLength (writableState w)
           + (if writing (writableState w) then byteLength b else 0)
  /\ (outcome call w = Ok false
      <-> highWaterMark (writableState w) <= queued)
  /\ (outcome call w = Ok true
      <-> queued < highWaterMark (writableState w)).
Proof.
  intros Ha Hc He Hd. destruct (accepted_write _ _ _ _ _ _ _ Ha) as [Hw Eq].
  simpl. unfold exec, outcome. rewrite Eq.
  destruct (writeBuffer_uncorked b
              (snd (writeArgs (writableState w) encoding callback)) w
              Hw Hc He Hd) as [Ho Hl].
  unfold exec, outcome in *. rewrite Ho. split; [exact Hl|].
  destruct (Z.leb_spec (highWaterMark (writableState w))
              (writableLength (writableState
                 (snd (writeBuffer b
                         (snd (writeArgs (writableState w) encoding callback))
                         w))))); simpl.
  - split; split; intro; try reflexivity; try assumption;
      try discriminate; lia.
  - split; split; intro; try reflexivity; try assumption;
      try discriminate; lia.
Qed.

Lemma write_returns_false_iff_queue_full_witness :
  acceptedChunk utf8Only bytesOfString afterFirstWrite six VUndefined None
  = Some (zeros 6)
  /\ outcome (writeUtf8 six VUndefined None) afterFirstWrite = Ok true
  /\ outcome (writeUtf8 six VUndefined None) afterSecondWrite = Ok false.
Proof.
  split; [reflexivity|]. split.
  - apply (write_returns_false_iff_queue_full utf8Only bytesOfString
             afterFirstWrite six VUndefined None (zeros 6));
      try reflexivity.
  - apply (write_returns_false_iff_queue_full utf8Only bytesOfString
             afterSecondWrite six VUndefined None (zeros 6));
      try reflexivity.
    vm_compute. discriminate.
Defined.

(** ** The choice of sink operation *)

(** C5 as stated fails: a batch of one block taken from the pending queue
    goes to the multi-block operation. *)
Lemma queued_single_block_goes_to_writev :
  reachable utf8Only bytesOfString sameCase secondDispatched
  /\ trace secondDispatched = [CallWrite (zeros 1); CallWritev [zeros 6]]
  /\ dispatchBySpec secondDispatched [zeros 6] = CallWrite (zeros 6)
  /\ last (trace secondDispatched) CallFinal
     <> dispatchBySpec secondDispatched [zeros 6].
Proof.
  split; [|split; [|split]]; try reflexivity.
  - exists bothSinks. eexists. reflexivity.
  - vm_compute. discriminate.
Qed.

(** C5, amended: the operation is chosen by where the data comes from, not
    by the number of blocks.  A chunk that [write] dispatches directly goes
    to the single-block operation.  A batch taken from the pending queue,
    whatever its length, goes to the multi-block operation as the full
    ordered list when that operation exists, and otherwise is concatenated
    into one block for the single-block operation. *)
Theorem callWrite_chooses_by_source (w : Writable) :
  has_write w = true ->
  (forall chunk,
      callWrite (One chunk) w
      = (Ok tt,
         with_pending (pending w
                       ++ [WriteDone (One chunk) (callbacks (writableState w))])
           (with_trace (trace w ++ [CallWrite chunk])
              (with_state (set_callbacks [])
                 (with_state (set_writing true) w)))))
  /\ (forall blocks,
         callWrite (Many blocks) w
         = (Ok tt,
            with_pending
              (pending w
               ++ [WriteDone (Many blocks) (callbacks (writableState w))])
              (with_trace
                 (trace w ++ [if has_writev w then CallWritev blocks
                              else CallWrite (bufferConcat blocks)])
                 (with_state (set_callbacks [])
                    (with_state (set_writing true) w)))))
  /\ (forall b callback,
         corked (writableState w) = 0%nat ->
         writing (writableState w) = false ->
         ended (writableState w) = false ->
         destroyed (writableState w) = false ->
         trace (exec (writeBuffer b callback) w) = trace w ++ [CallWrite b])
  /\ (forall callbacks,
         bytesInQueue (writableState w) <> 0 ->
         trace (exec (writeDone callbacks None) w)
         = trace w ++ map (fun cb => Invoke cb None) callbacks
           ++ [batchCall w (buffers (writableState w))]).
Proof.
  intro Hw. destruct w as [s hw hwv fi di fl pd tr].
  destruct s as [de ec ad hwm d e f c wr nd biq bufs cbs bc cbufs ccbs].
  simpl in *. subst.
  split; [|split; [|split]].
  - intro chunk. unfold_methods. reflexivity.
  - intro blocks. unfold_methods. simpl. now destruct hwv.
  - intros b callback Hc Hwr He Hd. simpl in *. subst.
    unfold_methods. unfold writableLength. split_cases; reflexivity.
  - intros done Hq. simpl in *. unfold_methods. unfold batchCall.
    rewrite forEach_invoke_unfolded. simpl.
    destruct (biq =? 0) eqn:E; [apply Z.eqb_eq in E; lia|].
    simpl. destruct hwv; simpl; now rewrite <- app_assoc.
Qed.

Lemma callWrite_chooses_by_source_witness :
  has_write (construct bothSinks) = true
  /\ trace (exec (callWrite (Many [zeros 6])) (construct bothSinks))
     = [CallWritev [zeros 6]]
  /\ trace (exec (callWrite (Many [zeros 1; zeros 6])) (construct writeOnly))
     = [CallWrite (zeros 7)].
Proof.
  split; [reflexivity|]. split.
  - destruct (callWrite_chooses_by_source (construct bothSinks) eq_refl)
      as (_ & Hm & _).
    unfold exec. now rewrite Hm.
  - destruct (callWrite_chooses_by_source (construct writeOnly) eq_refl)
      as (_ & Hm & _).
    unfold exec. now rewrite Hm.
Defined.

(** ** Writes after [end] or [destroy] *)

(** C6 as stated fails: on a stream that destroys itself on error, a write
    after [end] hands the error to [destroy] and raises no error signal,
    neither during the call nor when the callback has run and the teardown
    has called back without error. *)
Lemma rejected_write_raises_no_error_signal :
  reachable utf8Only bytesOfString sameCase endedAutoDestroying
  /\ ended (writableState endedAutoDestroying) = true
  /\ outcome (writeUtf8 six VUndefined (Some 7%nat)) endedAutoDestroying
     = Ok false
  /\ trace (exec (writeUtf8 six VUndefined (Some 7%nat)) endedAutoDestroying)
     = [CallDestroy (Some StreamWriteAfterEndError)]
  /\ trace rejectedAndTornDown
     = [CallDestroy (Some StreamWriteAfterEndError);
        Invoke 7%nat (Some StreamWriteAfterEndError); Emit SigClose]
  /\ pending rejectedAndTornDown = []
  /\ ~ rejectsWithSignal utf8Only bytesOfString endedAutoDestroying six
         7%nat StreamWriteAfterEndError.
Proof.
  repeat split; try reflexivity.
  - exists autoDestroying. eexists. reflexivity.
  - intros (_ & _ & _ & _ & H). vm_compute in H.
    destruct H as [H|[]]. discriminate.
Qed.

(** With [autoDestroy], a write on a stream that is already destroyed
    throws out of [write]: the error is handed to [destroy], which refuses
    a second call. *)
Lemma rejected_write_throws_when_destroyed_twice :
  outcome (writeUtf8 six VUndefined (Some 7%nat))
    (runUtf8 [ADestroy NoError None] (construct autoDestroying))
  = Throw (StreamDestroyedError "destroy").
Proof. reflexivity. Qed.

(** C6, amended: a write with valid arguments and a callback, on a stream
    that is ended (or destroyed), returns [false], queues nothing, calls no
    sink operation and schedules the callback with the write-after-end
    (or destroyed) error for the next tick.  Without [autoDestroy] it also
    raises the error signal, during the call and so before the callback
    runs, and changes nothing else.  With [autoDestroy], on a stream not
    yet destroyed, it hands the error to [destroy] instead: the stream
    becomes destroyed and the teardown operation is called with the
    error. *)
Theorem write_after_end_is_rejected isEncoding bufferFrom (w : Writable)
    (chunk encoding : Value) (callback : option Callback) (b : Buffer)
    (f : Callback) (e : Error) :
  acceptedChunk isEncoding bufferFrom w chunk encoding callback = Some b ->
  snd (writeArgs (writableState w) encoding callback) = Some f ->
  rejection (writableState w) = Some e ->
  let call := write isEncoding bufferFrom chunk encoding callback in
  (autoDestroy (writableState w) = false ->
   call w = (Ok false,
             with_trace (trace w ++ [Emit (SigError e)])
               (with_pending (pending w ++ [Tick f e]) w)))
  /\ (autoDestroy (writableState w) = true ->
      destroyed (writableState w) = false ->
      outcome call w = Ok false
      /\ undispatched (exec call w) = undispatched w
      /\ sinkCalls (trace (exec call w)) = sinkCalls (trace w)
      /\ In (Tick f e) (pending (exec call w))
      /\ In (CallDestroy (Some e)) (trace (exec call w))
      /\ destroyed (writableState (exec call w)) = true).
Proof.
  intros Ha Hf Hr. destruct (accepted_write _ _ _ _ _ _ _ Ha) as [Hw Eq].
  simpl. unfold exec, outcome. rewrite Eq, Hf. clear Eq Hf Ha.
  destruct w as [s hw hwv fi di fl pd tr].
  destruct s as [de ec ad hwm d en fin c wr nd biq bufs cbs bc cbufs ccbs].
  unfold rejection in Hr. simpl in *. split.
  - intro Had. subst. unfold_methods. simpl.
    destruct en; [injection Hr as <-; reflexivity|].
    destruct d; [injection Hr as <-; reflexivity|discriminate].
  - intros Had Hd. subst. unfold_methods. unfold undispatched. simpl.
    destruct en; [|discriminate]. injection Hr as <-. simpl.
    destruct di; simpl; [destruct ec; simpl|];
      rewrite ?sinkCalls_app; simpl; rewrite ?app_nil_r;
      repeat split; auto; rewrite ?in_app_iff; simpl; auto 10.
Qed.

Lemma write_after_end_is_rejected_witness :
  acceptedChunk utf8Only bytesOfString
    (runUtf8 [AEnd VUndefined VUndefined None] (construct bothSinks))
    six VUndefined (Some 7%nat) = Some (zeros 6)
  /\ writeUtf8 six VUndefined (Some 7%nat)
       (runUtf8 [AEnd VUndefined VUndefined None] (construct bothSinks))
     = (Ok false,
        with_trace [Emit (SigError StreamWriteAfterEndError)]
          (with_pending [Tick 7%nat StreamWriteAfterEndError]
             (runUtf8 [AEnd VUndefined VUndefined None]
                (construct bothSinks)))).
Proof.
  split; [reflexivity|].
  exact (proj1 (write_after_end_is_rejected utf8Only bytesOfString
                  (runUtf8 [AEnd VUndefined VUndefined None]
                     (construct bothSinks))
                  six VUndefined (Some 7%nat) (zeros 6) 7%nat
                  StreamWriteAfterEndError eq_refl eq_refl eq_refl)
           eq_refl).
Defined.

(** ** Corking *)

(** What [uncork] does when it reaches depth zero with nothing in
    flight. *)
Lemma uncork_dispatches (w : Writable) :
  writing (writableState w) = false ->
  (corked (writableState w) <= 1)%nat ->
  has_write w || has_writev w = true ->
  let batch := buffers (writableState w) ++ corkedBuffers (writableState w) in
  outcome uncork w = Ok tt
  /\ trace (exec uncork w) = trace w ++ [batchCall w batch]
  /\ pending (exec uncork w)
     = pending w
       ++ [WriteDone (Many batch)
             (callbacks (writableState w)
              ++ corkedCallbacks (writableState w))]
  /\ writing (writableState (exec uncork w)) = true.
Proof.
  intros Hwr Hc Hs. destruct w as [s hw hwv fi di fl pd tr].
  destruct s as [de ec ad hwm d en fin c wr nd biq bufs cbs bc cbufs ccbs].
  simpl in *. subst.
  destruct c as [|[|c]]; [| |lia];
    destruct hw, hwv; try discriminate; vm_compute; repeat split.
Qed.

Lemma uncork_stays_corked (w : Writable) :
  (2 <= corked (writableState w))%nat ->
  outcome uncork w = Ok tt /\ trace (exec uncork w) = trace w.
Proof.
  intro Hc. destruct w as [s hw hwv fi di fl pd tr].
  destruct s as [de ec ad hwm d en fin c wr nd biq bufs cbs bc cbufs ccbs].
  simpl in *. destruct c as [|[|c]]; try lia. split; reflexivity.
Qed.

Lemma uncork_without_sink (w : Writable) :
  has_write w = false -> has_writev w = false ->
  trace (exec uncork w) = trace w.
Proof.
  intros Hw Hv. destruct w as [s hw hwv fi di fl pd tr].
  destruct s as [de ec ad hwm d en fin c wr nd biq bufs cbs bc cbufs ccbs].
  simpl in *. subst. destruct c as [|[|c]], wr; reflexivity.
Qed.

(** An accepted write on a corked stream only extends the corked queue. *)
Lemma writeBuffer_corked (b : Buffer) (callback : option Callback)
    (w : Writable) :
  corked (writableState w) <> 0%nat ->
  ended (writableState w) = false ->
  destroyed (writableState w) = false ->
  let w' := exec (writeBuffer b callback) w in
  (exists r, outcome (writeBuffer b callback) w = Ok r)
  /\ corkedBuffers (writableState w')
     = corkedBuffers (writableState w) ++ [b]
  /\ corked (writableState w') = corked (writableState w)
  /\ buffers (writableState w') = buffers (writableState w)
  /\ writing (writableState w') = writing (writableState w)
  /\ ended (writableState w') = false
  /\ destroyed (writableState w') = false
  /\ defaultEncoding (writableState w') = defaultEncoding (writableState w)
  /\ has_write w' = has_write w
  /\ has_writev w' = has_writev w
  /\ trace w' = trace w.
Proof.
  intros Hc He Hd. destruct w as [s hw hwv fi di fl pd tr].
  destruct s as [de ec ad hwm d en fin c wr nd biq bufs cbs bc cbufs ccbs].
  simpl in *. subst. destruct c as [|c]; [congruence|].
  destruct callback; vm_compute; repeat split; eauto.
Qed.

Lemma acceptedChunk_ext isEncoding bufferFrom (w1 w2 : Writable)
    (chunk encoding : Value) (callback : option Callback) :
  has_write w1 = has_write w2 ->
  defaultEncoding (writableState w1) = defaultEncoding (writableState w2) ->
  acceptedChunk isEncoding bufferFrom w1 chunk encoding callback
  = acceptedChunk isEncoding bufferFrom w2 chunk encoding callback.
Proof.
  intros Hw Hd. unfold acceptedChunk, writeChunk, writeArgs.
  now rewrite Hw, Hd.
Qed.

Lemma corked_writes_accumulate isEncoding bufferFrom (w0 : Writable)
    (calls : list (Value * Value * option Callback))
    (chunks : list Buffer) :
  Forall2 (fun c b =>
             acceptedChunk isEncoding bufferFrom w0 (fst (fst c))
               (snd (fst c)) (snd c) = Some b) calls chunks ->
  forall w : Writable,
    has_write w = has_write w0 ->
    defaultEncoding (writableState w) = defaultEncoding (writableState w0) ->
    corked (writableState w) <> 0%nat ->
    ended (writableState w) = false ->
    destroyed (writableState w) = false ->
    let writes :=
      forEach (fun c => write isEncoding bufferFrom (fst (fst c))
                          (snd (fst c)) (snd c) ;; ret tt) calls in
    outcome writes w = Ok tt
    /\ corkedBuffers (writableState (exec writes w))
       = corkedBuffers (writableState w) ++ chunks
    /\ corked (writableState (exec writes w)) = corked (writableState w)
    /\ buffers (writableState (exec writes w)) = buffers (writableState w)
    /\ writing (writableState (exec writes w)) = writing (writableState w)
    /\ has_write (exec writes w) = has_write w
    /\ has_writev (exec writes w) = has_writev w
    /\ trace (exec writes w) = trace w.
Proof.
  induction 1 as [|c b calls chunks Hc Hrest IH];
    intros w Hw Hde Hck He Hd; cbv zeta.
  - unfold outcome, exec. simpl. rewrite app_nil_r. repeat split.
  - rewrite <- (acceptedChunk_ext isEncoding bufferFrom w w0) in Hc by auto.
    destruct (accepted_write _ _ _ _ _ _ _ Hc) as [_ Eq].
    destruct (writeBuffer_corked b
                (snd (writeArgs (writableState w) (snd (fst c)) (snd c)))
                w Hck He Hd)
      as ((r & Hr) & Hcb & Hcd & Hb & Hwr & He' & Hd' & Hde' & Hw' & Hv' & Ht).
    unfold outcome, exec in *.
    destruct (writeBuffer b
                (snd (writeArgs (writableState w) (snd (fst c)) (snd c))) w)
      as [res w1] eqn:Ew. cbn [fst snd] in *. subst res.
    assert (Estep :
      forEach (fun c => write isEncoding bufferFrom (fst (fst c))
                          (snd (fst c)) (snd c) ;; ret tt) (c :: calls) w
      = forEach (fun c => write isEncoding bufferFrom (fst (fst c))
                            (snd (fst c)) (snd c) ;; ret tt) calls w1).
    { cbn [forEach]. unfold bind. rewrite Eq. reflexivity. }
    rewrite Estep.
    destruct (IH w1) as (Ho & Hcb1 & Hcd1 & Hb1 & Hwr1 & Hw1 & Hv1 & Ht1);
      try congruence.
    cbv zeta in *. unfold outcome, exec in *.
    rewrite Ho, Hcb1, Hcd1, Hb1, Hwr1, Hw1, Hv1, Ht1, Hcb, <- app_assoc.
    repeat split; auto.
Qed.

(** C8: on a stream with no sink operation in flight, [cork], then N
    accepted writes, then one [uncork] make at most one sink call; when
    that [uncork] reaches depth zero the call is made, and its batch is
    what was already queued followed by the N chunks in the order they
    were accepted. *)
Theorem cork_writes_uncork_dispatches_once isEncoding bufferFrom
    (w : Writable) (calls : list (Value * Value * option Callback))
    (chunks : list Buffer) :
  writing (writableState w) = false ->
  ended (writableState w) = false ->
  destroyed (writableState w) = false ->
  Forall2 (fun c b =>
             acceptedChunk isEncoding bufferFrom w (fst (fst c))
               (snd (fst c)) (snd c) = Some b) calls chunks ->
  let w' := exec (corkedWrites isEncoding bufferFrom calls) w in
  let batch := buffers (writableState w)
               ++ corkedBuffers (writableState w) ++ chunks in
  (trace w' = trace w \/ trace w' = trace w ++ [batchCall w batch])
  /\ (List.length (sinkCalls (trace w'))
      <= S (List.length (sinkCalls (trace w))))%nat
  /\ (corked (writableState w) = 0%nat -> has_write w = true ->
      trace w' = trace w ++ [batchCall w batch])
  /\ (corked (writableState w) <> 0%nat -> trace w' = trace w).
Proof.
  intros Hwr He Hd Hacc. simpl.
  set (w1 := exec cork w).
  assert (F1 : has_write w1 = has_write w
               /\ has_writev w1 = has_writev w
               /\ defaultEncoding (writableState w1)
                  = defaultEncoding (writableState w)
               /\ corked (writableState w1) = S (corked (writableState w))
               /\ ended (writableState w1) = false
               /\ destroyed (writableState w1) = false
               /\ buffers (writableState w1) = buffers (writableState w)
               /\ corkedBuffers (writableState w1)
                  = corkedBuffers (writableState w)
               /\ writing (writableState w1) = false
               /\ trace w1 = trace w).
  { subst w1. unfold exec, cork, modify. simpl. repeat split; auto. }
  destruct F1 as (Hw1 & Hv1 & Hde1 & Hc1 & He1 & Hd1 & Hb1 & Hcb1 & Hwr1 & Ht1).
  destruct (corked_writes_accumulate isEncoding bufferFrom w calls chunks
              Hacc w1 Hw1 Hde1 ltac:(lia) He1 Hd1)
    as (Ho & Hcb2 & Hc2 & Hb2 & Hwr2 & Hw2 & Hv2 & Ht2).
  set (writes := forEach
                   (fun c => write isEncoding bufferFrom (fst (fst c))
                               (snd (fst c)) (snd c) ;; ret tt) calls) in *.
  set (w2 := exec writes w1) in *.
  assert (Eq : exec (corkedWrites isEncoding bufferFrom calls) w
               = exec uncork w2).
  { unfold corkedWrites, exec. unfold bind at 1.
    change (cork w) with (Ok tt, w1). unfold bind at 1.
    fold writes. unfold outcome in Ho.
    destruct (writes w1) as [res w2'] eqn:E. simpl in Ho. subst res.
    subst w2. unfold exec. now rewrite E. }
  rewrite Eq.
  assert (Hbatch : batchCall w2 (buffers (writableState w2)
                                 ++ corkedBuffers (writableState w2))
                   = batchCall w (buffers (writableState w)
                                  ++ corkedBuffers (writableState w)
                                  ++ chunks)).
  { unfold batchCall. now rewrite Hv2, Hv1, Hb2, Hb1, Hcb2, Hcb1. }
  assert (Hcases :
    (corked (writableState w) <> 0%nat -> trace (exec uncork w2) = trace w)
    /\ (corked (writableState w) = 0%nat -> has_write w = true ->
        trace (exec uncork w2)
        = trace w ++ [batchCall w (buffers (writableState w)
                                   ++ corkedBuffers (writableState w)
                                   ++ chunks)])
    /\ (trace (exec uncork w2) = trace w
        \/ trace (exec uncork w2)
           = trace w ++ [batchCall w (buffers (writableState w)
                                      ++ corkedBuffers (writableState w)
                                      ++ chunks)])).
  { assert (Hdeep : corked (writableState w) <> 0%nat ->
                    trace (exec uncork w2) = trace w).
    { intro Hn. destruct (uncork_stays_corked w2) as [_ Hs]; [lia|].
      now rewrite Hs, Ht2, Ht1. }
    assert (Hzero : corked (writableState w) = 0%nat ->
                    has_write w || has_writev w = true ->
                    trace (exec uncork w2)
                    = trace w ++ [batchCall w (buffers (writableState w)
                                   ++ corkedBuffers (writableState w)
                                   ++ chunks)]).
    { intros Hz Hs.
      destruct (uncork_dispatches w2) as (_ & Hu & _ & _).
      - now rewrite Hwr2, Hwr1.
      - lia.
      - now rewrite Hw2, Hv2, Hw1, Hv1.
      - now rewrite Hu, Hbatch, Ht2, Ht1. }
    split; [exact Hdeep|]. split.
    - intros Hz Hs. apply Hzero; auto. now rewrite Hs.
    - destruct (Nat.eq_dec (corked (writableState w)) 0) as [Hz|Hn];
        [|left; auto].
      destruct (has_write w || has_writev w) eqn:Hs; [right; auto|].
      apply orb_false_iff in Hs. destruct Hs as [Hs1 Hs2]. left.
      rewrite uncork_without_sink by congruence. now rewrite Ht2, Ht1. }
  destruct Hcases as (Hdeep & Hzero & Hor).
  split; [exact Hor|]. split; [|split; assumption].
  destruct Hor as [-> | ->]; [lia|].
  rewrite sinkCalls_app, length_app. unfold batchCall.
  destruct (has_writev w); simpl; lia.
Qed.

Lemma cork_writes_uncork_dispatches_once_witness :
  writing (writableState (construct bothSinks)) = false
  /\ trace (exec (corkedWrites utf8Only bytesOfString
                    [(one, VUndefined, None); (six, VUndefined, Some 1%nat);
                     (VString "ab", VString "utf8", None)])
              (construct bothSinks))
     = [CallWritev [zeros 1; zeros 6; bytesOfString "ab" "utf8"]].
Proof.
  split; [reflexivity|].
  refine (proj1 (proj2 (proj2
            (cork_writes_uncork_dispatches_once utf8Only bytesOfString
               (construct bothSinks)
               [(one, VUndefined, None); (six, VUndefined, Some 1%nat);
                (VString "ab", VString "utf8", None)]
               [zeros 1; zeros 6; bytesOfString "ab" "utf8"]
               eq_refl eq_refl eq_refl _))) eq_refl eq_refl).
  repeat constructor.
Defined.

(** C10 as stated fails: a zero-length chunk left in the pending queue is
    part of the batch, so the multi-block operation gets a list of one
    empty block, not an empty list. *)
Lemma uncork_dispatches_stranded_chunk :
  reachable utf8Only bytesOfString sameCase strandedEmptyChunk
  /\ corked (writableState strandedEmptyChunk) = 1%nat
  /\ corkedBuffers (writableState strandedEmptyChunk) = []
  /\ writing (writableState strandedEmptyChunk) = false
  /\ buffers (writableState strandedEmptyChunk) = [[]]
  /\ trace (exec uncork strandedEmptyChunk)
     = trace strandedEmptyChunk ++ [CallWritev [[]]]
  /\ ~ uncorkDispatchesEmpty strandedEmptyChunk.
Proof.
  repeat split; try reflexivity.
  - exists bothSinks. eexists. reflexivity.
  - intro H. specialize (H (Nat.le_refl 1) eq_refl eq_refl).
    vm_compute in H. discriminate.
Qed.

(** Without any sink operation [uncork] throws and calls nothing. *)
Lemma uncork_without_sink_throws :
  uncork (construct defaultOptions)
  = (Throw (MethodNotImplementedError "_write and _writev"),
     with_state (set_writing true) (construct defaultOptions)).
Proof. vm_compute. reflexivity. Qed.
(** ** The file stream: offsets and the byte counter *)

Lemma positions_app (l1 l2 : list FileStream.FsEvent) :
  FileStream.positions (l1 ++ l2)
  = FileStream.positions l1 ++ FileStream.positions l2.
Proof. unfold FileStream.positions. apply flat_map_app. Qed.

Lemma removeNth_last {A} (l : list A) (x : A) :
  removeNth (List.length l) (l ++ [x]) = l.
Proof.
  unfold removeNth. induction l as [|a l IH]; simpl; [reflexivity|].
  f_equal. exact IH.
Qed.

Lemma nth_error_last {A} (l : list A) (x : A) :
  nth_error (l ++ [x]) (List.length l) = Some x.
Proof.
  rewrite nth_error_app2 by lia. now rewrite Nat.sub_diag.
Qed.

(** Below [2 ^ 53] a number holds every integer, so nothing is rounded. *)
Lemma doubleOf_exact (z : Z) :
  0 <= z <= FileStream.MAX_SAFE_INTEGER -> FileStream.doubleOf z = z.
Proof.
  unfold FileStream.MAX_SAFE_INTEGER, FileStream.doubleOf. intro H.
  assert (E : (Z.log2 (Z.abs z) - 52 <=? 0) = true).
  { apply Z.leb_le. rewrite Z.abs_eq by lia.
    destruct (Z.eq_dec z 0) as [->|Hz]; [simpl; lia|].
    assert (Z.log2 z < 53); [|lia].
    apply Z.log2_lt_pow2; lia. }
  cbv zeta. now rewrite E.
Qed.

Lemma numAdd_exact (a b : Z) :
  0 <= a + b <= FileStream.MAX_SAFE_INTEGER -> FileStream.numAdd a b = a + b.
Proof. apply doubleOf_exact. Qed.

(** A sink operation on an open file issues one request, at the number
    [start + bytesWritten], and keeps its callback. *)
Lemma sink_issues_at_offset (op : FileStream.SinkOp)
    (f : FileStream.WritableFileStream) (d : Z) :
  FileStream.fd f = Some d ->
  let position :=
    FileStream.numAdd (FileStream.start f) (FileStream.bytesWritten f) in
  let request :=
    match op with
    | FileStream.Single data _ =>
        FileStream.FsWrite d (One data) 0 (byteLength data) position
    | FileStream.Multi data _ => FileStream.FsWritev d data position
    end in
  let callback :=
    match op with
    | FileStream.Single _ cb => cb
    | FileStream.Multi _ cb => cb
    end in
  FileStream.sink op f
  = FileStream.with_outstanding
      (FileStream.outstanding f ++ [FileStream.WriteCb callback])
      (FileStream.with_log
         (FileStream.log f ++ [FileStream.Issue request]) f).
Proof.
  intro Hfd. destruct f, op; simpl in *; subst;
    unfold FileStream._write, FileStream._writev, FileStream.keep,
      FileStream.note; simpl; reflexivity.
Qed.

(** A successful round leaves the file open and adds the reported byte
    count to the counter, as numbers add. *)
Lemma round_advances (op : FileStream.SinkOp) (bytes : Z)
    (f : FileStream.WritableFileStream) (d : Z) :
  FileStream.fd f = Some d ->
  let f' := FileStream.round f (op, bytes) in
  FileStream.fd f' = Some d
  /\ FileStream.start f' = FileStream.start f
  /\ FileStream.bytesWritten f'
     = FileStream.numAdd (FileStream.bytesWritten f) bytes
  /\ FileStream.outstanding f' = FileStream.outstanding f
  /\ FileStream.positions (FileStream.log f')
     = FileStream.positions (FileStream.log f)
       ++ [FileStream.numAdd (FileStream.start f)
             (FileStream.bytesWritten f)].
Proof.
  intro Hfd. unfold FileStream.round. cbn [fst snd].
  rewrite (sink_issues_at_offset op f d Hfd). cbv zeta.
  unfold FileStream.resume, FileStream.resumed.
  cbn [FileStream.outstanding FileStream.with_outstanding
         FileStream.with_log].
  rewrite length_app. cbn [List.length]. rewrite Nat.add_1_r.
  cbn [Nat.pred]. rewrite nth_error_last, removeNth_last.
  destruct f. simpl in *. subst.
  assert (Hp : forall l r,
             FileStream.positions (l ++ [FileStream.Issue r])
             = FileStream.positions l
               ++ FileStream.positionOf (FileStream.Issue r)).
  { intros l r. rewrite positions_app. simpl. now rewrite app_nil_r. }
  destruct op as [data [cb|] | data [cb|]]; simpl;
    rewrite ?positions_app, ?Hp; simpl; rewrite ?app_nil_r;
    repeat split; reflexivity.
Qed.

(** A write made before the file is open is held; when [open] reports the
    descriptor it is issued, at [start + bytesWritten]. *)
Lemma deferred_write_issued_at_offset (data : Buffer)
    (callback : option Callback) (f : FileStream.WritableFileStream)
    (d : Z) :
  FileStream.fd f = None ->
  FileStream.openListeners f = [] ->
  FileStream.log
    (snd (FileStream.openCb (FileStream.Done d)
            (snd (FileStream._write (One data) callback f))))
  = FileStream.log f
    ++ [FileStream.Raise "open" None;
        FileStream.Issue
          (FileStream.FsWrite d (One data) 0 (byteLength data)
             (FileStream.numAdd (FileStream.start f)
                (FileStream.bytesWritten f)));
        FileStream.Raise "ready" None].
Proof.
  intros Hfd Hl. destruct f. simpl in *. subst.
  unfold FileStream.openCb, FileStream._write, FileStream.note,
    FileStream.keep. simpl. now rewrite <- !app_assoc.
Qed.

(** C9 as stated fails: the offset is a sum of numbers, and above
    [2 ^ 53] it is rounded.  On a stream constructed at the largest start
    offset the constructor accepts, a write of two bytes is followed by a
    write at the offset of the second of them. *)
Lemma writes_overlap_above_safe_integers :
  FileStream.construct "out.bin" (Some 3) FileStream.MAX_SAFE_INTEGER "w"
    438 true = Ok openFileAtLimit
  /\ FileStream.positions
       (FileStream.log
          (fold_left FileStream.round
             [(FileStream.Single (zeros 2) None, 2);
              (FileStream.Single (zeros 1) None, 1)]
             openFileAtLimit))
     = [9007199254740991; 9007199254740992]
  /\ FileStream.contiguous 9007199254740991 [2; 1]
     = [9007199254740991; 9007199254740993]
  /\ ~ landContiguously
         [(FileStream.Single (zeros 2) None, 2);
          (FileStream.Single (zeros 1) None, 1)]
         openFileAtLimit.
Proof.
  split; [reflexivity|]. split; [vm_compute; reflexivity|].
  split; [reflexivity|].
  unfold landContiguously. vm_compute. discriminate.
Qed.

(** C9, amended: on an open file, as long as the start offset plus the
    bytes reported stays within the safe integers, both sink operations
    issue their write at [start + bytesWritten], and the callback of a
    successful write adds the reported byte count to [bytesWritten]; so in
    a sequence of successful sink writes each write starts where the
    previous one was reported to end. *)
Theorem file_writes_land_contiguously
    (rounds : list (FileStream.SinkOp * Z))
    (f : FileStream.WritableFileStream) (d : Z) :
  FileStream.fd f = Some d ->
  0 <= FileStream.start f ->
  0 <= FileStream.bytesWritten f ->
  Forall (fun ob => 0 <= snd ob) rounds ->
  FileStream.start f + FileStream.bytesWritten f
  + FileStream.sumZ (map snd rounds) <= FileStream.MAX_SAFE_INTEGER ->
  let position := FileStream.start f + FileStream.bytesWritten f in
  let f' := fold_left FileStream.round rounds f in
  (forall data callback,
      FileStream._write (One data) callback f
      = (Ok tt,
         FileStream.keep (FileStream.WriteCb callback)
           (FileStream.note
              (FileStream.Issue
                 (FileStream.FsWrite d (One data) 0 (byteLength data)
                    position)) f)))
  /\ (forall data callback,
         FileStream._writev data callback f
         = FileStream.keep (FileStream.WriteCb callback)
             (FileStream.note
                (FileStream.Issue (FileStream.FsWritev d data position))
                f))
  /\ (forall op bytes,
         0 <= bytes ->
         FileStream.bytesWritten f + bytes <= FileStream.MAX_SAFE_INTEGER ->
         FileStream.bytesWritten (FileStream.round f (op, bytes))
         = FileStream.bytesWritten f + bytes)
  /\ FileStream.positions (FileStream.log f')
     = FileStream.positions (FileStream.log f)
       ++ FileStream.contiguous position (map snd rounds)
  /\ FileStream.bytesWritten f'
     = FileStream.bytesWritten f + FileStream.sumZ (map snd rounds).
Proof.
  intros Hfd Hs Hb Hnn Hmax. cbv zeta.
  assert (Hsum : 0 <= FileStream.sumZ (map snd rounds)).
  { clear - Hnn. induction Hnn as [|ob l H _ IH]; simpl; [lia|].
    unfold FileStream.sumZ in *. simpl. lia. }
  assert (Hpos : FileStream.numAdd (FileStream.start f)
                   (FileStream.bytesWritten f)
                 = FileStream.start f + FileStream.bytesWritten f)
    by (apply numAdd_exact; lia).
  split; [|split; [|split]].
  - intros data callback. unfold FileStream._write.
    rewrite Hfd, Hpos. reflexivity.
  - intros data callback. unfold FileStream._writev.
    rewrite Hfd, Hpos. reflexivity.
  - intros op bytes H0 H1.
    destruct (round_advances op bytes f d Hfd) as (_ & _ & E & _).
    cbv zeta in E. rewrite E. apply numAdd_exact. lia.
  - clear Hpos Hsum. revert f Hfd Hs Hb Hmax.
    induction Hnn as [|[op bytes] rounds H0 Hnn IH]; intros f Hfd Hs Hb Hmax.
    + simpl. rewrite app_nil_r. split; [reflexivity|].
      unfold FileStream.sumZ. simpl. lia.
    + assert (Hsum : 0 <= FileStream.sumZ (map snd rounds)).
      { clear - Hnn. induction Hnn as [|ob l H _ IH]; simpl; [lia|].
        unfold FileStream.sumZ in *. simpl. lia. }
      cbn [map snd FileStream.sumZ fold_right] in Hmax.
      change (fold_right Z.add 0 (map snd rounds))
        with (FileStream.sumZ (map snd rounds)) in Hmax.
      cbn [snd] in H0.
      destruct (round_advances op bytes f d Hfd)
        as (Hfd' & Hs' & Hb' & _ & Hp).
      cbv zeta in *.
      rewrite numAdd_exact in Hb' by lia.
      rewrite numAdd_exact in Hp by lia.
      cbn [fold_left map FileStream.contiguous snd].
      destruct (IH (FileStream.round f (op, bytes)) Hfd') as [IHp IHb].
      * rewrite Hs'. exact Hs.
      * rewrite Hb'. lia.
      * rewrite Hs', Hb'. lia.
      * rewrite IHp, IHb, Hp, Hs', Hb', <- app_assoc. cbn [app].
        split.
        -- do 3 f_equal. lia.
        -- unfold FileStream.sumZ. simpl. lia.
Qed.

Lemma file_writes_land_contiguously_witness :
  FileStream.fd openFileAt100 = Some 3
  /\ FileStream.start openFileAt100 + FileStream.bytesWritten openFileAt100
     + FileStream.sumZ [6; 3; 4] <= FileStream.MAX_SAFE_INTEGER
  /\ FileStream.positions
       (FileStream.log
          (fold_left FileStream.round
             [(FileStream.Single (zeros 6) None, 6);
              (FileStream.Multi [zeros 1; zeros 2] (Some 1%nat), 3);
              (FileStream.Single (zeros 4) None, 4)]
             openFileAt100))
     = [105; 111; 114]
  /\ FileStream.bytesWritten
       (fold_left FileStream.round
          [(FileStream.Single (zeros 6) None, 6);
           (FileStream.Multi [zeros 1; zeros 2] (Some 1%nat), 3);
           (FileStream.Single (zeros 4) None, 4)]
          openFileAt100)
     = 18.
Proof.
  split; [reflexivity|]. split; [vm_compute; discriminate|].
  exact (proj2 (proj2 (proj2
           (file_writes_land_contiguously
              [(FileStream.Single (zeros 6) None, 6);
               (FileStream.Multi [zeros 1; zeros 2] (Some 1%nat), 3);
               (FileStream.Single (zeros 4) None, 4)]
              openFileAt100 3 eq_refl
              ltac:(vm_compute; discriminate)
              ltac:(vm_compute; discriminate)
              ltac:(repeat constructor; vm_compute; discriminate)
              ltac:(vm_compute; discriminate))))).
Defined.

(** * Further properties of the stream core *)

(** ** Counting in traces and among the outstanding closures *)

Lemma filter_invokes (p : Event -> bool) (err : option Error)
    (l : list Callback) :
  (forall cb, p (Invoke cb err) = false) ->
  filter p (map (fun cb => Invoke cb err) l) = [].
Proof.
  intro H. induction l as [|cb l IH]; simpl; [reflexivity|].
  now rewrite H.
Qed.

Lemma finish_invokes (err : option Error) (l : list Callback) :
  filter isFinish (map (fun cb => Invoke cb err) l) = [].
Proof. now apply filter_invokes. Qed.

Lemma close_invokes (err : option Error) (l : list Callback) :
  filter isClose (map (fun cb => Invoke cb err) l) = [].
Proof. now apply filter_invokes. Qed.

Lemma drain_invokes (err : option Error) (l : list Callback) :
  filter isDrain (map (fun cb => Invoke cb err) l) = [].
Proof. now apply filter_invokes. Qed.

Lemma finalize_invokes (err : option Error) (l : list Callback) :
  filter isFinalize (map (fun cb => Invoke cb err) l) = [].
Proof. now apply filter_invokes. Qed.

Lemma teardown_invokes (err : option Error) (l : list Callback) :
  filter isTeardown (map (fun cb => Invoke cb err) l) = [].
Proof. now apply filter_invokes. Qed.

Lemma sinkCall_invokes (err : option Error) (l : list Callback) :
  filter isSinkCall (map (fun cb => Invoke cb err) l) = [].
Proof. now apply filter_invokes. Qed.

(** Taking the [i]-th closure out removes it from the count of its kind
    and from no other. *)
Lemma filter_removeNth {A} (p : A -> bool) (l : list A) (i : nat) (c : A) :
  nth_error l i = Some c ->
  List.length (filter p l)
  = (List.length (filter p (removeNth i l)) + countOf (p c))%nat.
Proof.
  unfold removeNth. revert i. induction l as [|a l IH]; intros i H.
  - destruct i; discriminate.
  - destruct i as [|i]; simpl in *.
    + injection H as ->. unfold countOf. destruct (p c); simpl; lia.
    + specialize (IH i H). destruct (p a); simpl; lia.
Qed.

Lemma totalLength_zero (l : list Buffer) :
  totalLength l = 0 -> bufferConcat l = [].
Proof.
  assert (Hl : forall l' : list Buffer, 0 <= totalLength l').
  { induction l' as [|b l' IH]; simpl; unfold byteLength; lia. }
  induction l as [|b l IH]; [reflexivity|].
  cbn [totalLength fold_right bufferConcat concat]. intro H.
  change (fold_right (fun b acc => byteLength b + acc) 0 l)
    with (totalLength l) in H.
  specialize (Hl l). unfold byteLength in H.
  destruct b as [|x b].
  - simpl in *. apply IH. lia.
  - cbn [List.length] in H. lia.
Qed.

(** ** The shape of the composite methods *)

(** [write] either throws at the checks, leaving the object as it was, or
    goes on with the chunk. *)
Lemma write_cases isEncoding bufferFrom (chunk encoding : Value)
    (callback : option Callback) (w : Writable) :
  (acceptedChunk isEncoding bufferFrom w chunk encoding callback = None
   /\ exists e,
       write isEncoding bufferFrom chunk encoding callback w = (Throw e, w))
  \/ (exists b,
         acceptedChunk isEncoding bufferFrom w chunk encoding callback
         = Some b
         /\ has_write w = true
         /\ write isEncoding bufferFrom chunk encoding callback w
            = writeBuffer b
                (snd (writeArgs (writableState w) encoding callback)) w).
Proof.
  destruct (acceptedChunk isEncoding bufferFrom w chunk encoding callback)
    as [b|] eqn:E.
  - right. exists b. destruct (accepted_write _ _ _ _ _ _ _ E) as [Hw Eq].
    auto.
  - left. split; [reflexivity|].
    unfold acceptedChunk in E. unfold write, bind, getThis.
    destruct (writeArgs (writableState w) encoding callback) as [enc cb].
    simpl in *.
    destruct (writeChunk isEncoding bufferFrom w chunk enc) as [b|e];
      [discriminate|].
    exists e. reflexivity.
Qed.

(** [resume] does nothing on an index out of range; otherwise it takes the
    closure out and runs its body. *)
Lemma resume_cases (i : nat) (r : option Error) (w : Writable) :
  (nth_error (pending w) i = None /\ resume i r w = (Ok tt, w))
  \/ (exists c,
         nth_error (pending w) i = Some c
         /\ resume i r w
            = bodyOf c r (with_pending (removeNth i (pending w)) w)).
Proof.
  unfold resume, bind, getThis. cbv beta iota.
  destruct (nth_error (pending w) i) as [c|] eqn:E.
  - right. exists c. split; [reflexivity|]. destruct c; reflexivity.
  - left. split; reflexivity.
Qed.

(** ** The invariant [Inv2] *)

Ltac unfold_counts :=
  unfold writesInFlight, finalizesPending, teardownsPending, closeSignals,
    drainSignals, finishSignals, finalizeCalls, teardownCalls in *.

Ltac split_goal :=
  repeat (simpl;
          rewrite ?forEach_invoke_unfolded;
          match goal with
          | |- context [match ?x with _ => _ end] =>
              lazymatch x with
              | context [match _ with _ => _ end] => fail
              | _ => destruct x eqn:?
              end
          end).

Ltac close_inv2 :=
  constructor;
  unfold writesInFlight, finalizesPending, teardownsPending, closeSignals,
    drainSignals, finishSignals, finalizeCalls, teardownCalls;
  simpl;
  rewrite ?filter_app, ?length_app, ?finish_invokes, ?close_invokes,
    ?finalize_invokes, ?teardown_invokes;
  simpl; intros; subst; use_facts; simpl in *;
  try congruence; try lia;
  try solve [intuition (use_facts; simpl in *; try congruence; try lia)].

(** Opens the object and the invariant. *)
Ltac open_inv2 w :=
  open_object w; unfold_counts; simpl in *; unfold_methods; unfold_counts.

Lemma Inv2_construct (o : Options) : Inv2 (construct o).
Proof. constructor; simpl; intros; auto; try congruence; try lia. Qed.

Lemma Inv2_cork f t (w : Writable) : Inv2At f t w -> Inv2At f t (exec cork w).
Proof.
  intros [H1 H2 H3 H4 H5 H6 H7 H8]. open_inv2 w. close_inv2.
Qed.

Lemma Inv2_uncork (w : Writable) : Inv2 w -> Inv2 (exec uncork w).
Proof.
  intros [H1 H2 H3 H4 H5 H6 H7 H8]. open_inv2 w.
  split_goal; close_inv2.
Qed.

Lemma Inv2_destroy (error : ErrorArg) (callback : option Callback)
    (w : Writable) :
  Inv2 w -> Inv2 (exec (destroy error callback) w).
Proof.
  intros [H1 H2 H3 H4 H5 H6 H7 H8]. destruct error; open_inv2 w;
    split_goal; close_inv2.
Qed.

Lemma Inv2_setDefaultEncoding isEncoding toLowerCase (e : Value)
    (w : Writable) :
  Inv2 w -> Inv2 (exec (setDefaultEncoding isEncoding toLowerCase e) w).
Proof.
  intros [H1 H2 H3 H4 H5 H6 H7 H8]. open_inv2 w.
  split_goal; close_inv2.
Qed.

Lemma Inv2_writeBuffer (chunk : Buffer) (callback : option Callback)
    (w : Writable) :
  has_write w = true ->
  Inv2 w -> Inv2 (exec (writeBuffer chunk callback) w).
Proof.
  intros Hw [H1 H2 H3 H4 H5 H6 H7 H8]. open_inv2 w. subst.
  unfold writableLength. split_goal; close_inv2.
Qed.

Lemma Inv2_write isEncoding bufferFrom (chunk encoding : Value)
    (callback : option Callback) (w : Writable) :
  Inv2 w ->
  Inv2 (exec (write isEncoding bufferFrom chunk encoding callback) w).
Proof.
  intro H.
  destruct (write_cases isEncoding bufferFrom chunk encoding callback w)
    as [(_ & e & Eq) | (b & _ & Hw & Eq)]; unfold exec; rewrite Eq.
  - exact H.
  - now apply Inv2_writeBuffer.
Qed.

Lemma Inv2_markEnded (callback : option Callback) (w : Writable) :
  Inv2 w -> Inv2 (markEnded callback w).
Proof.
  intros [H1 H2 H3 H4 H5 H6 H7 H8]. open_object w. unfold markEnded.
  destruct callback; close_inv2.
Qed.

(** [end] is its implicit [write], if there is a chunk, and then
    [markEnded]; an exception of the write leaves [end] at once. *)
Lemma end_cases isEncoding bufferFrom (chunk encoding : Value)
    (callback : option Callback) (w : Writable) :
  let c := fst (fst (endArgs chunk encoding callback)) in
  let e := snd (fst (endArgs chunk encoding callback)) in
  let cb := snd (endArgs chunk encoding callback) in
  end_ isEncoding bufferFrom chunk encoding callback w
  = match c with
    | VUndefined => (Ok tt, markEnded cb w)
    | _ =>
        match write isEncoding bufferFrom c e None w with
        | (Ok _, w1) => (Ok tt, markEnded cb w1)
        | (Throw err, w1) => (Throw err, w1)
        end
    end.
Proof.
  unfold end_. destruct (endArgs chunk encoding callback) as [[c e] cb].
  cbn [fst snd].
  assert (Htail : forall w1,
             (modify (set_ended true) ;;
              match cb with
              | Some f => fun w0 =>
                  (Ok tt, with_finishListeners (finishListeners w0 ++ [f]) w0)
              | None => ret tt
              end) w1 = (Ok tt, markEnded cb w1)).
  { intro w1. unfold bind, modify, ret, markEnded. destruct cb; reflexivity. }
  assert (Hwrite : forall v,
             ((write isEncoding bufferFrom v e None ;; ret tt) ;;
              modify (set_ended true) ;;
              match cb with
              | Some f => fun w0 =>
                  (Ok tt, with_finishListeners (finishListeners w0 ++ [f]) w0)
              | None => ret tt
              end) w
             = match write isEncoding bufferFrom v e None w with
               | (Ok _, w1) => (Ok tt, markEnded cb w1)
               | (Throw err, w1) => (Throw err, w1)
               end).
  { intro v. unfold bind at 1. unfold bind at 1. unfold ret at 1.
    destruct (write isEncoding bufferFrom v e None w) as [[b|err] w1];
      [apply Htail | reflexivity]. }
  destruct c; try apply Hwrite.
  unfold bind at 1. unfold ret at 1. apply Htail.
Qed.

Lemma Inv2_end isEncoding bufferFrom (chunk encoding : Value)
    (callback : option Callback) (w : Writable) :
  Inv2 w ->
  Inv2 (exec (end_ isEncoding bufferFrom chunk encoding callback) w).
Proof.
  intro H. unfold exec. rewrite end_cases. cbv zeta.
  assert (Hw : forall c,
    Inv2 (snd match write isEncoding bufferFrom c
                      (snd (fst (endArgs chunk encoding callback))) None w
              with
              | (Ok _, w1) =>
                  (Ok tt, markEnded (snd (endArgs chunk encoding callback)) w1)
              | (Throw err, w1) => (Throw err, w1)
              end)).
  { intro c.
    pose proof (Inv2_write isEncoding bufferFrom c
                  (snd (fst (endArgs chunk encoding callback))) None w H)
      as Hc.
    unfold exec in Hc.
    destruct (write isEncoding bufferFrom c
                (snd (fst (endArgs chunk encoding callback))) None w)
      as [[b|err] w1]; simpl in *; [apply Inv2_markEnded|]; exact Hc. }
  destruct (fst (fst (endArgs chunk encoding callback))); try apply Hw.
  simpl. apply Inv2_markEnded, H.
Qed.

(** Taking a closure out of [pending]. *)
Lemma Inv2_take (i : nat) (c : Closure) (w : Writable) :
  nth_error (pending w) i = Some c ->
  Inv2 w ->
  let w' := with_pending (removeNth i (pending w)) w in
  Inv2At (countOf (isFinalDone c)) (countOf (isDestroyDone c)) w'
  /\ (isWriteDone c = true -> writesInFlight w' = 0%nat).
Proof.
  intros Hn [H1 H2 H3 H4 H5 H6 H7 H8].
  pose proof (filter_removeNth isWriteDone _ _ _ Hn) as Fw.
  pose proof (filter_removeNth isFinalDone _ _ _ Hn) as Ff.
  pose proof (filter_removeNth isDestroyDone _ _ _ Hn) as Fd.
  open_object w. unfold_counts. simpl in *. split.
  - constructor; unfold_counts; simpl in *; intros; auto; try lia.
    specialize (H2 H). lia.
  - intro Hc. rewrite Hc in Fw. simpl in Fw. lia.
Qed.

Lemma Inv2_writeDone (callbacks : list Callback) (r : option Error)
    (w : Writable) :
  writesInFlight w = 0%nat ->
  Inv2 w -> Inv2 (exec (writeDone callbacks r) w).
Proof.
  intros H0 [H1 H2 H3 H4 H5 H6 H7 H8]. open_inv2 w.
  split_goal; close_inv2.
Qed.

Lemma Inv2_finalDone (r : option Error) (w : Writable) :
  Inv2At 1 0 w -> Inv2 (exec (finalDone r) w).
Proof.
  intros [H1 H2 H3 H4 H5 H6 H7 H8]. open_inv2 w.
  split_goal; close_inv2.
Qed.

Lemma Inv2_destroyDone (callback : option Callback) (r : option Error)
    (w : Writable) :
  Inv2At 0 1 w -> Inv2 (exec (destroyDone callback r) w).
Proof.
  intros [H1 H2 H3 H4 H5 H6 H7 H8]. open_inv2 w.
  split_goal; close_inv2.
Qed.

Lemma Inv2_tick (cb : Callback) (err : Error) (w : Writable) :
  Inv2 w -> Inv2 (exec (record (Invoke cb (Some err))) w).
Proof.
  intros [H1 H2 H3 H4 H5 H6 H7 H8]. open_inv2 w. close_inv2.
Qed.

Lemma Inv2_resume (i : nat) (r : option Error) (w : Writable) :
  Inv2 w -> Inv2 (exec (resume i r) w).
Proof.
  intro H. unfold exec.
  destruct (resume_cases i r w) as [[_ Eq] | (c & Hn & Eq)]; rewrite Eq;
    [exact H|].
  destruct (Inv2_take i c w Hn H) as [Ht Hw]. cbv zeta in *.
  destruct c; cbn [bodyOf isFinalDone isDestroyDone isWriteDone countOf]
                 in *.
  - apply Inv2_writeDone; auto.
  - apply Inv2_finalDone, Ht.
  - apply Inv2_destroyDone, Ht.
  - apply Inv2_tick, Ht.
Qed.

Lemma Inv2_step isEncoding bufferFrom toLowerCase (a : Action)
    (w : Writable) :
  Inv2 w -> Inv2 (step isEncoding bufferFrom toLowerCase w a).
Proof.
  intro H. unfold step. destruct a; simpl.
  - apply Inv2_cork, H.
  - apply Inv2_uncork, H.
  - apply Inv2_destroy, H.
  - apply Inv2_setDefaultEncoding, H.
  - apply Inv2_end, H.
  - pose proof (Inv2_write isEncoding bufferFrom chunk encoding callback w H)
      as Hw.
    unfold exec, bind, ret in *.
    destruct (write isEncoding bufferFrom chunk encoding callback w)
      as [[b|e] w1]; exact Hw.
  - apply Inv2_resume, H.
Qed.

Lemma Inv2_run isEncoding bufferFrom toLowerCase (acts : list Action)
    (w : Writable) :
  Inv2 w -> Inv2 (run isEncoding bufferFrom toLowerCase acts w).
Proof.
  revert w. induction acts as [|a acts IH]; intros w H; simpl; [exact H|].
  apply IH, Inv2_step, H.
Qed.

Lemma Inv2_reachable isEncoding bufferFrom toLowerCase (w : Writable) :
  reachable isEncoding bufferFrom toLowerCase w -> Inv2 w.
Proof.
  intros (o & acts & ->). apply Inv2_run, Inv2_construct.
Qed.

(** ** What each call does: the step law *)

Lemma sinkStream_app (t1 t2 : list Event) :
  sinkStream (t1 ++ t2) = sinkStream t1 ++ sinkStream t2.
Proof. unfold sinkStream. apply flat_map_app. Qed.

Lemma sinkStream_invokes (err : option Error) (l : list Callback) :
  sinkStream (map (fun cb => Invoke cb err) l) = [].
Proof. induction l; simpl; auto. Qed.

Lemma bufferConcat_app (l1 l2 : list Buffer) :
  bufferConcat (l1 ++ l2) = bufferConcat l1 ++ bufferConcat l2.
Proof. unfold bufferConcat. apply concat_app. Qed.

Lemma callbacksOf_app (l1 l2 : list Closure) :
  flat_map callbacksOf (l1 ++ l2)
  = flat_map callbacksOf l1 ++ flat_map callbacksOf l2.
Proof. apply flat_map_app. Qed.

Lemma Sound_of (f t : nat) (w : Writable) : Inv w -> Inv2At f t w -> Sound w.
Proof.
  intros [Hq Hc Hu Hfe Hfd Hfc Hff Ht Htd] [H1 H2 H3 H4 H5 H6 H7 H8].
  split; [|split].
  - intro Hw. apply totalLength_zero. rewrite <- Hq. auto.
  - intro Hz. auto.
  - exact H5.
Qed.

Ltac use_sound :=
  repeat match goal with
         | H : ?a = ?a -> _ |- _ => specialize (H eq_refl)
         | H : _ && _ = true |- _ => apply andb_prop in H
         | H : negb _ = true |- _ => apply negb_true_iff in H
         | H : ?x = false |- _ => is_var x; subst x
         | H : ?x = true |- _ => is_var x; subst x
         | H : _ /\ _ |- _ => destruct H
         | H : ?l = [] |- _ => first [subst l | rewrite H in *; clear H]
         | H : true = false -> _ |- _ => clear H
         | H : false = true -> _ |- _ => clear H
         | H : S _ = 0%nat -> _ |- _ => clear H
         end.

Ltac close_law :=
  constructor;
  [ unfold sameConfiguration; simpl; repeat split
  | unfold flagsStay; simpl; repeat split; intros; congruence
  | unfold sinkStream, queuedStream, undispatched in *; simpl in *;
    use_sound;
    rewrite ?flat_map_app, ?bufferConcat_app; simpl;
    fold sinkStream;
    rewrite ?sinkStream_invokes, ?bufferConcat_app; simpl;
    rewrite ?app_nil_r, <- ?app_assoc; simpl;
    rewrite ?app_nil_r; try reflexivity;
    repeat match goal with
           | H : _ = [] |- _ => rewrite H
           end;
    simpl; rewrite ?app_nil_r; reflexivity
  | unfold drainSignals; simpl;
    rewrite ?filter_app, ?length_app, ?drain_invokes; simpl;
    unfold countOf;
    repeat match goal with
           | |- context [if ?b then _ else _] => destruct b
           end; lia
  | unfold heldCallbacks in *; simpl in *; use_sound;
    rewrite ?callbacksOf_app; simpl;
    rewrite ?app_nil_r, <- ?app_assoc; simpl;
    rewrite ?app_nil_r; try reflexivity ].

Lemma law_cork (w : Writable) : StepLaw [] 0 [] [] w (exec cork w).
Proof. open_object w. unfold_methods. close_law. Qed.

Lemma law_uncork (w : Writable) :
  Sound w -> StepLaw [] 0 [] [] w (exec uncork w).
Proof.
  intros (Hi & Hu & Hn). open_object w. unfold_methods.
  split_cases; close_law.
Qed.

Lemma law_destroy (error : ErrorArg) (callback : option Callback)
    (w : Writable) :
  StepLaw [] 0 [] [] w (exec (destroy error callback) w).
Proof.
  open_object w. destruct error; unfold_methods; split_cases; close_law.
Qed.

Lemma law_setDefaultEncoding isEncoding toLowerCase (e : Value)
    (w : Writable) :
  StepLaw [] 0 [] [] w (exec (setDefaultEncoding isEncoding toLowerCase e) w).
Proof.
  open_object w. unfold_methods. split_cases; close_law.
Qed.

Lemma law_writeBuffer (b : Buffer) (callback : option Callback)
    (w : Writable) :
  has_write w = true ->
  Sound w ->
  StepLaw
    (match rejection (writableState w) with None => b | Some _ => [] end)
    (match outcome (writeBuffer b callback) w with
     | Ok false => 1%nat
     | _ => 0%nat
     end)
    (match rejection (writableState w), callback with
     | None, Some f => [f]
     | _, _ => []
     end)
    [] w (exec (writeBuffer b callback) w).
Proof.
  intros Hw (Hi & Hu & Hn). open_object w. simpl in Hw. subst.
  unfold rejection. unfold_methods. unfold writableLength.
  split_cases; close_law.
Qed.

Lemma law_writeDone (callbacks : list Callback) (r : option Error)
    (w : Writable) :
  Sound w -> StepLaw [] 0 [] [] w (exec (writeDone callbacks r) w).
Proof.
  intros (Hi & Hu & Hn). open_object w. unfold_methods.
  split_cases; close_law.
Qed.

Lemma law_finalDone (r : option Error) (w : Writable) :
  StepLaw [] 0 [] [] w (exec (finalDone r) w).
Proof.
  open_object w. unfold_methods. split_cases; close_law.
Qed.

Lemma law_destroyDone (callback : option Callback) (r : option Error)
    (w : Writable) :
  StepLaw [] 0 [] [] w (exec (destroyDone callback r) w).
Proof.
  open_object w. unfold_methods. split_cases; close_law.
Qed.

Lemma law_tick (cb : Callback) (err : Error) (w : Writable) :
  StepLaw [] 0 [] [] w (exec (record (Invoke cb (Some err))) w).
Proof. open_object w. unfold_methods. close_law. Qed.

Lemma law_markEnded (callback : option Callback) (w : Writable) :
  StepLaw [] 0 [] [] w (markEnded callback w).
Proof.
  open_object w. unfold markEnded. destruct callback; close_law.
Qed.

Lemma StepLaw_refl (w : Writable) : StepLaw [] 0 [] [] w w.
Proof.
  constructor; unfold sameConfiguration, flagsStay; simpl;
    rewrite ?app_nil_r; repeat split; auto; lia.
Qed.

Lemma StepLaw_trans (a1 a2 : Buffer) (r1 r2 : nat)
    (c1 c2 d1 d2 : list Callback) (w w1 w2 : Writable) :
  StepLaw a1 r1 c1 d1 w w1 ->
  StepLaw a2 r2 c2 d2 w1 w2 ->
  StepLaw (a1 ++ a2) (r1 + r2) (c1 ++ c2) (d1 ++ d2) w w2.
Proof.
  intros [C1 F1 S1 D1 K1] [C2 F2 S2 D2 K2].
  unfold sameConfiguration, flagsStay in *. constructor.
  - destruct C1 as (A1 & A2 & A3 & A4 & A5 & A6 & A7).
    destruct C2 as (B1 & B2 & B3 & B4 & B5 & B6 & B7).
    repeat split; congruence.
  - destruct F1 as (E1 & E2 & E3). destruct F2 as (G1 & G2 & G3).
    repeat split; auto.
  - rewrite S2, app_assoc, S1, <- !app_assoc. reflexivity.
  - lia.
  - rewrite <- app_assoc, K2, app_assoc, K1, <- app_assoc. reflexivity.
Qed.

Lemma StepLaw_eq (a a' : Buffer) (r r' : nat) (c c' d d' : list Callback)
    (w w' : Writable) :
  a = a' -> r = r' -> c = c' -> d = d' ->
  StepLaw a r c d w w' -> StepLaw a' r' c' d' w w'.
Proof. now intros -> -> -> ->. Qed.

(** Splitting a list of closures at one of its elements. *)
Lemma callbacksOf_split (l : list Closure) (i : nat) (c : Closure) :
  nth_error l i = Some c ->
  flat_map callbacksOf l
  = flat_map callbacksOf (firstn i l) ++ callbacksOf c
    ++ flat_map callbacksOf (skipn (S i) l).
Proof.
  revert i. induction l as [|a l IH]; intros i H.
  - destruct i; discriminate.
  - destruct i as [|i]; simpl in *.
    + now injection H as ->.
    + rewrite (IH i H), <- app_assoc. reflexivity.
Qed.

Lemma callbacksOf_none (l : list Closure) :
  List.length (filter isWriteDone l) = 0%nat -> flat_map callbacksOf l = [].
Proof.
  induction l as [|a l IH]; simpl; [reflexivity|].
  destruct a; simpl; auto; discriminate.
Qed.

(** Taking a closure out of [pending] takes its callbacks from the front
    of the held callbacks: a write completion is the only one in flight. *)
Lemma law_take (i : nat) (c : Closure) (w : Writable) :
  nth_error (pending w) i = Some c ->
  Inv2 w ->
  StepLaw [] 0 [] (callbacksOf c) w
    (with_pending (removeNth i (pending w)) w).
Proof.
  intros Hn H2. destruct (Inv2_take i c w Hn H2) as [_ Hw]. cbv zeta in Hw.
  pose proof (callbacksOf_split _ _ _ Hn) as Hs.
  constructor; unfold sameConfiguration, flagsStay; simpl;
    rewrite ?app_nil_r; repeat split; auto; try lia.
  unfold heldCallbacks. simpl. rewrite Hs. unfold removeNth.
  rewrite callbacksOf_app, <- !app_assoc.
  destruct (isWriteDone c) eqn:Ec.
  - specialize (Hw eq_refl). unfold writesInFlight, removeNth in Hw.
    cbn [pending with_pending] in Hw.
    rewrite filter_app, length_app in Hw.
    rewrite (callbacksOf_none (firstn i (pending w))) by lia.
    rewrite (callbacksOf_none (skipn (S i) (pending w))) by lia.
    reflexivity.
  - destruct c; try discriminate; reflexivity.
Qed.

Lemma endArgs_encoding (chunk encoding : Value)
    (callback : option Callback) (state : WritableState) :
  snd (writeArgs state (snd (fst (endArgs chunk encoding callback))) None)
  = None.
Proof.
  unfold endArgs, writeArgs.
  destruct chunk, encoding; simpl; try reflexivity;
    match goal with
    | |- context [match ?s with EmptyString => _ | String _ _ => _ end] =>
        destruct s; reflexivity
    end.
Qed.

Section StepLaws.

Variable isEncoding : string -> bool.
Variable bufferFrom : string -> string -> Buffer.
Variable toLowerCase : string -> string.

Lemma law_write (chunk encoding : Value) (callback : option Callback)
    (w : Writable) :
  Sound w ->
  StepLaw (acceptedBytes isEncoding bufferFrom w chunk encoding callback)
    (match outcome (write isEncoding bufferFrom chunk encoding callback) w
     with
     | Ok false => 1%nat
     | _ => 0%nat
     end)
    (acceptedCallback isEncoding bufferFrom w chunk encoding callback)
    [] w (exec (write isEncoding bufferFrom chunk encoding callback) w).
Proof.
  intro Hs. unfold acceptedBytes, acceptedCallback, exec, outcome.
  destruct (write_cases isEncoding bufferFrom chunk encoding callback w)
    as [(Ha & e & Eq) | (b & Ha & Hw & Eq)]; rewrite Eq, Ha.
  - simpl. apply StepLaw_refl.
  - pose proof (law_writeBuffer b
                  (snd (writeArgs (writableState w) encoding callback))
                  w Hw Hs) as L.
    unfold exec, outcome in L.
    eapply StepLaw_eq; [| | | |exact L]; reflexivity.
Qed.

Lemma law_end (chunk encoding : Value) (callback : option Callback)
    (w : Writable) :
  Sound w ->
  StepLaw
    (acceptedBy isEncoding bufferFrom w (AEnd chunk encoding callback))
    (refusedBy isEncoding bufferFrom w (AEnd chunk encoding callback))
    [] [] w (exec (end_ isEncoding bufferFrom chunk encoding callback) w).
Proof.
  intro Hs. unfold exec, acceptedBy, refusedBy. rewrite end_cases. cbv zeta.
  set (c := fst (fst (endArgs chunk encoding callback))).
  set (e := snd (fst (endArgs chunk encoding callback))).
  set (cb := snd (endArgs chunk encoding callback)).
  assert (Hw : StepLaw (acceptedBytes isEncoding bufferFrom w c e None)
                 (match outcome (write isEncoding bufferFrom c e None) w with
                  | Ok false => 1%nat
                  | _ => 0%nat
                  end) [] [] w
                 (snd match write isEncoding bufferFrom c e None w with
                      | (Ok _, w1) => (Ok tt, markEnded cb w1)
                      | (Throw err, w1) => (Throw err, w1)
                      end)).
  { pose proof (law_write c e None w Hs) as L.
    assert (Hc : acceptedCallback isEncoding bufferFrom w c e None = []).
    { unfold acceptedCallback. subst e. rewrite endArgs_encoding.
      destruct (acceptedChunk isEncoding bufferFrom w c _ None);
        [destruct (rejection (writableState w))|]; reflexivity. }
    rewrite Hc in L. unfold exec, outcome in *.
    destruct (write isEncoding bufferFrom c e None w) as [[b|err] w1];
      simpl in *; [|exact L].
    eapply StepLaw_eq;
      [| | | |exact (StepLaw_trans _ _ _ _ _ _ _ _ _ _ _ L
                       (law_markEnded cb w1))];
      rewrite ?app_nil_r; auto. }
  destruct c; try exact Hw.
  simpl. apply law_markEnded.
Qed.

Lemma law_resume (i : nat) (r : option Error) (w : Writable) :
  Inv w -> Inv2 w ->
  StepLaw [] 0 []
    (completedBy w (AResume i r)) w (exec (resume i r) w).
Proof.
  intros H1 H2. unfold exec, completedBy.
  destruct (resume_cases i r w) as [[Hn Eq] | (c & Hn & Eq)];
    rewrite Eq, Hn; [apply StepLaw_refl|].
  pose proof (law_take i c w Hn H2) as Lt.
  destruct (Inv2_take i c w Hn H2) as [Ht _]. cbv zeta in Ht.
  pose proof (Inv_remove_pending (removeNth i (pending w)) w H1) as Hi.
  pose proof (Sound_of _ _ _ Hi Ht) as Hs.
  set (w1 := with_pending (removeNth i (pending w)) w) in *.
  assert (Lb : StepLaw [] 0 [] [] w1 (snd (bodyOf c r w1))).
  { destruct c; cbn [bodyOf].
    - apply law_writeDone, Hs.
    - apply law_finalDone.
    - apply law_destroyDone.
    - apply law_tick. }
  eapply StepLaw_eq; [| | | |exact (StepLaw_trans _ _ _ _ _ _ _ _ _ _ _ Lt Lb)];
    rewrite ?app_nil_r; auto.
Qed.

(** The law of one action, in a state where both invariants hold. *)
Lemma law_step (a : Action) (w : Writable) :
  Inv w -> Inv2 w ->
  StepLaw (acceptedBy isEncoding bufferFrom w a)
    (refusedBy isEncoding bufferFrom w a)
    (acceptedCallbackBy isEncoding bufferFrom w a)
    (completedBy w a) w (step isEncoding bufferFrom toLowerCase w a).
Proof.
  intros H1 H2. pose proof (Sound_of _ _ _ H1 H2) as Hs.
  unfold step. destruct a; cbn [perform acceptedBy refusedBy
                                  acceptedCallbackBy completedBy].
  - apply law_cork.
  - apply law_uncork, Hs.
  - apply law_destroy.
  - apply law_setDefaultEncoding.
  - apply law_end, Hs.
  - pose proof (law_write chunk encoding callback w Hs) as L.
    unfold exec, bind, ret in *.
    destruct (write isEncoding bufferFrom chunk encoding callback w)
      as [[b|e] w1]; exact L.
  - apply law_resume; assumption.
Qed.

(** The law of a run. *)
Lemma law_run (acts : list Action) (w : Writable) :
  Inv w -> Inv2 w ->
  StepLaw (acceptedStream isEncoding bufferFrom toLowerCase acts w)
    (refusals isEncoding bufferFrom toLowerCase acts w)
    (acceptedCallbacks isEncoding bufferFrom toLowerCase acts w)
    (completedCallbacks isEncoding bufferFrom toLowerCase acts w)
    w (run isEncoding bufferFrom toLowerCase acts w).
Proof.
  revert w. induction acts as [|a acts IH]; intros w H1 H2.
  - simpl. apply StepLaw_refl.
  - cbn [acceptedStream refusals acceptedCallbacks completedCallbacks run
           fold_left].
    eapply StepLaw_trans; [apply law_step; assumption|].
    apply IH; [apply Inv_step | apply Inv2_step]; assumption.
Qed.

End StepLaws.

(** ** Properties of every run *)

(** X1.  Sink operations never overlap: in every reachable state at most
    one sink operation has not called back, and none when [writing] is
    false. *)
Theorem sink_operations_never_overlap isEncoding bufferFrom toLowerCase
    (w : Writable) :
  reachable isEncoding bufferFrom toLowerCase w ->
  (writesInFlight w <= 1)%nat
  /\ (writing (writableState w) = false -> writesInFlight w = 0%nat)
  /\ (writing (writableState w) = false ->
      bytesInQueue (writableState w) = 0).
Proof.
  intro Hr. destruct (Inv2_reachable _ _ _ w Hr) as [H1 H2 H3 _ _ _ _ _].
  auto.
Qed.

Lemma sink_operations_never_overlap_witness :
  reachable utf8Only bytesOfString sameCase secondDispatched
  /\ (writesInFlight secondDispatched <= 1)%nat.
Proof.
  assert (Hr : reachable utf8Only bytesOfString sameCase secondDispatched).
  { exists bothSinks. eexists. reflexivity. }
  split; [exact Hr|].
  exact (proj1 (sink_operations_never_overlap utf8Only bytesOfString
                  sameCase secondDispatched Hr)).
Defined.

(** X2.  No byte is lost, duplicated or reordered: after any run from a
    new stream, the bytes of all sink calls in order, followed by the
    bytes still queued, are the bytes of the accepted writes in the order
    of acceptance. *)
Theorem accepted_bytes_reach_the_sink_in_order isEncoding bufferFrom
    toLowerCase (o : Options) (acts : list Action) :
  let w := run isEncoding bufferFrom toLowerCase acts (construct o) in
  sinkStream (trace w) ++ queuedStream w
  = acceptedStream isEncoding bufferFrom toLowerCase acts (construct o).
Proof.
  destruct (law_run isEncoding bufferFrom toLowerCase acts (construct o)
              (Inv_construct o) (Inv2_construct o)) as [_ _ S _ _].
  exact S.
Qed.

(** X3.  A drain signal answers a refused write: after any run from a new
    stream, the drain signals raised, plus one if the producer is still
    told to wait, are at most the [write] calls that returned [false]. *)
Theorem drain_only_after_refusal isEncoding bufferFrom toLowerCase
    (o : Options) (acts : list Action) :
  let w := run isEncoding bufferFrom toLowerCase acts (construct o) in
  (drainSignals (trace w) + countOf (needDrain (writableState w))
   <= refusals isEncoding bufferFrom toLowerCase acts (construct o))%nat.
Proof.
  destruct (law_run isEncoding bufferFrom toLowerCase acts (construct o)
              (Inv_construct o) (Inv2_construct o)) as [_ _ _ D _].
  simpl in *. lia.
Qed.

(** The completion of a sink operation first calls the callbacks it
    captured, in order, each with the result. *)
Lemma writeDone_invokes_first (callbacks : list Callback)
    (r : option Error) (w : Writable) :
  exists rest,
    trace (exec (writeDone callbacks r) w)
    = trace w ++ map (fun cb => Invoke cb r) callbacks ++ rest.
Proof.
  open_object w. unfold_methods.
  split_cases; simpl; rewrite <- ?app_assoc; eexists;
    repeat (f_equal; try reflexivity);
    try (rewrite app_nil_r; reflexivity).
Qed.

(** X4.  Callbacks are called in the order of acceptance: after any run
    from a new stream, the callbacks captured by the completed sink
    operations, followed by the callbacks still held, are the callbacks of
    the accepted writes in order; and a completion calls the callbacks it
    captured, in order, with its result, before anything else. *)
Theorem callbacks_complete_in_order isEncoding bufferFrom toLowerCase
    (o : Options) (acts : list Action) :
  let w := run isEncoding bufferFrom toLowerCase acts (construct o) in
  completedCallbacks isEncoding bufferFrom toLowerCase acts (construct o)
  ++ heldCallbacks w
  = acceptedCallbacks isEncoding bufferFrom toLowerCase acts (construct o)
  /\ forall i r data callbacks,
      nth_error (pending w) i = Some (WriteDone data callbacks) ->
      exists rest,
        trace (step isEncoding bufferFrom toLowerCase w (AResume i r))
        = trace w ++ map (fun cb => Invoke cb r) callbacks ++ rest.
Proof.
  split.
  - destruct (law_run isEncoding bufferFrom toLowerCase acts (construct o)
                (Inv_construct o) (Inv2_construct o)) as [_ _ _ _ K].
    exact K.
  - intros i r data callbacks Hn. unfold step, exec. cbn [perform].
    destruct (resume_cases i r
                (run isEncoding bufferFrom toLowerCase acts (construct o)))
      as [[Hn' _] | (c & Hn' & Eq)]; [congruence|].
    rewrite Eq. rewrite Hn in Hn'. injection Hn' as <-. cbn [bodyOf].
    apply (writeDone_invokes_first callbacks r
             (with_pending _ _)).
Qed.

Lemma callbacks_complete_in_order_witness :
  nth_error (pending afterSecondWrite) 0 = Some (WriteDone (One (zeros 6)) [])
  /\ completedCallbacks utf8Only bytesOfString sameCase
       [AWrite six VUndefined (Some 1%nat);
        AWrite six VUndefined (Some 2%nat); AResume 0 None]
       (construct bothSinks)
     ++ heldCallbacks
          (runUtf8 [AWrite six VUndefined (Some 1%nat);
                    AWrite six VUndefined (Some 2%nat); AResume 0 None]
             (construct bothSinks))
     = [1%nat; 2%nat].
Proof.
  split; [reflexivity|].
  exact (proj1 (callbacks_complete_in_order utf8Only bytesOfString sameCase
                  bothSinks
                  [AWrite six VUndefined (Some 1%nat);
                   AWrite six VUndefined (Some 2%nat); AResume 0 None])).
Defined.

(** X5.  What the constructor fixes stays fixed, and the lifecycle flags
    never go back: along any run from a reachable state the threshold, the
    [emitClose] and [autoDestroy] settings and the supplied sinks are
    unchanged, and [ended], [finished] and [destroyed] stay true once
    true. *)
Theorem configuration_fixed_and_flags_permanent isEncoding bufferFrom
    toLowerCase (w : Writable) (acts : list Action) :
  reachable isEncoding bufferFrom toLowerCase w ->
  let w' := run isEncoding bufferFrom toLowerCase acts w in
  sameConfiguration w w'
  /\ writableHighWaterMark w' = writableHighWaterMark w
  /\ (writableEnded w = true -> writableEnded w' = true)
  /\ (writableFinished w = true -> writableFinished w' = true)
  /\ (destroyed (writableState w) = true ->
      destroyed (writableState w') = true)
  /\ (writableEnded w = true -> writable w' = false).
Proof.
  intro Hr.
  destruct (law_run isEncoding bufferFrom toLowerCase acts w
              (Inv_reachable _ _ _ w Hr) (Inv2_reachable _ _ _ w Hr))
    as [C F _ _ _].
  destruct F as (F1 & F2 & F3). cbv zeta.
  unfold writableHighWaterMark, writableEnded, writableFinished, writable.
  repeat split; auto; try apply C.
  intro He. rewrite (F1 He). simpl. now rewrite andb_false_r.
Qed.

Lemma configuration_fixed_and_flags_permanent_witness :
  reachable utf8Only bytesOfString sameCase finalizing
  /\ writableEnded finalizing = true
  /\ writableEnded
       (runUtf8 [AWrite six VUndefined (Some 1%nat); AUncork; AResume 0 None]
          finalizing) = true
  /\ writable
       (runUtf8 [AWrite six VUndefined (Some 1%nat); AUncork; AResume 0 None]
          finalizing) = false.
Proof.
  assert (Hr : reachable utf8Only bytesOfString sameCase finalizing).
  { exists asyncFinal. eexists. reflexivity. }
  split; [exact Hr|]. split; [reflexivity|].
  destruct (configuration_fixed_and_flags_permanent utf8Only bytesOfString
              sameCase finalizing
              [AWrite six VUndefined (Some 1%nat); AUncork; AResume 0 None]
              Hr) as (_ & _ & He & _ & _ & Hw).
  split; [exact (He eq_refl) | exact (Hw eq_refl)].
Defined.

(** X6.  Finalize and finish are accounted for: in every reachable state
    each call of the finalize operation has either raised one finish
    signal or has not called back yet, and [finished] is set exactly when
    finalize has been called. *)
Theorem finish_signals_match_finalize_calls isEncoding bufferFrom
    toLowerCase (w : Writable) :
  reachable isEncoding bufferFrom toLowerCase w ->
  finalizeCalls (trace w) = (finishSignals (trace w) + finalizesPending w)%nat
  /\ (finished (writableState w) = true <-> (0 < finalizeCalls (trace w))%nat)
  /\ (ended (writableState w) = false -> finishSignals (trace w) = 0%nat).
Proof.
  intro Hr.
  destruct (Inv2_reachable _ _ _ w Hr) as [_ _ _ _ _ H6 H7 _].
  destruct (Inv_reachable _ _ _ w Hr) as [_ _ _ Hfe _ _ Hff _ _].
  rewrite Nat.add_0_r in H6. split; [exact H6|]. split; [split|].
  - exact Hff.
  - intro Hp. destruct (finished (writableState w)) eqn:E; [reflexivity|].
    specialize (H7 eq_refl). lia.
  - intro He. destruct (finished (writableState w)) eqn:E.
    + specialize (Hfe eq_refl). congruence.
    + specialize (H7 eq_refl). lia.
Qed.

Lemma finish_signals_match_finalize_calls_witness :
  reachable utf8Only bytesOfString sameCase finalizing
  /\ finalizeCalls (trace finalizing)
     = (finishSignals (trace finalizing) + finalizesPending finalizing)%nat.
Proof.
  assert (Hr : reachable utf8Only bytesOfString sameCase finalizing).
  { exists asyncFinal. eexists. reflexivity. }
  split; [exact Hr|].
  exact (proj1 (finish_signals_match_finalize_calls utf8Only bytesOfString
                  sameCase finalizing Hr)).
Defined.

(** X7.  The close signal is raised at most once, only on a destroyed
    stream, and only by a teardown that has called back. *)
Theorem close_raised_at_most_once isEncoding bufferFrom toLowerCase
    (w : Writable) :
  reachable isEncoding bufferFrom toLowerCase w ->
  (closeSignals (trace w) <= 1)%nat
  /\ (closeSignals (trace w) + teardownsPending w
      <= teardownCalls (trace w))%nat
  /\ ((0 < closeSignals (trace w))%nat ->
      destroyed (writableState w) = true).
Proof.
  intro Hr.
  destruct (Inv2_reachable _ _ _ w Hr) as [_ _ _ _ _ _ _ H8].
  destruct (Inv_reachable _ _ _ w Hr) as [_ _ _ _ _ _ _ Ht Htd].
  rewrite Nat.add_0_r in H8. repeat split; try lia; auto.
  intro Hp. destruct (destroyed (writableState w)) eqn:E; [reflexivity|].
  specialize (Htd eq_refl). lia.
Qed.

Lemma close_raised_at_most_once_witness :
  reachable utf8Only bytesOfString sameCase tornDown
  /\ closeSignals (trace tornDown) = 1%nat
  /\ destroyed (writableState tornDown) = true.
Proof.
  assert (Hr : reachable utf8Only bytesOfString sameCase tornDown).
  { exists bothSinks. eexists. reflexivity. }
  split; [exact Hr|]. split; [reflexivity|].
  apply (close_raised_at_most_once utf8Only bytesOfString sameCase
           tornDown Hr).
  vm_compute. lia.
Defined.

(** ** A stream that can no longer write *)

Ltac close_stuck w :=
  let Hw := fresh "Hw" in
  let Hf := fresh "Hf" in
  unfold stuck, writesInFlight, sinkCalls; intros [Hw Hf];
  open_object w; simpl in Hw, Hf; subst; unfold_methods;
  unfold writableLength; split_cases; simpl;
  rewrite ?filter_app, ?length_app, ?sinkCall_invokes; simpl;
  rewrite ?app_nil_r; repeat split; try reflexivity; try congruence;
  try lia.

Lemma stuck_writeBuffer chunk callback (w : Writable) :
  stuck w ->
  stuck (exec (writeBuffer chunk callback) w)
  /\ sinkCalls (trace (exec (writeBuffer chunk callback) w))
     = sinkCalls (trace w).
Proof. close_stuck w. Qed.

Lemma stuck_cork (w : Writable) :
  stuck w ->
  stuck (exec cork w) /\ sinkCalls (trace (exec cork w)) = sinkCalls (trace w).
Proof. close_stuck w. Qed.

Lemma stuck_uncork (w : Writable) :
  stuck w ->
  stuck (exec uncork w)
  /\ sinkCalls (trace (exec uncork w)) = sinkCalls (trace w).
Proof.
  unfold stuck, writesInFlight. intros [Hw Hf].
  destruct w as [s hw hwv fi di fl pd tr].
  destruct s as [de ec ad hwm d en fin c wr nd biq bufs cbs bc cbufs ccbs].
  simpl in Hw, Hf. subst. destruct c as [|[|c]]; simpl; auto.
Qed.

Lemma stuck_destroy error callback (w : Writable) :
  stuck w ->
  stuck (exec (destroy error callback) w)
  /\ sinkCalls (trace (exec (destroy error callback) w))
     = sinkCalls (trace w).
Proof. destruct error; close_stuck w. Qed.

Lemma stuck_setDefaultEncoding isEncoding toLowerCase e (w : Writable) :
  stuck w ->
  stuck (exec (setDefaultEncoding isEncoding toLowerCase e) w)
  /\ sinkCalls (trace (exec (setDefaultEncoding isEncoding toLowerCase e) w))
     = sinkCalls (trace w).
Proof. close_stuck w. Qed.

Lemma stuck_finalDone r (w : Writable) :
  stuck w ->
  stuck (exec (finalDone r) w)
  /\ sinkCalls (trace (exec (finalDone r) w)) = sinkCalls (trace w).
Proof. close_stuck w. Qed.

Lemma stuck_destroyDone callback r (w : Writable) :
  stuck w ->
  stuck (exec (destroyDone callback r) w)
  /\ sinkCalls (trace (exec (destroyDone callback r) w))
     = sinkCalls (trace w).
Proof. close_stuck w. Qed.

Lemma stuck_tick cb err (w : Writable) :
  stuck w ->
  stuck (exec (record (Invoke cb (Some err))) w)
  /\ sinkCalls (trace (exec (record (Invoke cb (Some err))) w))
     = sinkCalls (trace w).
Proof. close_stuck w. Qed.

Lemma stuck_markEnded callback (w : Writable) :
  stuck w ->
  stuck (markEnded callback w)
  /\ sinkCalls (trace (markEnded callback w)) = sinkCalls (trace w).
Proof.
  unfold stuck, writesInFlight, markEnded. intros [Hw Hf].
  destruct callback; simpl; auto.
Qed.

Lemma stuck_step isEncoding bufferFrom toLowerCase (a : Action)
    (w : Writable) :
  stuck w ->
  stuck (step isEncoding bufferFrom toLowerCase w a)
  /\ sinkCalls (trace (step isEncoding bufferFrom toLowerCase w a))
     = sinkCalls (trace w).
Proof.
  assert (Hwrite : forall chunk encoding callback,
             stuck w ->
             stuck (exec (write isEncoding bufferFrom chunk encoding
                            callback) w)
             /\ sinkCalls
                  (trace (exec (write isEncoding bufferFrom chunk encoding
                                  callback) w))
                = sinkCalls (trace w)).
  { intros chunk encoding callback Hs. unfold exec.
    destruct (write_cases isEncoding bufferFrom chunk encoding callback w)
      as [(_ & e & Eq) | (b & _ & _ & Eq)]; rewrite Eq.
    - auto.
    - now apply stuck_writeBuffer. }
  unfold step. destruct a; cbn [perform].
  - apply stuck_cork.
  - apply stuck_uncork.
  - apply stuck_destroy.
  - apply stuck_setDefaultEncoding.
  - intro Hs. unfold exec. rewrite end_cases. cbv zeta.
    assert (Hc : forall c,
      stuck (snd match write isEncoding bufferFrom c
                         (snd (fst (endArgs chunk encoding callback))) None w
                 with
                 | (Ok _, w1) =>
                     (Ok tt,
                      markEnded (snd (endArgs chunk encoding callback)) w1)
                 | (Throw err, w1) => (Throw err, w1)
                 end)
      /\ sinkCalls
           (trace (snd match write isEncoding bufferFrom c
                               (snd (fst (endArgs chunk encoding callback)))
                               None w
                       with
                       | (Ok _, w1) =>
                           (Ok tt,
                            markEnded (snd (endArgs chunk encoding callback))
                              w1)
                       | (Throw err, w1) => (Throw err, w1)
                       end))
         = sinkCalls (trace w)).
    { intro c.
      destruct (Hwrite c (snd (fst (endArgs chunk encoding callback))) None
                  Hs) as [S1 S2].
      unfold exec in *.
      destruct (write isEncoding bufferFrom c
                  (snd (fst (endArgs chunk encoding callback))) None w)
        as [[b|err] w1]; simpl in *; [|auto].
      destruct (stuck_markEnded (snd (endArgs chunk encoding callback)) w1 S1)
        as [S3 S4].
      split; [exact S3|congruence]. }
    destruct (fst (fst (endArgs chunk encoding callback))); try apply Hc.
    simpl. now apply stuck_markEnded.
  - intro Hs. destruct (Hwrite chunk encoding callback Hs) as [S1 S2].
    unfold exec, bind, ret in *.
    destruct (write isEncoding bufferFrom chunk encoding callback w)
      as [[b|e] w1]; auto.
  - intro Hs. unfold exec.
    destruct (resume_cases i r w) as [[_ Eq] | (c & Hn & Eq)]; rewrite Eq;
      [auto|].
    pose proof (filter_removeNth isWriteDone _ _ _ Hn) as Fw.
    destruct Hs as [Hw Hf]. unfold writesInFlight in Hf.
    assert (Hs' : stuck (with_pending (removeNth i (pending w)) w)).
    { split; [exact Hw|]. unfold writesInFlight. simpl. lia. }
    destruct c; cbn [bodyOf]; cbn [isWriteDone countOf] in Fw.
    + exfalso. lia.
    + exact (stuck_finalDone r _ Hs').
    + exact (stuck_destroyDone callback r _ Hs').
    + exact (stuck_tick callback err _ Hs').
Qed.

(** X8.  A stream whose [writing] flag is set while no sink operation is
    outstanding stays so: no later call clears the flag, and no sink
    operation is ever called again. *)
Theorem stuck_stream_never_writes_again isEncoding bufferFrom toLowerCase
    (acts : list Action) (w : Writable) :
  stuck w ->
  stuck (run isEncoding bufferFrom toLowerCase acts w)
  /\ sinkCalls (trace (run isEncoding bufferFrom toLowerCase acts w))
     = sinkCalls (trace w).
Proof.
  revert w. induction acts as [|a acts IH]; intros w Hs; simpl; [auto|].
  destruct (stuck_step isEncoding bufferFrom toLowerCase a w Hs) as [S1 S2].
  destruct (IH _ S1) as [S3 S4]. split; [exact S3|congruence].
Qed.

(** Two ways into that state: [uncork] on a stream without sinks, and a
    failed sink operation completing on a stream that destroys itself on
    error and is destroyed already. *)
Lemma stuck_is_reachable :
  stuck (runUtf8 [AUncork] (construct defaultOptions))
  /\ stuck stuckAfterFailure
  /\ reachable utf8Only bytesOfString sameCase stuckAfterFailure.
Proof.
  repeat split; try (vm_compute; reflexivity).
  exists autoDestroying. eexists. reflexivity.
Qed.

Lemma stuck_stream_never_writes_again_witness :
  stuck stuckAfterFailure
  /\ sinkCalls
       (trace (runUtf8 [AWrite six VUndefined None; ACork; AUncork;
                        AResume 0 None]
                 stuckAfterFailure))
     = [CallWrite (zeros 6)].
Proof.
  assert (Hs : stuck stuckAfterFailure)
    by (split; vm_compute; reflexivity).
  split; [exact Hs|].
  exact (proj2 (stuck_stream_never_writes_again utf8Only bytesOfString
                  sameCase
                  [AWrite six VUndefined None; ACork; AUncork;
                   AResume 0 None]
                  stuckAfterFailure Hs)).
Defined.

(** ** Single calls *)

Lemma writeBuffer_result_is_writable (b : Buffer)
    (callback : option Callback) (w : Writable) (r : bool) :
  has_write w = true ->
  outcome (writeBuffer b callback) w = Ok r ->
  writable (exec (writeBuffer b callback) w) = r.
Proof.
  intros Hw. open_object w. simpl in Hw. subst. unfold writable.
  unfold_methods. unfold writableLength.
  split_cases; simpl; intro H; try discriminate; injection H as <-;
    rewrite ?andb_true_r, ?andb_false_r; reflexivity.
Qed.

(** X9.  Whenever [write] returns, what it returns is what the [writable]
    getter says right after the call. *)
Theorem write_returns_writable isEncoding bufferFrom
    (chunk encoding : Value) (callback : option Callback) (w : Writable)
    (r : bool) :
  outcome (write isEncoding bufferFrom chunk encoding callback) w = Ok r ->
  writable (exec (write isEncoding bufferFrom chunk encoding callback) w)
  = r.
Proof.
  unfold outcome, exec.
  destruct (write_cases isEncoding bufferFrom chunk encoding callback w)
    as [(_ & e & Eq) | (b & _ & Hw & Eq)]; rewrite Eq.
  - discriminate.
  - now apply writeBuffer_result_is_writable.
Qed.

Lemma write_returns_writable_witness :
  outcome (writeUtf8 six VUndefined None) afterSecondWrite = Ok false
  /\ writable (exec (writeUtf8 six VUndefined None) afterSecondWrite)
     = false.
Proof.
  assert (H : outcome (writeUtf8 six VUndefined None) afterSecondWrite
              = Ok false) by (vm_compute; reflexivity).
  split; [exact H|].
  exact (write_returns_writable utf8Only bytesOfString six VUndefined None
           afterSecondWrite false H).
Defined.

(** X10.  A write that is refused because the stream is ended or
    destroyed needs its callback: without one the call throws out of
    [process.nextTick] and leaves the stream as it was, with no error
    signal and nothing scheduled.  [end] passes no callback to its
    implicit write, so [end(chunk, ...)] on such a stream throws the same
    way and does not register its finish callback. *)
Theorem rejected_write_without_callback_throws isEncoding bufferFrom
    (w : Writable) (chunk encoding : Value) (b : Buffer) (e : Error) :
  acceptedChunk isEncoding bufferFrom w chunk encoding None = Some b ->
  snd (writeArgs (writableState w) encoding None) = None ->
  rejection (writableState w) = Some e ->
  write isEncoding bufferFrom chunk encoding None w
  = (Throw (TypeError "callback must be a function"), w)
  /\ forall callback,
      fst (endArgs chunk encoding callback) = (chunk, encoding) ->
      chunk <> VUndefined ->
      end_ isEncoding bufferFrom chunk encoding callback w
      = (Throw (TypeError "callback must be a function"), w).
Proof.
  intros Ha Hc Hr. destruct (accepted_write _ _ _ _ _ _ _ Ha) as [Hw Eq].
  assert (Ew : write isEncoding bufferFrom chunk encoding None w
               = (Throw (TypeError "callback must be a function"), w)).
  { rewrite Eq, Hc. clear Eq Hc Ha. unfold rejection in Hr.
    destruct w as [s hw hwv fi di fl pd tr].
    destruct s as [de ec ad hwm d en fin c wr nd biq bufs cbs bc cbufs ccbs].
    simpl in *. destruct en; [|destruct d; [|discriminate]]; reflexivity. }
  split; [exact Ew|].
  intros callback Hargs Hu. rewrite end_cases. cbv zeta. rewrite Hargs.
  cbn [fst snd]. rewrite Ew. destruct chunk; try reflexivity. congruence.
Qed.

Lemma rejected_write_without_callback_throws_witness :
  acceptedChunk utf8Only bytesOfString finalizing six VUndefined None
  = Some (zeros 6)
  /\ end_ utf8Only bytesOfString six VUndefined (Some 3%nat) finalizing
     = (Throw (TypeError "callback must be a function"), finalizing).
Proof.
  split; [vm_compute; reflexivity|].
  refine (proj2 (rejected_write_without_callback_throws utf8Only
                   bytesOfString finalizing six VUndefined (zeros 6)
                   StreamWriteAfterEndError _ _ _) (Some 3%nat) _ _);
    try (vm_compute; reflexivity).
  discriminate.
Defined.

(** ** The default encoding *)

Ltac close_encoding w :=
  unfold sameEncoding; open_object w; unfold_methods;
  unfold writableLength; split_cases; reflexivity.

Lemma sameEncoding_writeBuffer b callback (w : Writable) :
  sameEncoding w (exec (writeBuffer b callback) w).
Proof. close_encoding w. Qed.

Lemma sameEncoding_write isEncoding bufferFrom chunk encoding callback
    (w : Writable) :
  sameEncoding w
    (exec (write isEncoding bufferFrom chunk encoding callback) w).
Proof.
  unfold exec.
  destruct (write_cases isEncoding bufferFrom chunk encoding callback w)
    as [(_ & e & Eq) | (b & _ & _ & Eq)]; rewrite Eq.
  - reflexivity.
  - apply sameEncoding_writeBuffer.
Qed.

Lemma sameEncoding_markEnded callback (w : Writable) :
  sameEncoding w (markEnded callback w).
Proof. unfold sameEncoding, markEnded. destruct callback; reflexivity. Qed.

Lemma sameEncoding_uncork (w : Writable) : sameEncoding w (exec uncork w).
Proof.
  unfold sameEncoding. destruct w as [s hw hwv fi di fl pd tr].
  destruct s as [de ec ad hwm d en fin c wr nd biq bufs cbs bc cbufs ccbs].
  destruct c as [|[|c]], wr, hw, hwv; reflexivity.
Qed.

Lemma sameEncoding_destroy error callback (w : Writable) :
  sameEncoding w (exec (destroy error callback) w).
Proof. destruct error; close_encoding w. Qed.

Lemma sameEncoding_body (c : Closure) (r : option Error) (w : Writable) :
  sameEncoding w (exec (bodyOf c r) w).
Proof. destruct c; cbn [bodyOf]; close_encoding w. Qed.

Section Encoding.

Variable isEncoding : string -> bool.
Variable bufferFrom : string -> string -> Buffer.
Variable toLowerCase : string -> string.

Lemma valid_encoding_step (a : Action) (w : Writable) :
  isEncoding (defaultEncoding (writableState w)) = true ->
  isEncoding
    (defaultEncoding
       (writableState (step isEncoding bufferFrom toLowerCase w a))) = true.
Proof.
  intro H. unfold step. destruct a; cbn [perform].
  - exact H.
  - now rewrite sameEncoding_uncork.
  - now rewrite sameEncoding_destroy.
  - unfold setDefaultEncoding, exec. destruct encoding; try exact H.
    destruct (isEncoding (toLowerCase s)) eqn:E; [exact E|exact H].
  - unfold exec. rewrite end_cases. cbv zeta.
    assert (Hc : forall c,
      isEncoding (defaultEncoding (writableState
        (snd match write isEncoding bufferFrom c
                     (snd (fst (endArgs chunk encoding callback))) None w
             with
             | (Ok _, w1) =>
                 (Ok tt, markEnded (snd (endArgs chunk encoding callback)) w1)
             | (Throw err, w1) => (Throw err, w1)
             end))) = true).
    { intro c.
      pose proof (sameEncoding_write isEncoding bufferFrom c
                    (snd (fst (endArgs chunk encoding callback))) None w)
        as Hw.
      unfold exec, sameEncoding in Hw.
      destruct (write isEncoding bufferFrom c
                  (snd (fst (endArgs chunk encoding callback))) None w)
        as [[b|err] w1]; simpl in *;
        rewrite ?sameEncoding_markEnded, Hw; exact H. }
    destruct (fst (fst (endArgs chunk encoding callback))); try apply Hc.
    simpl. now rewrite sameEncoding_markEnded.
  - pose proof (sameEncoding_write isEncoding bufferFrom chunk encoding
                  callback w) as Hw.
    unfold exec, bind, ret, sameEncoding in *.
    destruct (write isEncoding bufferFrom chunk encoding callback w)
      as [[b|e] w1]; simpl in *; now rewrite Hw.
  - unfold exec.
    destruct (resume_cases i r w) as [[_ Eq] | (c & _ & Eq)]; rewrite Eq;
      [exact H|].
    pose proof (sameEncoding_body c r
                  (with_pending (removeNth i (pending w)) w)) as Hb.
    unfold sameEncoding, exec in Hb. now rewrite Hb.
Qed.

Lemma valid_encoding_run (acts : list Action) (w : Writable) :
  isEncoding (defaultEncoding (writableState w)) = true ->
  isEncoding
    (defaultEncoding
       (writableState (run isEncoding bufferFrom toLowerCase acts w)))
  = true.
Proof.
  revert w. induction acts as [|a acts IH]; intros w H; simpl; [exact H|].
  apply IH, valid_encoding_step, H.
Qed.

(** X11.  The default encoding stays valid: on a stream constructed with a
    write sink and a default encoding the runtime knows, after any run a
    write of a buffer or a string without an encoding passes the checks,
    so it does not throw at them.  On any stream whose default encoding
    the runtime does not know, every such write throws the
    unknown-encoding error, for a buffer too. *)
Theorem default_encoding_stays_valid (o : Options) (acts : list Action) :
  isEncoding (opt_defaultEncoding o) = true ->
  opt_write o = true ->
  let w := run isEncoding bufferFrom toLowerCase acts (construct o) in
  isEncoding (defaultEncoding (writableState w)) = true
  /\ (forall b callback,
         acceptedChunk isEncoding bufferFrom w (VBuffer b) VUndefined callback
         = Some b)
  /\ (forall s callback,
         acceptedChunk isEncoding bufferFrom w (VString s) VUndefined callback
         = Some (bufferFrom s (defaultEncoding (writableState w))))
  /\ (forall (w' : Writable) chunk callback,
         isEncoding (defaultEncoding (writableState w')) = false ->
         write isEncoding bufferFrom chunk VUndefined callback w'
         = (Throw UnknownEncodingError, w')).
Proof.
  intros He Hw. cbv zeta.
  pose proof (valid_encoding_run acts (construct o) He) as Hv.
  destruct (law_run isEncoding bufferFrom toLowerCase acts (construct o)
              (Inv_construct o) (Inv2_construct o)) as [C _ _ _ _].
  destruct C as (_ & _ & _ & Chw & _).
  set (w := run isEncoding bufferFrom toLowerCase acts (construct o)) in *.
  simpl in Chw. rewrite Hw in Chw.
  split; [exact Hv|]. split; [|split].
  - intros b callback. unfold acceptedChunk, writeArgs, writeChunk.
    simpl. now rewrite Hv, Chw.
  - intros s callback. unfold acceptedChunk, writeArgs, writeChunk.
    simpl. now rewrite Hv, Chw.
  - intros w' chunk callback Hn. unfold write, bind, getThis, writeArgs,
      writeChunk. simpl. now rewrite Hn.
Qed.

End Encoding.

Lemma default_encoding_stays_valid_witness :
  utf8Only (opt_defaultEncoding bothSinks) = true
  /\ acceptedChunk utf8Only bytesOfString secondDispatched (VBuffer (zeros 2))
       VUndefined None = Some (zeros 2).
Proof.
  split; [reflexivity|].
  exact (proj1 (proj2 (default_encoding_stays_valid utf8Only bytesOfString
                         sameCase bothSinks
                         [AWrite one VUndefined None;
                          AWrite six VUndefined None; AResume 0 None]
                         eq_refl eq_refl)) (zeros 2) None).
Defined.

(** ** Nested corking *)

Lemma uncork_cork (w : Writable) :
  writing (writableState w) = true ->
  (corked (writableState w) = 0%nat ->
   corkedBuffers (writableState w) = []
   /\ corkedCallbacks (writableState w) = []
   /\ bytesCorked (writableState w) = 0) ->
  exec uncork (exec cork w) = w.
Proof.
  intros Hw Hc. destruct w as [s hw hwv fi di fl pd tr].
  destruct s as [de ec ad hwm d en fin c wr nd biq bufs cbs bc cbufs ccbs].
  simpl in *. subst. destruct c as [|c].
  - destruct (Hc eq_refl) as (-> & -> & ->).
    unfold exec, uncork, cork, bind, modify, getState, ret, with_state.
    simpl. rewrite !app_nil_r, Z.add_0_r. reflexivity.
  - reflexivity.
Qed.

(** X12.  Corking nests: while a sink operation is in flight, [n] calls of
    [cork] followed by [n] calls of [uncork] leave the stream exactly as it
    was, and in between the depth is [n] more than before. *)
Theorem cork_uncork_balanced isEncoding bufferFrom toLowerCase
    (w : Writable) (n : nat) :
  reachable isEncoding bufferFrom toLowerCase w ->
  writing (writableState w) = true ->
  times n uncork (times n cork w) = w
  /\ writableCorked (times n cork w) = (writableCorked w + n)%nat
  /\ trace (times n cork w) = trace w.
Proof.
  intros Hr Hw.
  destruct (Inv_reachable _ _ _ w Hr) as [_ Hbc Hu _ _ _ _ _ _].
  destruct (Inv2_reachable _ _ _ w Hr) as [_ _ _ Hu2 _ _ _ _].
  assert (Hc : corked (writableState w) = 0%nat ->
               corkedBuffers (writableState w) = []
               /\ corkedCallbacks (writableState w) = []
               /\ bytesCorked (writableState w) = 0).
  { intro Hz. specialize (Hu Hz). rewrite Hbc, Hu. auto. }
  clear Hr Hbc Hu Hu2. unfold times, writableCorked.
  split; [|split].
  - revert w Hw Hc. induction n as [|n IH]; intros w Hw Hc;
      [reflexivity|].
    rewrite (Nat.iter_succ_r n Writable (exec cork) w).
    change (Nat.iter (S n) (exec uncork)
              (Nat.iter n (exec cork) (exec cork w)))
      with (exec uncork
              (Nat.iter n (exec uncork)
                 (Nat.iter n (exec cork) (exec cork w)))).
    rewrite IH.
    + apply uncork_cork; assumption.
    + exact Hw.
    + simpl. discriminate.
  - induction n as [|n IH]; cbn [Nat.iter];
      [now rewrite Nat.add_0_r|].
    change (S (corked (writableState (Nat.iter n (exec cork) w)))
            = (corked (writableState w) + S n)%nat).
    rewrite IH. lia.
  - induction n as [|n IH]; cbn [Nat.iter]; [reflexivity|].
    exact IH.
Qed.

Lemma cork_uncork_balanced_witness :
  reachable utf8Only bytesOfString sameCase afterSecondWrite
  /\ writing (writableState afterSecondWrite) = true
  /\ times 3 uncork (times 3 cork afterSecondWrite) = afterSecondWrite.
Proof.
  assert (Hr : reachable utf8Only bytesOfString sameCase afterSecondWrite).
  { exists writeOnly. eexists. reflexivity. }
  split; [exact Hr|]. split; [reflexivity|].
  exact (proj1 (cork_uncork_balanced utf8Only bytesOfString sameCase
                  afterSecondWrite 3 Hr eq_refl)).
Defined.
(** ** Byte accounting over a run *)

Lemma byteLength_app (a b : Buffer) :
  byteLength (a ++ b) = byteLength a + byteLength b.
Proof. unfold byteLength. rewrite length_app. lia. Qed.

Lemma byteLength_concat (l : list Buffer) :
  byteLength (bufferConcat l) = totalLength l.
Proof.
  induction l as [|b l IH]; [reflexivity|].
  cbn [bufferConcat List.concat totalLength fold_right].
  change (List.concat l) with (bufferConcat l).
  change (fold_right (fun b acc => byteLength b + acc) 0 l)
    with (totalLength l).
  rewrite byteLength_app, IH. reflexivity.
Qed.

(** C4, amended: after any run from a new stream each counter is the byte
    length of its queue, and the two queues hold exactly the bytes that
    [write] accepted and that no sink call has been given: the accepted
    bytes are those of the sink calls followed by those of the pending and
    the corked queue.  So the sum of the counters is the length of what was
    accepted less the length of what was handed to the sink; chunks in
    flight are not counted. *)
Theorem counters_match_queues isEncoding bufferFrom toLowerCase
    (o : Options) (acts : list Action) :
  let w := run isEncoding bufferFrom toLowerCase acts (construct o) in
  let accepted :=
    acceptedStream isEncoding bufferFrom toLowerCase acts (construct o) in
  bytesInQueue (writableState w) = totalLength (buffers (writableState w))
  /\ bytesCorked (writableState w)
     = totalLength (corkedBuffers (writableState w))
  /\ bytesInQueue (writableState w) + bytesCorked (writableState w)
     = totalLength (undispatched w)
  /\ accepted = sinkStream (trace w) ++ bufferConcat (undispatched w)
  /\ bytesInQueue (writableState w) + bytesCorked (writableState w)
     = byteLength accepted - byteLength (sinkStream (trace w)).
Proof.
  cbv zeta.
  assert (Hr : reachable isEncoding bufferFrom toLowerCase
                 (run isEncoding bufferFrom toLowerCase acts (construct o)))
    by (exists o, acts; reflexivity).
  destruct (Inv_reachable _ _ _ _ Hr) as [Hq Hc Hu Hfe Hfd Hfc Hff Ht Htd].
  destruct (law_run isEncoding bufferFrom toLowerCase acts (construct o)
              (Inv_construct o) (Inv2_construct o)) as [_ _ S _ _].
  simpl in S. unfold queuedStream in S.
  assert (Hsum : bytesInQueue
                   (writableState
                      (run isEncoding bufferFrom toLowerCase acts
                         (construct o)))
                 + bytesCorked
                     (writableState
                        (run isEncoding bufferFrom toLowerCase acts
                           (construct o)))
                 = totalLength
                     (undispatched
                        (run isEncoding bufferFrom toLowerCase acts
                           (construct o)))).
  { unfold undispatched. rewrite totalLength_app. lia. }
  split; [exact Hq|]. split; [exact Hc|]. split; [exact Hsum|].
  split; [symmetry; exact S|].
  rewrite <- S, byteLength_app, byteLength_concat. lia.
Qed.

Lemma counters_match_queues_witness :
  bytesInQueue (writableState afterSecondWrite)
  + bytesCorked (writableState afterSecondWrite)
  = byteLength
      (acceptedStream utf8Only bytesOfString sameCase
         [AWrite six VUndefined None; AWrite six VUndefined None]
         (construct writeOnly))
    - byteLength (sinkStream (trace afterSecondWrite))
  /\ byteLength
       (acceptedStream utf8Only bytesOfString sameCase
          [AWrite six VUndefined None; AWrite six VUndefined None]
          (construct writeOnly)) = 12
  /\ byteLength (sinkStream (trace afterSecondWrite)) = 6.
Proof.
  split; [|split; vm_compute; reflexivity].
  exact (proj2 (proj2 (proj2 (proj2
           (counters_match_queues utf8Only bytesOfString sameCase writeOnly
              [AWrite six VUndefined None; AWrite six VUndefined None]))))).
Defined.

(** ** Uncork and the [writing] flag *)

(** While the [writing] flag is set, [uncork] calls no sink. *)
Lemma uncork_while_writing (w : Writable) :
  writing (writableState w) = true ->
  outcome uncork w = Ok tt /\ trace (exec uncork w) = trace w.
Proof.
  intro Hw. destruct w as [s hw hwv fi di fl pd tr].
  destruct s as [de ec ad hwm d en fin c wr nd biq bufs cbs bc cbufs ccbs].
  simpl in *. subst. destruct c as [|[|c]]; split; reflexivity.
Qed.

(** The flag does not say that an operation is in flight: on the stream
    left by a failed completion whose automatic destroy threw, nothing is
    in flight, the depth is zero, both queues are empty and both sink
    operations exist, and [uncork] calls neither. *)
Lemma uncork_on_stuck_stream_dispatches_nothing :
  reachable utf8Only bytesOfString sameCase stuckAfterFailure
  /\ writesInFlight stuckAfterFailure = 0%nat
  /\ writing (writableState stuckAfterFailure) = true
  /\ corked (writableState stuckAfterFailure) = 0%nat
  /\ buffers (writableState stuckAfterFailure) = []
  /\ corkedBuffers (writableState stuckAfterFailure) = []
  /\ has_write stuckAfterFailure && has_writev stuckAfterFailure = true
  /\ uncork stuckAfterFailure = (Ok tt, stuckAfterFailure).
Proof.
  split; [exists autoDestroying; eexists; reflexivity|].
  do 6 (split; [vm_compute; reflexivity|]).
  vm_compute. reflexivity.
Qed.

(** C10, amended: when [uncork] brings the depth to zero while the corked
    queue and the pending queue are both empty, the [writing] flag is clear
    and a sink operation exists, the sink is still called, with an empty
    batch: the multi-block operation with an empty list or, without that
    operation, the single-block operation with a zero-length block.  In a
    reachable state a clear flag means that no sink operation is in
    flight; while the flag is set, whether an operation is in flight or
    not, [uncork] calls no sink. *)
Theorem uncork_dispatches_empty_batch isEncoding bufferFrom toLowerCase
    (w : Writable) :
  (corked (writableState w) <= 1)%nat ->
  corkedBuffers (writableState w) = [] ->
  buffers (writableState w) = [] ->
  has_write w || has_writev w = true ->
  (writing (writableState w) = false ->
   outcome uncork w = Ok tt
   /\ trace (exec uncork w)
      = trace w ++ [if has_writev w then CallWritev [] else CallWrite []]
   /\ writing (writableState (exec uncork w)) = true)
  /\ (writing (writableState w) = true ->
      outcome uncork w = Ok tt /\ trace (exec uncork w) = trace w)
  /\ (reachable isEncoding bufferFrom toLowerCase w ->
      writing (writableState w) = false -> writesInFlight w = 0%nat).
Proof.
  intros Hc Hcb Hb Hs. split; [|split].
  - intro Hwr.
    destruct (uncork_dispatches w Hwr Hc Hs) as (Ho & Ht & _ & Hw).
    rewrite Hb, Hcb in Ht. split; [exact Ho|]. split; [exact Ht|exact Hw].
  - apply uncork_while_writing.
  - intros Hr Hwr.
    destruct (Inv2_reachable _ _ _ w Hr) as [_ H2 _ _ _ _ _ _].
    exact (H2 Hwr).
Qed.

Lemma uncork_dispatches_empty_batch_witness :
  (corked (writableState (construct writeOnly)) <= 1)%nat
  /\ trace (exec uncork (construct writeOnly)) = [CallWrite []]
  /\ trace (exec uncork (construct bothSinks)) = [CallWritev []]
  /\ trace (exec uncork stuckAfterFailure) = trace stuckAfterFailure.
Proof.
  split; [apply Nat.le_0_l|]. split; [|split].
  - exact (proj1 (proj2 (proj1
             (uncork_dispatches_empty_batch utf8Only bytesOfString sameCase
                (construct writeOnly)
                (Nat.le_0_l 1) eq_refl eq_refl eq_refl) eq_refl))).
  - exact (proj1 (proj2 (proj1
             (uncork_dispatches_empty_batch utf8Only bytesOfString sameCase
                (construct bothSinks)
                (Nat.le_0_l 1) eq_refl eq_refl eq_refl) eq_refl))).
  - assert (Hc : (corked (writableState stuckAfterFailure) <= 1)%nat)
      by (vm_compute; apply Nat.le_0_l).
    assert (Hcb : corkedBuffers (writableState stuckAfterFailure) = [])
      by (vm_compute; reflexivity).
    assert (Hb : buffers (writableState stuckAfterFailure) = [])
      by (vm_compute; reflexivity).
    assert (Hs : has_write stuckAfterFailure || has_writev stuckAfterFailure
                 = true)
      by (vm_compute; reflexivity).
    assert (Hw : writing (writableState stuckAfterFailure) = true)
      by (vm_compute; reflexivity).
    exact (proj2 (proj1 (proj2
             (uncork_dispatches_empty_batch utf8Only bytesOfString sameCase
                stuckAfterFailure Hc Hcb Hb Hs)) Hw)).
Defined.

(** * Further properties of the file stream *)

Module FileFacts.
Import FileStream.

Ltac open_file f := destruct f; simpl in *.

Lemma filter_one {A} (p : A -> bool) (l : list A) (x : A) :
  filter p (l ++ [x]) = filter p l ++ (if p x then [x] else []).
Proof. rewrite filter_app. simpl. now destruct (p x). Qed.

Lemma closeFile_dead err callback f :
  dead f ->
  dead (closeFile err callback f)
  /\ issued (closeFile err callback f) = issued f.
Proof.
  unfold dead, issued, closeFile. intros [Hfd Ho]. rewrite Hfd.
  destruct callback; simpl; [|auto].
  unfold keep. simpl. rewrite filter_one. simpl. rewrite app_nil_r. auto.
Qed.

Lemma filter_removeNth_nil {A} (p : A -> bool) (l : list A) (i : nat) :
  filter p l = [] -> filter p (removeNth i l) = [].
Proof.
  unfold removeNth. revert i.
  induction l as [|a l IH]; intros i H.
  - destruct i; reflexivity.
  - simpl in H. destruct (p a) eqn:E; [discriminate|].
    destruct i as [|i]; simpl.
    + exact H.
    + rewrite E. apply IH, H.
Qed.

Lemma nth_error_filter_nil {A} (p : A -> bool) (l : list A) (i : nat)
    (c : A) :
  filter p l = [] -> nth_error l i = Some c -> p c = false.
Proof.
  intros H Hn. apply nth_error_In in Hn.
  destruct (p c) eqn:E; [|reflexivity].
  assert (Hin : In c (filter p l)) by (apply filter_In; auto).
  rewrite H in Hin. contradiction.
Qed.

Lemma dead_step (a : FileAction) f :
  dead f -> dead (fileStep f a) /\ issued (fileStep f a) = issued f.
Proof.
  intro Hd. destruct a; simpl.
  - destruct Hd as [Hfd Ho]. unfold dead, issued, _write. rewrite Hfd.
    simpl. auto.
  - destruct Hd as [Hfd Ho]. unfold dead, issued, _writev. rewrite Hfd.
    simpl. auto.
  - now apply closeFile_dead.
  - unfold _final. destruct (autoClose f); [now apply closeFile_dead|auto].
  - unfold raiseError.
    assert (Hn : dead (note (Raise "error" (Some e)) f)
                 /\ issued (note (Raise "error" (Some e)) f) = issued f).
    { destruct Hd as [Hfd Ho]. unfold dead, issued, note. simpl.
      rewrite filter_one. simpl. rewrite app_nil_r. auto. }
    destruct Hn as [Hn1 Hn2].
    change (autoClose (note (Raise "error" (Some e)) f))
      with (autoClose f).
    destruct (autoClose f); [|auto].
    destruct (closeFile_dead (Some e) None _ Hn1) as [H1 H2].
    split; [exact H1|congruence].
  - destruct Hd as [Hfd Ho]. unfold resume, resumed.
    destruct (nth_error (outstanding f) i) as [c|] eqn:Hn;
      [|unfold dead; auto].
    pose proof (nth_error_filter_nil _ _ _ _ Ho Hn) as Hc.
    pose proof (filter_removeNth_nil isOpenCb _ i Ho) as Hr.
    destruct c; try discriminate; cbn [snd].
    + unfold dead, issued, closeCb, callIf, note.
      destruct callback; simpl; rewrite ?filter_app; simpl;
        rewrite ?app_nil_r; auto.
    + unfold dead, issued, writeCb, callIf, note.
      destruct r, callback; simpl; rewrite ?filter_app; simpl;
        rewrite ?app_nil_r; auto.
    + unfold dead, issued, note. simpl. rewrite filter_app. simpl.
      rewrite app_nil_r. auto.
Qed.

(** X13.  A file stream without a descriptor and without an outstanding
    [open] is dead: whatever is called afterwards, no request is made to
    [fs] again and the stream stays without a descriptor, so the writes it
    holds and every later write are never issued. *)
Theorem dead_file_stays_dead (acts : list FileAction) f :
  dead f ->
  dead (fileRun acts f) /\ issued (fileRun acts f) = issued f.
Proof.
  revert f. induction acts as [|a acts IH]; intros f Hd; simpl; [auto|].
  destruct (dead_step a f Hd) as [H1 H2].
  destruct (IH _ H1) as [H3 H4]. split; [exact H3|congruence].
Qed.

Lemma dead_file_stays_dead_witness :
  dead (resume 0 (Failed (SinkError 2))
          (openFile "w" 438
             (mkFile None "out.bin" 0 false 0 true true [] [] [])))
  /\ issued
       (fileRun [FWrite (zeros 6) (Some 1%nat); FFinal None;
                 FResume 0 (Done 0)]
          (resume 0 (Failed (SinkError 2))
             (openFile "w" 438
                (mkFile None "out.bin" 0 false 0 true true [] [] []))))
     = [Issue (FsOpen "out.bin" "w" 438)].
Proof.
  assert (Hd : dead (resume 0 (Failed (SinkError 2))
                       (openFile "w" 438
                          (mkFile None "out.bin" 0 false 0 true true
                             [] [] []))))
    by (split; reflexivity).
  split; [exact Hd|].
  exact (proj2 (dead_file_stays_dead
                  [FWrite (zeros 6) (Some 1%nat); FFinal None;
                   FResume 0 (Done 0)] _ Hd)).
Defined.

(** What a sink operation does while the file is not open: nothing but
    hold its data and callback. *)
Lemma held_effect (ops : list SinkOp) f :
  fd f = None ->
  let held := fold_left (fun f op => sink op f) ops f in
  fd held = None
  /\ log held = log f
  /\ outstanding held = outstanding f
  /\ start held = start f
  /\ bytesWritten held = bytesWritten f
  /\ openListeners held = openListeners f ++ map heldData ops.
Proof.
  revert f. induction ops as [|op ops IH]; intros f Hfd.
  - simpl. rewrite app_nil_r. repeat split; auto.
  - cbn [fold_left].
    assert (E : sink op f
                = with_openListeners (openListeners f ++ [heldData op]) f).
    { destruct op; unfold sink, _write, _writev; now rewrite Hfd. }
    rewrite E.
    destruct (IH (with_openListeners (openListeners f ++ [heldData op]) f)
                Hfd) as (H1 & H2 & H3 & H4 & H5 & H6).
    cbv zeta in *. rewrite H1, H2, H3, H4, H5, H6. simpl.
    rewrite <- app_assoc. repeat split; reflexivity.
Qed.

(** What [emit('open')] does with held single-block writes: each is
    removed from the listeners and issued, in the order held, on the new
    descriptor; then the listeners after them have their turn. *)
Lemma emitOpen_singles (singles : list (Buffer * option Callback))
    (tail : list (Data * option Callback)) f (d : Z) :
  fd f = Some d ->
  openListeners f = map (fun c => heldData (single c)) singles ++ tail ->
  exists g,
    emitOpen (map (fun c => heldData (single c)) singles ++ tail) f
    = emitOpen tail g
    /\ fd g = Some d
    /\ start g = start f
    /\ bytesWritten g = bytesWritten f
    /\ openListeners g = tail
    /\ outstanding g
       = outstanding f ++ map (fun c => WriteCb (snd c)) singles
    /\ log g = log f ++ map (fun c => heldRequest d f (fst c)) singles.
Proof.
  revert f. induction singles as [|c singles IH]; intros f Hfd Hl.
  - exists f. simpl in *. rewrite !app_nil_r. repeat split; auto.
  - cbn [map app emitOpen]. unfold single at 1 2. cbn [heldData fst snd].
    unfold _write at 1. cbn [fd with_openListeners]. rewrite Hfd.
    set (f1 := keep (WriteCb (snd c))
                 (note (Issue
                          (FsWrite d (One (fst c)) 0
                             (dataLength (One (fst c)))
                             (numAdd
                                (start
                                   (with_openListeners
                                      (map (fun c => heldData (single c))
                                         singles ++ tail) f))
                                (bytesWritten
                                   (with_openListeners
                                      (map (fun c => heldData (single c))
                                         singles ++ tail) f)))))
                    (with_openListeners
                       (map (fun c => heldData (single c)) singles ++ tail)
                       f))).
    destruct (IH f1 Hfd eq_refl) as (g & E & G1 & G2 & G3 & G4 & G5 & G6).
    exists g. split; [exact E|].
    rewrite G5, G6. subst f1. simpl in *.
    rewrite <- !app_assoc. repeat split; auto.
Qed.

(** X14.  Writes made before the file is open are held.  When [open]
    reports the descriptor the held single-block writes are issued in the
    order they were made, every one through [fs.write] at
    [start + bytesWritten] as it is then.  A held multi-block write stops
    the replay: its listener hands the array to [fs.write], which throws,
    so that write and the held writes after it are not issued, the writes
    after it stay held, and [ready] is not raised. *)
Theorem held_writes_replayed_until_array
    (singles : list (Buffer * option Callback)) (tail : list SinkOp) f
    (d : Z) :
  fd f = None ->
  openListeners f = [] ->
  let ops := map single singles ++ tail in
  let held := fold_left (fun f op => sink op f) ops f in
  let requests := map (fun c => heldRequest d f (fst c)) singles in
  let callbacks := map (fun c => WriteCb (snd c)) singles in
  let f' := snd (openCb (Done d) held) in
  log held = log f
  /\ openListeners held = map heldData ops
  /\ (tail = [] ->
      fst (openCb (Done d) held) = Ok tt
      /\ log f'
         = log f ++ [Raise "open" None] ++ requests ++ [Raise "ready" None]
      /\ outstanding f' = outstanding f ++ callbacks
      /\ openListeners f' = []
      /\ fd f' = Some d)
  /\ (forall data callback rest,
         tail = Multi data callback :: rest ->
         fst (openCb (Done d) held) = Throw notABuffer
         /\ log f' = log f ++ [Raise "open" None] ++ requests
         /\ outstanding f' = outstanding f ++ callbacks
         /\ openListeners f' = map heldData rest
         /\ fd f' = Some d).
Proof.
  intros Hfd Hl. cbv zeta.
  destruct (held_effect (map single singles ++ tail) f Hfd)
    as (H1 & H2 & H3 & H4 & H5 & H6).
  cbv zeta in *. rewrite Hl in H6. cbn [app] in H6.
  set (held := fold_left (fun f op => sink op f)
                 (map single singles ++ tail) f) in *.
  split; [exact H2|]. split; [exact H6|].
  unfold openCb.
  set (g := note (Raise "open" None)
              (with_pendingOpen false (with_fd (Some d) held))).
  assert (Hg : openListeners g
               = map (fun c => heldData (single c)) singles
                 ++ map heldData tail).
  { subst g. cbn [openListeners note with_log with_pendingOpen with_fd].
    rewrite H6, map_app, map_map. reflexivity. }
  destruct (emitOpen_singles singles (map heldData tail) g d eq_refl Hg)
    as (g1 & E & G1 & G2 & G3 & G4 & G5 & G6).
  rewrite Hg, E.
  assert (Hreq : map (fun c => heldRequest d g (fst c)) singles
                 = map (fun c => heldRequest d f (fst c)) singles).
  { apply map_ext. intro c. unfold heldRequest. subst g. simpl.
    now rewrite H4, H5. }
  rewrite Hreq in G6.
  assert (Hlog : log g = log f ++ [Raise "open" None]).
  { subst g. simpl. now rewrite H2. }
  assert (Hout : outstanding g = outstanding f).
  { subst g. simpl. exact H3. }
  rewrite Hlog in G6. rewrite Hout in G5.
  split.
  - intros ->. cbn [map emitOpen snd fst].
    cbn [log outstanding openListeners fd note with_log].
    rewrite G1, G4, G5, G6, <- !app_assoc.
    repeat split; reflexivity.
  - intros data callback rest ->.
    cbn [map emitOpen heldData fst snd]. unfold _write.
    cbn [fd with_openListeners]. rewrite G1. cbn [snd fst].
    cbn [fd outstanding log openListeners with_openListeners].
    rewrite G1, G5, G6, <- !app_assoc.
    repeat split; reflexivity.
Qed.

Lemma held_writes_replayed_until_array_witness :
  fd (mkFile None "out.bin" 100 false 0 true true [] [OpenCb] []) = None
  /\ fst (openCb (Done 3)
            (fold_left (fun f op => sink op f)
               [Single (zeros 6) None; Multi [zeros 1; zeros 2] None;
                Single (zeros 1) (Some 4%nat)]
               (mkFile None "out.bin" 100 false 0 true true [] [OpenCb]
                  [])))
     = Throw notABuffer
  /\ log (snd (openCb (Done 3)
                 (fold_left (fun f op => sink op f)
                    [Single (zeros 6) None; Multi [zeros 1; zeros 2] None;
                     Single (zeros 1) (Some 4%nat)]
                    (mkFile None "out.bin" 100 false 0 true true []
                       [OpenCb] []))))
     = [Raise "open" None; Issue (FsWrite 3 (One (zeros 6)) 0 6 100)]
  /\ openListeners
       (snd (openCb (Done 3)
               (fold_left (fun f op => sink op f)
                  [Single (zeros 6) None; Multi [zeros 1; zeros 2] None;
                   Single (zeros 1) (Some 4%nat)]
                  (mkFile None "out.bin" 100 false 0 true true []
                     [OpenCb] []))))
     = [(One (zeros 1), Some 4%nat)]
  /\ log (snd (openCb (Done 3)
                 (fold_left (fun f op => sink op f)
                    [Single (zeros 6) None; Single (zeros 2) None]
                    (mkFile None "out.bin" 100 false 0 true true []
                       [OpenCb] []))))
     = [Raise "open" None;
        Issue (FsWrite 3 (One (zeros 6)) 0 6 100);
        Issue (FsWrite 3 (One (zeros 2)) 0 2 100);
        Raise "ready" None].
Proof.
  split; [reflexivity|].
  destruct (proj2 (proj2 (proj2
              (held_writes_replayed_until_array
                 [(zeros 6, None)]
                 [Multi [zeros 1; zeros 2] None;
                  Single (zeros 1) (Some 4%nat)]
                 (mkFile None "out.bin" 100 false 0 true true []
                    [OpenCb] [])
                 3 eq_refl eq_refl)))
              [zeros 1; zeros 2] None [Single (zeros 1) (Some 4%nat)]
              eq_refl) as (A & B & _ & D & _).
  split; [exact A|]. split; [exact B|]. split; [exact D|].
  exact (proj1 (proj2 (proj1 (proj2 (proj2
           (held_writes_replayed_until_array
              [(zeros 6, None); (zeros 2, None)] []
              (mkFile None "out.bin" 100 false 0 true true []
                 [OpenCb] [])
              3 eq_refl eq_refl))) eq_refl))).
Defined.

(** ** The invariant of the file stream *)

Lemma FileInv_ext f g :
  outstanding g = outstanding f -> fd g = fd f -> closed g = closed f ->
  start g = start f ->
  FileInv f -> FileInv g.
Proof.
  intros Ho Hfd Hc Hs [H1 H2 H3 H4 H5].
  constructor; unfold dead in *; rewrite ?Ho, ?Hfd, ?Hc, ?Hs; auto.
Qed.

Lemma FileInv_note e f : FileInv f -> FileInv (note e f).
Proof. now apply FileInv_ext. Qed.

Lemma FileInv_callIf callback err f : FileInv f -> FileInv (callIf callback err f).
Proof. unfold callIf. destruct callback; [apply FileInv_note|auto]. Qed.

Lemma FileInv_keep c f :
  isOpenCb c = false ->
  (isCloseCb c = true -> filter isOpenCb (outstanding f) = []) ->
  FileInv f -> FileInv (keep c f).
Proof.
  intros Hc Hcl [H1 H2 H3 H4 H5].
  constructor; unfold dead, keep in *; simpl; rewrite ?filter_one, ?Hc;
    simpl; rewrite ?app_nil_r; auto.
  destruct (isCloseCb c) eqn:E; [auto|].
  rewrite app_nil_r. auto.
Qed.

Lemma FileInv_closeFile err callback f :
  FileInv f -> FileInv (closeFile err callback f).
Proof.
  intro H. unfold closeFile. destruct (fd f) as [d|] eqn:Hfd.
  - apply FileInv_keep; [reflexivity| |now apply FileInv_note].
    intros _. destruct H as [_ H2 _ _ _]. simpl. apply H2. congruence.
  - destruct callback; [|exact H].
    apply FileInv_keep; [reflexivity|discriminate|exact H].
Qed.

Lemma FileInv_raiseError e f : FileInv f -> FileInv (raiseError e f).
Proof.
  intro H. unfold raiseError.
  change (autoClose (note (Raise "error" (Some e)) f)) with (autoClose f).
  destruct (autoClose f); [apply FileInv_closeFile|]; now apply FileInv_note.
Qed.

Lemma FileInv_write data callback f :
  FileInv f -> FileInv (snd (_write data callback f)).
Proof.
  intro H. unfold _write. destruct (fd f).
  - destruct data; cbn [snd]; [|exact H].
    apply FileInv_keep; [reflexivity|discriminate|now apply FileInv_note].
  - now apply (FileInv_ext f).
Qed.

Lemma FileInv_writev data callback f :
  FileInv f -> FileInv (_writev data callback f).
Proof.
  intro H. unfold _writev. destruct (fd f).
  - apply FileInv_keep; [reflexivity|discriminate|now apply FileInv_note].
  - now apply (FileInv_ext f).
Qed.

Lemma FileInv_emitOpen (listeners : list (Data * option Callback)) f :
  FileInv f -> FileInv (snd (emitOpen listeners f)).
Proof.
  revert f. induction listeners as [|l listeners IH]; intros f H;
    [exact H|].
  cbn [emitOpen].
  assert (H1 : FileInv (with_openListeners listeners f))
    by now apply (FileInv_ext f).
  pose proof (FileInv_write (fst l) (snd l) _ H1) as H2.
  destruct (_write (fst l) (snd l) (with_openListeners listeners f))
    as [[u|e] f1]; cbn [snd] in *; [apply IH, H2|exact H2].
Qed.

Lemma start_emitOpen (listeners : list (Data * option Callback)) f :
  start (snd (emitOpen listeners f)) = start f.
Proof.
  revert f. induction listeners as [|l listeners IH]; intro f;
    [reflexivity|].
  cbn [emitOpen].
  assert (H : start (snd (_write (fst l) (snd l)
                            (with_openListeners listeners f)))
              = start f).
  { unfold _write. cbn [fd with_openListeners].
    destruct (fd f); [destruct (fst l)|]; reflexivity. }
  destruct (_write (fst l) (snd l) (with_openListeners listeners f))
    as [[u|e] f1]; cbn [snd] in *; [rewrite IH|]; exact H.
Qed.

Lemma FileInv_take (i : nat) (c : FsClosure) f :
  nth_error (outstanding f) i = Some c ->
  FileInv f ->
  let f1 := with_outstanding (removeNth i (outstanding f)) f in
  FileInv f1
  /\ (isOpenCb c = true -> filter isOpenCb (outstanding f1) = [])
  /\ (isOpenCb c = true -> closed f = false)
  /\ (isCloseCb c = true -> filter isOpenCb (outstanding f1) = []).
Proof.
  intros Hn [H1 H2 H3 H4 H5]. cbv zeta.
  pose proof (filter_removeNth isOpenCb _ _ _ Hn) as Fo.
  split; [|split; [|split]].
  - constructor; unfold dead in *; simpl.
    + lia.
    + intro Hfd. apply filter_removeNth_nil. auto.
    + intro Hne. apply filter_removeNth_nil. apply H3. intro Hnil.
      apply Hne. now apply filter_removeNth_nil.
    + intro Hc. destruct (H4 Hc) as [Hfd Ho]. split; [exact Hfd|].
      now apply filter_removeNth_nil.
    + exact H5.
  - intro Hc. rewrite Hc in Fo. simpl in *.
    destruct (filter isOpenCb (removeNth i (outstanding f))); [reflexivity|].
    simpl in Fo. lia.
  - intro Hc. destruct (closed f) eqn:E; [|reflexivity].
    destruct (H4 eq_refl) as [_ Ho].
    pose proof (nth_error_filter_nil _ _ _ _ Ho Hn). congruence.
  - intro Hc. simpl. apply filter_removeNth_nil. apply H3. intro Hnil.
    pose proof (nth_error_filter_nil _ _ _ _ Hnil Hn). congruence.
Qed.

Lemma FileInv_step (a : FileAction) f : FileInv f -> FileInv (fileStep f a).
Proof.
  intro H. destruct a; simpl.
  - now apply FileInv_write.
  - now apply FileInv_writev.
  - now apply FileInv_closeFile.
  - unfold _final. destruct (autoClose f); [now apply FileInv_closeFile|auto].
  - now apply FileInv_raiseError.
  - unfold resume, resumed.
    destruct (nth_error (outstanding f) i) as [c|] eqn:Hn; [|exact H].
    destruct (FileInv_take i c f Hn H) as (H1 & Ho & Hc & Hcl).
    cbv zeta in *.
    set (f1 := with_outstanding (removeNth i (outstanding f)) f) in *.
    destruct c; cbn [snd].
    + specialize (Ho eq_refl). specialize (Hc eq_refl).
      unfold openCb. destruct r as [e|d];
        [now apply FileInv_raiseError|].
      assert (Hg : FileInv (note (Raise "open" None)
                              (with_pendingOpen false
                                 (with_fd (Some d) f1)))).
      { apply (FileInv_ext (with_fd (Some d) f1)); try reflexivity.
        destruct H1 as [G1 G2 G3 G4 G5].
        constructor; unfold dead in *; simpl in *; auto.
        congruence. }
      pose proof (FileInv_emitOpen
                    (openListeners
                       (note (Raise "open" None)
                          (with_pendingOpen false (with_fd (Some d) f1))))
                    _ Hg) as He.
      destruct (emitOpen
                  (openListeners
                     (note (Raise "open" None)
                        (with_pendingOpen false (with_fd (Some d) f1))))
                  (note (Raise "open" None)
                     (with_pendingOpen false (with_fd (Some d) f1))))
        as [[u|e] f2]; cbn [snd] in *;
        [now apply FileInv_note|exact He].
    + specialize (Hcl eq_refl). unfold closeCb.
      apply FileInv_note, FileInv_callIf.
      destruct H1 as [G1 G2 G3 G4 G5].
      constructor; unfold dead in *; simpl in *; auto.
    + unfold writeCb. destruct r; apply FileInv_callIf; [exact H1|].
      now apply (FileInv_ext f1).
    + now apply FileInv_note.
Qed.

Lemma FileInv_run (acts : list FileAction) f :
  FileInv f -> FileInv (fileRun acts f).
Proof.
  revert f. induction acts as [|a acts IH]; intros f H; [exact H|].
  simpl. apply IH, FileInv_step, H.
Qed.

Lemma FileInv_construct path fd0 start0 flags mode autoClose0 f0 :
  construct path fd0 start0 flags mode autoClose0 = Ok f0 -> FileInv f0.
Proof.
  unfold construct.
  destruct ((start0 <? 0) || (MAX_SAFE_INTEGER <? start0)) eqn:E;
    [discriminate|].
  apply orb_false_iff in E. destruct E as [E1 E2].
  apply Z.ltb_ge in E1. apply Z.ltb_ge in E2.
  intro H. injection H as <-.
  destruct fd0; constructor; unfold dead; simpl; auto; try discriminate;
    try congruence.
Qed.

Lemma FileInv_reachable f : fileReachable f -> FileInv f.
Proof.
  intros (p & fd0 & s0 & fl & m & ac & f0 & acts & Hc & ->).
  apply FileInv_run. eapply FileInv_construct, Hc.
Qed.

Lemma start_step (a : FileAction) f : start (fileStep f a) = start f.
Proof.
  destruct a; simpl.
  - unfold _write. destruct (fd f); reflexivity.
  - unfold _writev. destruct (fd f); reflexivity.
  - unfold _destroy, closeFile. destruct (fd f), callback; reflexivity.
  - unfold _final, closeFile.
    destruct (autoClose f), (fd f), callback; reflexivity.
  - unfold raiseError, closeFile, note. simpl.
    destruct (autoClose f), (fd f); reflexivity.
  - unfold resume, resumed.
    destruct (nth_error (outstanding f) i) as [c|]; [|reflexivity].
    destruct c; cbn [snd].
    + unfold openCb. destruct r as [e|d].
      * unfold raiseError, closeFile, note. simpl.
        destruct (autoClose f), (fd f); reflexivity.
      * pose proof (start_emitOpen
                      (openListeners
                         (note (Raise "open" None)
                            (with_pendingOpen false
                               (with_fd (Some d)
                                  (with_outstanding
                                     (removeNth i (outstanding f)) f)))))
                      (note (Raise "open" None)
                         (with_pendingOpen false
                            (with_fd (Some d)
                               (with_outstanding
                                  (removeNth i (outstanding f)) f)))))
          as Hs.
        destruct (emitOpen
                    (openListeners
                       (note (Raise "open" None)
                          (with_pendingOpen false
                             (with_fd (Some d)
                                (with_outstanding
                                   (removeNth i (outstanding f)) f)))))
                    (note (Raise "open" None)
                       (with_pendingOpen false
                          (with_fd (Some d)
                             (with_outstanding
                                (removeNth i (outstanding f)) f)))))
          as [[u|e] f2]; cbn [snd] in *; exact Hs.
    + unfold closeCb, callIf. destruct callback; reflexivity.
    + unfold writeCb, callIf. destruct r, callback; reflexivity.
    + reflexivity.
Qed.

(** X16.  The constructor refuses exactly the start offsets below zero or
    above the largest safe integer; on a stream it returns, the counter of
    written bytes is zero, [open] is requested exactly when no descriptor
    was given, and the start offset is the given one for ever. *)
Theorem constructor_checks_start path fd0 start0 flags mode autoClose0 :
  (start0 < 0 \/ MAX_SAFE_INTEGER < start0 ->
   construct path fd0 start0 flags mode autoClose0
   = Throw (OutOfRangeError "start"))
  /\ (0 <= start0 <= MAX_SAFE_INTEGER ->
      exists f0,
        construct path fd0 start0 flags mode autoClose0 = Ok f0
        /\ bytesWritten f0 = 0
        /\ fd f0 = fd0
        /\ issued f0
           = match fd0 with
             | None => [Issue (FsOpen path flags mode)]
             | Some _ => []
             end
        /\ forall acts, start (fileRun acts f0) = start0).
Proof.
  unfold construct. split.
  - intro H.
    assert (E : (start0 <? 0) || (MAX_SAFE_INTEGER <? start0) = true).
    { apply orb_true_iff. destruct H; [left|right]; now apply Z.ltb_lt. }
    now rewrite E.
  - intro H.
    assert (E : (start0 <? 0) || (MAX_SAFE_INTEGER <? start0) = false).
    { apply orb_false_iff. split; apply Z.ltb_ge; lia. }
    rewrite E. eexists. split; [reflexivity|].
    repeat split; try (destruct fd0; reflexivity).
    intro acts.
    assert (Hs : forall acts f, start (fileRun acts f) = start f).
    { clear. induction acts as [|a acts IH]; intro f; [reflexivity|].
      simpl. rewrite IH. apply start_step. }
    rewrite Hs. destruct fd0; reflexivity.
Qed.

Lemma constructor_checks_start_witness :
  0 <= MAX_SAFE_INTEGER <= MAX_SAFE_INTEGER
  /\ construct "out.bin" None (MAX_SAFE_INTEGER + 1) "w" 438 true
     = Throw (OutOfRangeError "start")
  /\ exists f0,
      construct "out.bin" None MAX_SAFE_INTEGER "w" 438 true = Ok f0.
Proof.
  split; [vm_compute; split; discriminate|]. split.
  - apply (constructor_checks_start "out.bin" None (MAX_SAFE_INTEGER + 1)
             "w" 438 true).
    right. vm_compute. reflexivity.
  - destruct (proj2 (constructor_checks_start "out.bin" None
                       MAX_SAFE_INTEGER "w" 438 true))
      as (f0 & H & _).
    + vm_compute. split; discriminate.
    + exists f0. exact H.
Defined.

(** X15.  How a file stream dies: for every stream the constructor and its
    methods can produce, once [closed] is set there is no descriptor and
    no [open] outstanding; this is the state the callback of [fs.close]
    leaves, and the state a failed [open] leaves. *)
Theorem closed_or_unopened_file_is_dead f :
  fileReachable f ->
  (closed f = true -> dead f)
  /\ (forall i r err callback,
         nth_error (outstanding f) i = Some (CloseCb err callback) ->
         closed (resume i r f) = true /\ dead (resume i r f))
  /\ (forall i e,
         nth_error (outstanding f) i = Some OpenCb ->
         dead (resume i (Failed e) f))
  /\ (fd f <> None -> closed f = false).
Proof.
  intro Hr. pose proof (FileInv_reachable f Hr) as H.
  split; [|split; [|split]].
  - destruct H as [_ _ _ H4 _]. exact H4.
  - intros i r err callback Hn.
    pose proof (FileInv_step (FResume i r) f H) as H'.
    assert (Hc : closed (resume i r f) = true).
    { unfold resume, resumed. rewrite Hn. unfold closeCb, callIf, note.
      destruct callback; reflexivity. }
    split; [exact Hc|]. destruct H' as [_ _ _ H4 _]. exact (H4 Hc).
  - intros i e Hn.
    destruct (FileInv_take i OpenCb f Hn H) as (_ & Ho & _ & _).
    specialize (Ho eq_refl). cbv zeta in Ho.
    destruct H as [_ H2 _ _ _].
    assert (Hfd : fd f = None).
    { destruct (fd f) eqn:E; [|reflexivity].
      assert (Hnil : filter isOpenCb (outstanding f) = [])
        by (apply H2; congruence).
      pose proof (nth_error_filter_nil _ _ _ _ Hnil Hn). discriminate. }
    unfold resume, resumed. rewrite Hn. unfold openCb, raiseError.
    cbn [snd].
    set (f1 := with_outstanding (removeNth i (outstanding f)) f) in *.
    change (autoClose (note (Raise "error" (Some e)) f1))
      with (autoClose f).
    assert (Hd : dead (note (Raise "error" (Some e)) f1))
      by (split; [exact Hfd|exact Ho]).
    destruct (autoClose f); [|exact Hd].
    apply (closeFile_dead (Some e) None _ Hd).
  - intro Hfd. destruct (closed f) eqn:E; [|reflexivity].
    destruct H as [_ _ _ H4 _]. destruct (H4 E) as [Hn _].
    congruence.
Qed.

Lemma closed_or_unopened_file_is_dead_witness :
  fileReachable
    (fileRun [FResume 0 (Done 3); FFinal (Some 1%nat); FResume 0 (Done 0)]
       (openFile "w" 438
          (mkFile None "out.bin" 0 false 0 true true [] [] [])))
  /\ closed
       (fileRun [FResume 0 (Done 3); FFinal (Some 1%nat); FResume 0 (Done 0)]
          (openFile "w" 438
             (mkFile None "out.bin" 0 false 0 true true [] [] [])))
     = true
  /\ dead
       (fileRun [FResume 0 (Done 3); FFinal (Some 1%nat); FResume 0 (Done 0)]
          (openFile "w" 438
             (mkFile None "out.bin" 0 false 0 true true [] [] []))).
Proof.
  assert (Hr : fileReachable
                 (fileRun [FResume 0 (Done 3); FFinal (Some 1%nat);
                           FResume 0 (Done 0)]
                    (openFile "w" 438
                       (mkFile None "out.bin" 0 false 0 true true
                          [] [] [])))).
  { exists "out.bin", None, 0, "w", 438, true. eexists. eexists.
    split; reflexivity. }
  split; [exact Hr|]. split; [reflexivity|].
  exact (proj1 (closed_or_unopened_file_is_dead _ Hr) eq_refl).
Defined.

End FileFacts.
